(** * libosmium: packed tag records, typed memory-mapped files, OGR problem export

    A shallow embedding of
      - [include/osmium/osm/tag.hpp]              (module [TagRecords]),
      - [include/osmium/detail/typed_mmap.hpp]    (module [TypedMmap]),
      - [include/osmium/area/problem_reporter_ogr.hpp]
                                                  (module [ProblemReporterOGR]),
    followed by what the specification says of them, each property in the
    module named after the code's with [Spec] appended.

    Buffers are lists of bytes and pointers offsets into them; machine
    integers are [Z] with the wrap-around written out; code that throws
    returns a [result]; code that writes threads its state. *)

From Stdlib Require Import ZArith Lia.
From Stdlib Require Import Strings.Byte Strings.Ascii.
From Stdlib Require Import Floats.SpecFloat.
From stdpp Require Import base option list gmap strings.

(** ** Tag records ([osmium/osm/tag.hpp]) *)

Module TagRecords.

Import Byte.

#[export] Instance byte_eq_dec : EqDecision byte := Byte.byte_eq_dec.

(** A buffer is a run of [char]s; a [char*] into it is an offset. *)
Definition memory := list byte.
Definition ptr := nat.

(** [std::strchr(p, 0)] on the bytes from [p] on: the distance to the first
    null byte.  A scan that leaves the buffer has no defined result. *)
Fixpoint strchr_nul (s : list byte) : option nat :=
  match s with
  | [] => None
  | c :: s' => if Byte.eqb c x00 then Some 0 else S <$> strchr_nul s'
  end.

Definition strchr0 (mem : memory) (p : ptr) : option ptr :=
  (λ i, p + i) <$> strchr_nul (drop p mem).

(** [Tag::after_null]: [return std::strchr(ptr, 0) + 1;] *)
Definition after_null (mem : memory) (p : ptr) : option ptr :=
  (λ q, q + 1) <$> strchr0 mem p.

(** [ItemHelper::data()] of the base class is the address of the object
    itself, seen as [char*]. *)
Definition data (this : ptr) : ptr := this.

(** [Tag::next]: [return after_null(after_null(data()));] *)
Definition next (mem : memory) (this : ptr) : option ptr :=
  after_null mem (data this) ≫= after_null mem.

(** [Tag::key]: [return data();] *)
Definition key (this : ptr) : ptr := data this.

(** [Tag::value]: [return after_null(data());] *)
Definition value (mem : memory) (this : ptr) : option ptr :=
  after_null mem (data this).

(** What a reader of a [const char*] sees: the bytes up to, and not
    including, the first null. *)
Fixpoint c_str (s : list byte) : option (list byte) :=
  match s with
  | [] => None
  | c :: s' => if Byte.eqb c x00 then Some [] else (c ::.) <$> c_str s'
  end.

Definition string_at (mem : memory) (p : ptr) : option (list byte) :=
  c_str (drop p mem).

(** [strcmp]: walks both strings in step until they differ or end. *)
Fixpoint strcmp (s1 s2 : list byte) : option Z :=
  match s1, s2 with
  | c1 :: s1', c2 :: s2' =>
      if Byte.eqb c1 c2
      then (if Byte.eqb c1 x00 then Some 0%Z else strcmp s1' s2')
      else Some (Z.of_N (Byte.to_N c1) - Z.of_N (Byte.to_N c2))%Z
  | _, _ => None
  end.

(** The scanned size of the record at [this]: the distance [next] covers. *)
Definition record_size (mem : memory) (this : ptr) : option nat :=
  (λ n, n - this) <$> next mem this.

(** Modelled from the spec: the producer side (the tag-list builder) is not
    part of these sources.  A key/value pair is encoded as two consecutive
    null-terminated byte strings, key first, with no length prefix. *)
Definition encode_tag (kv : list byte * list byte) : list byte :=
  kv.1 ++ [x00] ++ kv.2 ++ [x00].

(** Appending records advances the write cursor by each record's size, so
    a sequence is the concatenation of its records in write order. *)
Definition encode_tags (tags : list (list byte * list byte)) : list byte :=
  concat (encode_tag <$> tags).

Definition no_null (s : list byte) : Prop := x00 ∉ s.

Definition no_nulls (tags : list (list byte * list byte)) : Prop :=
  Forall (λ kv, no_null kv.1 ∧ no_null kv.2) tags.

(** *** The iteration protocol *)

(** Modelled from the spec: [osmium::memory::Collection] and its
    [CollectionIterator] ([osmium/memory/collection.hpp]) are not part of
    these sources.  An iterator holds the address of the current record;
    advancing it replaces that address by the record's [next()], and two
    iterators are equal when their addresses are.  A sequence hands out the
    iterator pair [cbegin]/[cend]: its first record and its stored end
    boundary. *)
Record TagList := { cbegin : ptr; cend : ptr }.

(** Modelled from the spec: forward iteration,
    [for (it = first; it != last; ++it) visit(it)], returning the visited
    records and the number of increments.  The scan only moves forward, so
    the length of the buffer bounds the number of rounds. *)
Fixpoint iterate_fuel (fuel : nat) (mem : memory) (it last : ptr)
  : option (list ptr * nat) :=
  if decide (it = last) then Some ([], 0)
  else match fuel with
       | 0 => None
       | S fuel' =>
           n ← next mem it;
           r ← iterate_fuel fuel' mem n last;
           Some (it :: r.1, S r.2)
       end.

Definition iterate (mem : memory) (tl : TagList) : option (list ptr * nat) :=
  iterate_fuel (length mem) mem (cbegin tl) (cend tl).

(** The record view an iteration step hands to the consumer. *)
Definition read_tag (mem : memory) (this : ptr)
  : option (list byte * list byte) :=
  k ← string_at mem (key this);
  vp ← value mem this;
  v ← string_at mem vp;
  Some (k, v).

(** [std::find_if(first, last, pred)]: the first iterator in the range
    whose record satisfies [pred], else [last]. *)
Fixpoint find_if_fuel (fuel : nat) (mem : memory) (first last : ptr)
    (pred : ptr → option bool) : option ptr :=
  if decide (first = last) then Some last
  else match fuel with
       | 0 => None
       | S fuel' =>
           b ← pred first;
           if b : bool then Some first
           else n ← next mem first; find_if_fuel fuel' mem n last pred
       end.

Definition find_if (mem : memory) (first last : ptr)
    (pred : ptr → option bool) : option ptr :=
  find_if_fuel (length mem) mem first last pred.

(** The lambda of [get_value_by_key]:
    [return !strcmp(tag.key(), key);] *)
Definition key_equals (mem : memory) (qkey : list byte) (tag : ptr)
  : option bool :=
  (λ c, bool_decide (c = 0%Z)) <$> strcmp (drop (key tag) mem) qkey.

(** [TagList::get_value_by_key].  The query [qkey] is the memory its
    [const char*] argument points at.  The outer [option] is "the scans
    stayed inside the buffers"; the inner one is the returned pointer, with
    [None] for [nullptr]. *)
Definition get_value_by_key (mem : memory) (tl : TagList) (qkey : list byte)
  : option (option ptr) :=
  result ← find_if mem (cbegin tl) (cend tl) (key_equals mem qkey);
  if decide (result = cend tl) then Some None
  else Some <$> value mem result.

(** A sequence of [tags] resident in a buffer: the records lie back to
    back between the two boundaries; what precedes the sequence (its header,
    other items) and what follows it (padding, other items) is arbitrary. *)
Definition resident (mem : memory) (tl : TagList)
    (tags : list (list byte * list byte)) : Prop :=
  ∃ pre post,
    mem = pre ++ encode_tags tags ++ post ∧
    cbegin tl = length pre ∧
    cend tl = length pre + length (encode_tags tags).

(** Where the records of a sequence written from [first] on start. *)
Fixpoint record_starts (first : ptr) (tags : list (list byte * list byte))
  : list ptr :=
  match tags with
  | [] => []
  | kv :: tags' => first :: record_starts (first + length (encode_tag kv)) tags'
  end.

(** Iterating the same sequence [n] times over, from the start each time. *)
Fixpoint iterate_times (n : nat) (mem : memory) (tl : TagList)
  : option (list (list ptr * nat)) :=
  match n with
  | 0 => Some []
  | S n' =>
      r ← iterate mem tl;
      rs ← iterate_times n' mem tl;
      Some (r :: rs)
  end.

(** *** The scenario of the specification *)

Definition bytes (s : string) : list byte := String.list_byte_of_string s.

Definition scenario_tags : list (list byte * list byte) :=
  [(bytes "name", bytes "Main St"); (bytes "highway", bytes "residential")].

(** Eight bytes of header, the two records, and padding up to a multiple of
    eight. *)
Definition scenario_header : list byte := replicate 8 x01.
Definition scenario_padding : list byte := replicate 7 x00.

Definition scenario_memory : memory :=
  scenario_header ++ encode_tags scenario_tags ++ scenario_padding.

Definition scenario_list : TagList := {| cbegin := 8; cend := 41 |}.

End TagRecords.

(** ** Typed memory-mapped files ([osmium/detail/typed_mmap.hpp]) *)

Module TypedMmap.

Open Scope Z_scope.

(** The two exceptions the file operations throw. *)
Inductive exception :=
| system_error (code : Z) (what : string)
| length_error (what : string).

Inductive result (A : Type) :=
| Ok (a : A)
| Throw (e : exception).
Arguments Ok {A} a.
Arguments Throw {A} e.

(** *** The operating system, as far as these functions look at it *)

(** An open file: its byte length ([off_t], signed 64 bit), whether the
    descriptor was opened for writing, and the largest length the file
    system lets it have. *)
Record file := { st_size : Z; writable : bool; size_limit : Z }.

Record os := { fds : gmap Z file; errno : Z }.

Definition EBADF := 9.
Definition EINVAL := 22.
Definition EFBIG := 27.

Definition set_errno (e : Z) (σ : os) : os := {| fds := fds σ; errno := e |}.

(** [fstat(2)]: the return value, the [st_size] left in the stat buffer,
    and the state afterwards. *)
Definition fstat (fd : Z) (σ : os) : Z * Z * os :=
  match fds σ !! fd with
  | Some f => (0, st_size f, σ)
  | None => (-1, 0, set_errno EBADF σ)
  end.

(** [ftruncate(2)]: sets the length of the file, both ways. *)
Definition ftruncate (fd : Z) (len : Z) (σ : os) : Z * os :=
  match fds σ !! fd with
  | None => (-1, set_errno EBADF σ)
  | Some f =>
      if negb (writable f) then (-1, set_errno EINVAL σ)
      else if len <? 0 then (-1, set_errno EINVAL σ)
      else if size_limit f <? len then (-1, set_errno EFBIG σ)
      else (0, {| fds := <[fd := {| st_size := len;
                                    writable := writable f;
                                    size_limit := size_limit f |}]> (fds σ);
                  errno := errno σ |})
  end.

(** *** Machine integers *)

(** [size_t] is unsigned 64 bit, [off_t] signed 64 bit. *)
Definition to_size_t (z : Z) : Z := z mod 2 ^ 64.

Definition to_off_t (z : Z) : Z :=
  let u := z mod 2 ^ 64 in if u <? 2 ^ 63 then u else u - 2 ^ 64.

Section typed_mmap.

(** [sizeof(T)] of the template parameter. *)
Variable sizeof_T : Z.

(** [typed_mmap<T>::file_size(int fd)].  In [s.st_size % sizeof(T)] and
    [s.st_size / sizeof(T)] the signed [st_size] is converted to
    [size_t] first. *)
Definition file_size (fd : Z) (σ : os) : result Z * os :=
  let '(r, size, σ1) := fstat fd σ in
  if r <? 0 then
    (Throw (system_error (errno σ1) "fstat failed"), σ1)
  else if negb (to_size_t size mod sizeof_T =? 0) then
    (Throw (length_error "file size has to be multiple of object size"), σ1)
  else
    (Ok (to_size_t size / sizeof_T), σ1).

(** [typed_mmap<T>::grow_file(size_t new_size, int fd)].  The product
    [sizeof(T) * new_size] is computed in [size_t] and handed to
    [ftruncate] as an [off_t]. *)
Definition grow_file (new_size : Z) (fd : Z) (σ : os) : result unit * os :=
  match file_size fd σ with
  | (Throw e, σ1) => (Throw e, σ1)
  | (Ok count, σ1) =>
      if count <? new_size then
        let '(r, σ2) :=
          ftruncate fd (to_off_t (to_size_t (sizeof_T * new_size))) σ1 in
        if r <? 0 then
          (Throw (system_error (errno σ2) "ftruncate failed"), σ2)
        else (Ok tt, σ2)
      else (Ok tt, σ1)
  end.

End typed_mmap.

(** The byte length of the file behind [fd], if it is open. *)
Definition size_of_file (fd : Z) (σ : os) : option Z :=
  st_size <$> fds σ !! fd.

(** What the file system guarantees of an open file. *)
Definition file_ok (f : file) : Prop :=
  0 ≤ st_size f ≤ size_limit f ∧ size_limit f < 2 ^ 63.

(** One file, open on descriptor [fd]; nothing else is open. *)
Definition one_file (fd : Z) (f : file) : os :=
  {| fds := {[ fd := f ]}; errno := 0 |}.

(** A file of 16 bytes and one of 13, both writable. *)
Definition two_files : os :=
  {| fds := {[ 3 := {| st_size := 16; writable := true; size_limit := 2 ^ 40 |};
               4 := {| st_size := 13; writable := true; size_limit := 2 ^ 40 |} ]};
     errno := 0 |}.

(** Two calls of [grow_file] in a row, the second only if the first
    returned. *)
Definition grow_file_twice (sizeof_T : Z) (n m : Z) (fd : Z) (σ : os)
  : result unit * os :=
  match grow_file sizeof_T n fd σ with
  | (Ok _, σ1) => grow_file sizeof_T m fd σ1
  | (Throw e, σ1) => (Throw e, σ1)
  end.

(** *** Memory mappings, as far as these functions look at them *)

Definition PAGE_SIZE := 4096.

(** The end of the user address space. *)
Definition TASK_SIZE := 2 ^ 47 - PAGE_SIZE.

(** [MAP_FAILED] is [(void* ) -1]. *)
Definition MAP_FAILED := 2 ^ 64 - 1.

Definition ENOMEM := 12.
Definition EACCES := 13.

(** What stands behind a mapped page: nothing, or a page of an open file. *)
Inductive page_backing :=
| Anonymous
| FileBacked (fd : Z) (file_page : Z).

(** A mapped page.  Every page is readable ([PROT_READ] is always asked
    for); [page_write] is [PROT_WRITE], [page_shared] tells [MAP_SHARED]
    from [MAP_PRIVATE]. *)
Record page := {
  page_write : bool;
  page_shared : bool;
  page_back : page_backing
}.

(** The files and the address space, which maps page numbers to pages. *)
Record machine := { kernel : os; mappings : gmap Z page }.

(** The two flag combinations the class uses. *)
Inductive map_flags := MAP_PRIVATE_ANONYMOUS | MAP_SHARED.

(** Number of pages that [len] bytes take ([PAGE_ALIGN]). *)
Definition pages_of (len : Z) : Z := (len + PAGE_SIZE - 1) / PAGE_SIZE.

Definition new_pages (first count : Z) (mk : Z → page) : gmap Z page :=
  list_to_map ((λ i, (first + i, mk i)) <$> seqZ 0 count).

Definition without_pages (first count : Z) (m : gmap Z page) : gmap Z page :=
  filter (λ kv, ¬ (first ≤ kv.1 < first + count)) m.

Definition mmap_fails (e : Z) (σ : machine) : Z * machine :=
  (MAP_FAILED, {| kernel := set_errno e (kernel σ); mappings := mappings σ |}).

Section address_space.

(** Where the kernel puts a new mapping of so many pages in an address
    space, if it finds room: the number of its first page. *)
Variable get_unmapped_area : gmap Z page → Z → option Z.

(** [mmap(nullptr, len, PROT_READ | (write ? PROT_WRITE : 0), flags, fd, 0)]:
    the returned address and the state afterwards.  Descriptors are open
    for reading; [writable] tells [O_RDWR] from [O_RDONLY]. *)
Definition mmap (len : Z) (write : bool) (flags : map_flags) (fd : Z)
    (σ : machine) : Z * machine :=
  let file :=
    match flags with
    | MAP_PRIVATE_ANONYMOUS => Some None
    | MAP_SHARED => Some <$> fds (kernel σ) !! fd
    end in
  match file with
  | None => mmap_fails EBADF σ
  | Some file =>
      if len =? 0 then mmap_fails EINVAL σ
      else if TASK_SIZE <? len then mmap_fails ENOMEM σ
      else match get_unmapped_area (mappings σ) (pages_of len) with
           | None => mmap_fails ENOMEM σ
           | Some first =>
               match file with
               | Some f =>
                   if write && negb (writable f) then mmap_fails EACCES σ
                   else (first * PAGE_SIZE,
                         {| kernel := kernel σ;
                            mappings :=
                              new_pages first (pages_of len)
                                (λ i, {| page_write := write;
                                         page_shared := true;
                                         page_back := FileBacked fd i |})
                              ∪ mappings σ |})
               | None =>
                   (first * PAGE_SIZE,
                    {| kernel := kernel σ;
                       mappings :=
                         new_pages first (pages_of len)
                           (λ i, {| page_write := write;
                                    page_shared := false;
                                    page_back := Anonymous |})
                         ∪ mappings σ |})
               end
           end
  end.

Section typed_mmap_mappings.

Variable sizeof_T : Z.

(** [typed_mmap<T>::map(size_t size)]: anonymous private memory. *)
Definition map (size : Z) (σ : machine) : result Z * machine :=
  let '(addr, σ1) :=
    mmap (to_size_t (sizeof_T * size)) true MAP_PRIVATE_ANONYMOUS (-1) σ in
  if addr =? MAP_FAILED then
    (Throw (system_error (errno (kernel σ1)) "mmap failed"), σ1)
  else (Ok addr, σ1).

(** [typed_mmap<T>::map(size_t size, int fd, bool write = false)]: a
    shared mapping of a file. *)
Definition map_file (size : Z) (fd : Z) (write : bool) (σ : machine)
  : result Z * machine :=
  let '(addr, σ1) := mmap (to_size_t (sizeof_T * size)) write MAP_SHARED fd σ in
  if addr =? MAP_FAILED then
    (Throw (system_error (errno (kernel σ1)) "mmap failed"), σ1)
  else (Ok addr, σ1).

End typed_mmap_mappings.

End address_space.

(** [munmap(addr, len)]: the return value and the state afterwards.
    Unmapping a range in which nothing is mapped is no error. *)
Definition munmap (addr : Z) (len : Z) (σ : machine) : Z * machine :=
  if negb (addr mod PAGE_SIZE =? 0) || (TASK_SIZE <? addr)
     || (TASK_SIZE - addr <? len) || (pages_of len =? 0)
  then (-1, {| kernel := set_errno EINVAL (kernel σ); mappings := mappings σ |})
  else (0, {| kernel := kernel σ;
              mappings := without_pages (addr / PAGE_SIZE) (pages_of len)
                            (mappings σ) |}).

(** [typed_mmap<T>::unmap(T* data, size_t size)] *)
Definition unmap (sizeof_T : Z) (data : Z) (size : Z) (σ : machine)
  : result unit * machine :=
  let '(r, σ1) := munmap data (to_size_t (sizeof_T * size)) σ in
  if negb (r =? 0) then
    (Throw (system_error (errno (kernel σ1)) "munmap failed"), σ1)
  else (Ok tt, σ1).

(** [grow_file] and [file_size] at work in a machine. *)
Definition in_kernel {A} (f : os → A * os) (σ : machine) : A * machine :=
  let '(a, k) := f (kernel σ) in (a, {| kernel := k; mappings := mappings σ |}).

(** The page a mapping made with these arguments gets at index [i]. *)
Definition fresh_page (write : bool) (flags : map_flags) (fd : Z) (i : Z) : page :=
  match flags with
  | MAP_PRIVATE_ANONYMOUS =>
      {| page_write := write; page_shared := false; page_back := Anonymous |}
  | MAP_SHARED =>
      {| page_write := write; page_shared := true; page_back := FileBacked fd i |}
  end.

(** The byte at address [a] is mapped, and how. *)
Definition page_at (a : Z) (σ : machine) : option page :=
  mappings σ !! (a / PAGE_SIZE).

(** A kernel that never hands out the null page, stays below [TASK_SIZE],
    and only hands out pages that are free. *)
Definition area_ok (get_unmapped_area : gmap Z page → Z → option Z) : Prop :=
  ∀ m n first,
    get_unmapped_area m n = Some first →
    0 < first ∧ (first + n) * PAGE_SIZE ≤ TASK_SIZE ∧
    ∀ i, 0 ≤ i < n → m !! (first + i) = None.

(** One such kernel: the pages above the highest one in use. *)
Definition above_all (m : gmap Z page) (n : Z) : option Z :=
  let first := 1 + map_fold (λ k _ acc, Z.max (k + 1) acc) 16 m in
  if (first + n) * PAGE_SIZE <=? TASK_SIZE then Some first else None.

Definition empty_machine : machine := {| kernel := two_files; mappings := ∅ |}.

End TypedMmap.

(** ** Reporting area problems through OGR
       ([osmium/area/problem_reporter_ogr.hpp]) *)

Module ProblemReporterOGR.

Open Scope Z_scope.

(** [osmium::geometry_error] is the one exception the reporter catches;
    everything else a collaborator throws ([osmium::invalid_location],
    [gdalcpp::gdal_error], ...) is [other_exception]. *)
Inductive exception :=
| geometry_error (what : string)
| other_exception (what : string).

Inductive result (A : Type) :=
| Ok (a : A)
| Throw (e : exception).
Arguments Ok {A} a.
Arguments Throw {A} e.

Definition result_map {A B} (f : A → B) (x : result A) : result B :=
  match x with Ok a => Ok (f a) | Throw e => Throw e end.

(** [int32_t(x)]: narrowing to 32 bit, two's complement. *)
Definition int32_t (z : Z) : Z := (z + 2 ^ 31) mod 2 ^ 32 - 2 ^ 31.

(** [double(x)] of a 64 bit integer: IEEE 754 binary64, rounded to nearest,
    ties to even. *)
Definition double (z : Z) : spec_float := binary_normalize 53 1024 z 0 false.

(** The integer a finite [double] reads back as ([int64_t(d)], truncating). *)
Definition double_to_Z (d : spec_float) : option Z :=
  match d with
  | S754_zero _ => Some 0
  | S754_finite s m e =>
      let v := if 0 <=? e then Z.pos m * 2 ^ e else Z.pos m / 2 ^ (- e) in
      Some (if s then - v else v)
  | _ => None
  end.

(** *** The OGR side: layers, field definitions, features *)

Inductive OGRwkbGeometryType := wkbPoint | wkbLineString.

Inductive OGRFieldType := OFTString | OFTInteger | OFTReal.

Record field_defn := {
  field_name : string;
  field_type : OGRFieldType;
  field_width : Z;
  field_precision : Z
}.

(** A value handed to [Feature::set_field], tagged by the overload chosen:
    [const char*], [int] or [double]. *)
Inductive field_value :=
| VString (s : string)
| VInt (i : Z)
| VDouble (d : spec_float).

Inductive layer_id := perrors | lerrors | ways.

#[export] Instance layer_id_eq_dec : EqDecision layer_id.
Proof. solve_decision. Defined.

Section geometry.

(** [double] coordinates; nothing here computes with them. *)
Variable coordinate : Type.

Inductive ogr_geometry :=
| OGRPoint (x y : coordinate)
| OGRLineString (points : list (coordinate * coordinate)).

(** [gdalcpp::Feature]: built for a layer from a geometry, then filled field
    by field. *)
Record feature := {
  feature_layer : layer_id;
  feature_geometry : ogr_geometry;
  feature_fields : gmap string field_value
}.

Record Layer := {
  layer_name : string;
  layer_geom : OGRwkbGeometryType;
  layer_fields : list field_defn;
  layer_features : list feature
}.

End geometry.

Arguments OGRPoint {coordinate} x y.
Arguments OGRLineString {coordinate} points.
Arguments feature_layer {coordinate} f.
Arguments feature_geometry {coordinate} f.
Arguments feature_fields {coordinate} f.
Arguments Build_feature {coordinate}.
Arguments layer_name {coordinate} l.
Arguments layer_geom {coordinate} l.
Arguments layer_fields {coordinate} l.
Arguments layer_features {coordinate} l.
Arguments Build_Layer {coordinate}.

Section osm.

Variable Location : Type.

Record NodeRef := { ref : Z; location : Location }.

Record Way := { id : Z; nodes : list NodeRef }.

End osm.

Arguments ref {Location} n.
Arguments location {Location} n.
Arguments Build_NodeRef {Location}.
Arguments id {Location} w.
Arguments nodes {Location} w.
Arguments Build_Way {Location}.

(** What the headers this file includes provide: the item types and their
    one-letter names, locations, the geometry factory and OGR itself. *)
Class Collaborators := {
  item_type : Type;
  item_type_to_char : item_type → ascii;
  Location : Type;
  coordinate : Type;
  (** [loc.lon()] and [loc.lat()]: both throw for an invalid location. *)
  lon_lat : Location → result (coordinate * coordinate);
  (** [OGRFactory::create_point] and [OGRFactory::create_linestring]. *)
  create_point : Location → result (ogr_geometry coordinate);
  create_linestring : Way Location → result (ogr_geometry coordinate);
  (** Whether OGR accepts a feature; [Feature::add_to_layer] throws if not. *)
  create_feature_ok : feature coordinate → bool
}.

Section reporter.

Context `{Collaborators}.

(** The reporter: its three layers, and the object the base class
    [ProblemReporter] says is being worked on. *)
Record reporter := {
  m_layer_perror : Layer coordinate;
  m_layer_lerror : Layer coordinate;
  m_layer_ways : Layer coordinate;
  m_object_type : item_type;
  m_object_id : Z;
  m_nodes : Z
}.

(** Code that may throw and may write features. *)
Definition M (A : Type) : Type := reporter → result A * reporter.

Definition ret {A} (a : A) : M A := λ r, (Ok a, r).

Definition bind {A B} (c : M A) (k : A → M B) : M B :=
  λ r, match c r with
       | (Ok a, r') => k a r'
       | (Throw e, r') => (Throw e, r')
       end.

Definition lift {A} (x : result A) : M A := λ r, (x, r).

(** Reading the members of [*this]. *)
Definition this : M reporter := λ r, (Ok r, r).

#[export] Instance M_ret : MRet M := @ret.
#[export] Instance M_bind : MBind M := λ A B k c, bind c k.

(** [try { body } catch (const osmium::geometry_error&) { }] *)
Definition try_catch_geometry_error (body : M unit) : M unit :=
  λ r, match body r with
       | (Throw (geometry_error _), r') => (Ok tt, r')
       | other => other
       end.

(** [Layer::add_field(name, type, width, precision = 0)] *)
Definition add_field (name : string) (type : OGRFieldType) (width : Z)
    (precision : Z) (l : Layer coordinate) : Layer coordinate :=
  {| layer_name := layer_name l;
     layer_geom := layer_geom l;
     layer_fields := layer_fields l ++
       [{| field_name := name; field_type := type;
           field_width := width; field_precision := precision |}];
     layer_features := layer_features l |}.

Definition new_layer (name : string) (g : OGRwkbGeometryType) : Layer coordinate :=
  {| layer_name := name; layer_geom := g;
     layer_fields := []; layer_features := [] |}.

Definition new_feature (l : layer_id) (g : ogr_geometry coordinate) : feature coordinate :=
  {| feature_layer := l; feature_geometry := g; feature_fields := ∅ |}.

Definition set_field (name : string) (v : field_value) (f : feature coordinate) : feature coordinate :=
  {| feature_layer := feature_layer f;
     feature_geometry := feature_geometry f;
     feature_fields := <[name := v]> (feature_fields f) |}.

Definition get_layer (l : layer_id) (r : reporter) : Layer coordinate :=
  match l with
  | perrors => m_layer_perror r
  | lerrors => m_layer_lerror r
  | ways => m_layer_ways r
  end.

Definition push_feature (f : feature coordinate) (l : Layer coordinate) : Layer coordinate :=
  {| layer_name := layer_name l;
     layer_geom := layer_geom l;
     layer_fields := layer_fields l;
     layer_features := layer_features l ++ [f] |}.

Definition set_layer (l : layer_id) (x : Layer coordinate) (r : reporter) : reporter :=
  {| m_layer_perror := if decide (l = perrors) then x else m_layer_perror r;
     m_layer_lerror := if decide (l = lerrors) then x else m_layer_lerror r;
     m_layer_ways := if decide (l = ways) then x else m_layer_ways r;
     m_object_type := m_object_type r;
     m_object_id := m_object_id r;
     m_nodes := m_nodes r |}.

(** [Feature::add_to_layer] *)
Definition add_to_layer (f : feature coordinate) : M unit :=
  λ r, if create_feature_ok f
       then (Ok tt, set_layer (feature_layer f)
                      (push_feature f (get_layer (feature_layer f) r)) r)
       else (Throw (other_exception "feature creation failed"), r).

(** *** The constructor *)

(** [ProblemReporterOGR(gdalcpp::Dataset&)]: the three layers and their
    fields.  The object being worked on comes from the base class. *)
Definition ProblemReporterOGR (object_type : item_type) (object_id : Z)
    (nodes_count : Z) : reporter :=
  {| m_layer_perror :=
       add_field "problem" OFTString 30 0
         (add_field "id2" OFTReal 12 1
           (add_field "id1" OFTReal 12 1
             (add_field "nodes" OFTInteger 8 0
               (add_field "obj_id" OFTInteger 10 0
                 (add_field "obj_type" OFTString 1 0
                   (new_layer "perrors" wkbPoint))))));
     m_layer_lerror :=
       add_field "problem" OFTString 30 0
         (add_field "id2" OFTReal 12 1
           (add_field "id1" OFTReal 12 1
             (add_field "nodes" OFTInteger 8 0
               (add_field "obj_id" OFTInteger 10 0
                 (add_field "obj_type" OFTString 1 0
                   (new_layer "lerrors" wkbLineString))))));
     m_layer_ways :=
       add_field "nodes" OFTInteger 8 0
         (add_field "way_id" OFTInteger 10 0
           (add_field "obj_id" OFTInteger 10 0
             (add_field "obj_type" OFTString 1 0
               (new_layer "ways" wkbLineString))));
     m_object_type := object_type;
     m_object_id := object_id;
     m_nodes := nodes_count |}.

(** The layers a reporter owns, in declaration order. *)
Definition layers (r : reporter) : list (Layer coordinate) :=
  [m_layer_perror r; m_layer_lerror r; m_layer_ways r].

Definition has_field (name : string) (l : Layer coordinate) : bool :=
  bool_decide (name ∈ field_name <$> layer_fields l).

(** *** Writing features *)

(** [const char t[2] = {c, '\0'}] read as a C string. *)
Definition char_string (c : ascii) : string :=
  if decide (c = zero) then EmptyString else String c EmptyString.

(** [set_object(feature)] *)
Definition set_object (r : reporter) (f : feature coordinate) : feature coordinate :=
  let f := set_field "obj_type"
             (VString (char_string (item_type_to_char (m_object_type r)))) f in
  let f := set_field "obj_id" (VInt (int32_t (m_object_id r))) f in
  set_field "nodes" (VInt (int32_t (m_nodes r))) f.

(** [write_point(problem_type, id1, id2, location)] *)
Definition write_point (problem_type : string) (id1 id2 : Z)
    (loc : Location) : M unit :=
  g ← lift (create_point loc);
  r ← this;
  let f := new_feature perrors g in
  let f := set_object r f in
  let f := set_field "id1" (VDouble (double id1)) f in
  let f := set_field "id2" (VDouble (double id2)) f in
  let f := set_field "problem" (VString problem_type) f in
  add_to_layer f.

(** [write_line(problem_type, id1, id2, loc1, loc2)] *)
Definition write_line (problem_type : string) (id1 id2 : Z)
    (loc1 loc2 : Location) : M unit :=
  p1 ← lift (lon_lat loc1);
  p2 ← lift (lon_lat loc2);
  r ← this;
  let f := new_feature lerrors (OGRLineString [p1; p2]) in
  let f := set_object r f in
  let f := set_field "id1" (VDouble (double id1)) f in
  let f := set_field "id2" (VDouble (double id2)) f in
  let f := set_field "problem" (VString problem_type) f in
  add_to_layer f.

(** *** The reporting operations *)

Definition report_duplicate_node (node_id1 node_id2 : Z) (loc : Location)
  : M unit :=
  write_point "duplicate_node" node_id1 node_id2 loc.

Definition report_touching_ring (node_id : Z) (loc : Location) : M unit :=
  write_point "touching_ring" node_id 0 loc.

Definition report_intersection (way1_id : Z) (way1_seg_start way1_seg_end : Location)
    (way2_id : Z) (way2_seg_start way2_seg_end : Location)
    (intersection : Location) : M unit :=
  write_point "intersection" way1_id way2_id intersection;;
  write_line "intersection" way1_id way2_id way1_seg_start way1_seg_end;;
  write_line "intersection" way2_id way1_id way2_seg_start way2_seg_end.

Definition report_duplicate_segment (nr1 nr2 : NodeRef Location) : M unit :=
  write_line "duplicate_segment" (ref nr1) (ref nr2) (location nr1) (location nr2).

Definition report_overlapping_segment (nr1 nr2 : NodeRef Location) : M unit :=
  write_line "overlapping_segment" (ref nr1) (ref nr2) (location nr1) (location nr2).

(** [way] is a pointer that may be null. *)
Definition report_ring_not_closed (nr : NodeRef Location) (way : option (Way Location)) : M unit :=
  write_point "ring_not_closed" (ref nr)
    (match way with Some w => id w | None => 0 end) (location nr).

Definition report_role_should_be_outer (way_id : Z) (seg_start seg_end : Location)
  : M unit :=
  write_line "role_should_be_outer" way_id 0 seg_start seg_end.

Definition report_role_should_be_inner (way_id : Z) (seg_start seg_end : Location)
  : M unit :=
  write_line "role_should_be_inner" way_id 0 seg_start seg_end.

(** The body shared, letter for letter but for the label, by
    [report_way_in_multiple_rings], [report_inner_with_same_tags] and
    [report_duplicate_way]. *)
Definition write_way_problem (problem_type : string) (way : Way Location) : M unit :=
  if decide (length (nodes way) < 2)%nat then ret tt
  else try_catch_geometry_error (
    g ← lift (create_linestring way);
    r ← this;
    let f := new_feature lerrors g in
    let f := set_object r f in
    let f := set_field "id1" (VInt (int32_t (id way))) f in
    let f := set_field "id2" (VInt 0) f in
    let f := set_field "problem" (VString problem_type) f in
    add_to_layer f).

Definition report_way_in_multiple_rings (way : Way Location) : M unit :=
  write_way_problem "way_in_multiple_rings" way.

Definition report_inner_with_same_tags (way : Way Location) : M unit :=
  write_way_problem "inner_with_same_tags" way.

Definition report_duplicate_way (way : Way Location) : M unit :=
  write_way_problem "duplicate_way" way.

Definition report_way (way : Way Location) : M unit :=
  match nodes way with
  | [] => ret tt
  | [first_nr] =>
      write_point "single_node_in_way" (id way) (ref first_nr) (location first_nr)
  | _ =>
      try_catch_geometry_error (
        g ← lift (create_linestring way);
        r ← this;
        let f := new_feature ways g in
        let f := set_object r f in
        let f := set_field "way_id" (VInt (int32_t (id way))) f in
        add_to_layer f)
  end.

(** The reporting interface, one constructor per virtual function. *)
Inductive report :=
| DuplicateNode (node_id1 node_id2 : Z) (loc : Location)
| TouchingRing (node_id : Z) (loc : Location)
| Intersection (way1_id : Z) (s1 e1 : Location) (way2_id : Z) (s2 e2 : Location)
    (intersection : Location)
| DuplicateSegment (nr1 nr2 : NodeRef Location)
| OverlappingSegment (nr1 nr2 : NodeRef Location)
| RingNotClosed (nr : NodeRef Location) (way : option (Way Location))
| RoleShouldBeOuter (way_id : Z) (seg_start seg_end : Location)
| RoleShouldBeInner (way_id : Z) (seg_start seg_end : Location)
| WayInMultipleRings (way : Way Location)
| InnerWithSameTags (way : Way Location)
| DuplicateWay (way : Way Location)
| ReportWay (way : Way Location).

Definition run_report (c : report) : M unit :=
  match c with
  | DuplicateNode a b l => report_duplicate_node a b l
  | TouchingRing a l => report_touching_ring a l
  | Intersection a s1 e1 b s2 e2 i => report_intersection a s1 e1 b s2 e2 i
  | DuplicateSegment a b => report_duplicate_segment a b
  | OverlappingSegment a b => report_overlapping_segment a b
  | RingNotClosed nr w => report_ring_not_closed nr w
  | RoleShouldBeOuter a s e => report_role_should_be_outer a s e
  | RoleShouldBeInner a s e => report_role_should_be_inner a s e
  | WayInMultipleRings w => report_way_in_multiple_rings w
  | InnerWithSameTags w => report_inner_with_same_tags w
  | DuplicateWay w => report_duplicate_way w
  | ReportWay w => report_way w
  end.

(** A caller reporting one object after the other; an exception that leaves
    a report ends the run. *)
Fixpoint run_reports (cs : list report) : M unit :=
  match cs with
  | [] => ret tt
  | c :: cs' => run_report c;; run_reports cs'
  end.

(** The features a step has added to a layer. *)
Definition written (l : layer_id) (r r' : reporter) : list (feature coordinate) :=
  drop (length (layer_features (get_layer l r))) (layer_features (get_layer l r')).

Definition field (name : string) (f : feature coordinate) : option field_value :=
  feature_fields f !! name.

(** The pairs of related ids a report hands on to [write_point] and
    [write_line]. *)
Definition related_ids (c : report) : list (Z * Z) :=
  match c with
  | DuplicateNode a b _ => [(a, b)]
  | TouchingRing a _ => [(a, 0)]
  | Intersection a _ _ b _ _ _ => [(a, b); (b, a)]
  | DuplicateSegment n1 n2 | OverlappingSegment n1 n2 => [(ref n1, ref n2)]
  | RingNotClosed nr w =>
      [(ref nr, match w with Some w => id w | None => 0 end)]
  | RoleShouldBeOuter a _ _ | RoleShouldBeInner a _ _ => [(a, 0)]
  | ReportWay w =>
      match nodes w with [n] => [(id w, ref n)] | _ => [] end
  | WayInMultipleRings _ | InnerWithSameTags _ | DuplicateWay _ => []
  end.

(** How a feature written for report [c], while the object [oid] is being
    worked on, records ids: the object id narrowed to 32 bit; in the ways
    layer the way id narrowed likewise; in the problem layers either a pair
    of related ids as doubles, or, for the three way problems, the way id
    narrowed to 32 bit and a zero. *)
Definition recorded (c : report) (oid : Z) (f : feature coordinate) : Prop :=
  field "obj_id" f = Some (VInt (int32_t oid)) ∧
  match feature_layer f with
  | ways =>
      ∃ w, c = ReportWay w ∧
           field "way_id" f = Some (VInt (int32_t (id w)))
  | l =>
      (∃ a b, (a, b) ∈ related_ids c ∧
              field "id1" f = Some (VDouble (double a)) ∧
              field "id2" f = Some (VDouble (double b))) ∨
      (l = lerrors ∧
       ∃ w, c ∈ [WayInMultipleRings w; InnerWithSameTags w; DuplicateWay w] ∧
            field "id1" f = Some (VInt (int32_t (id w))) ∧
            field "id2" f = Some (VInt 0))
  end.

(** A feature of a problem layer carrying the pair [(a, b)] as doubles. *)
Definition pair_feature (l : layer_id) (a b : Z) (oid : Z)
    (f : feature coordinate) : Prop :=
  feature_layer f = l ∧
  field "obj_id" f = Some (VInt (int32_t oid)) ∧
  field "id1" f = Some (VDouble (double a)) ∧
  field "id2" f = Some (VDouble (double b)).

(** A step that only adds features, all of them satisfying [P], and leaves
    the object being worked on alone. *)
Definition extends (P : feature coordinate → Prop) (r r' : reporter) : Prop :=
  m_object_type r' = m_object_type r ∧
  m_object_id r' = m_object_id r ∧
  m_nodes r' = m_nodes r ∧
  ∀ l, ∃ new,
    layer_features (get_layer l r') = layer_features (get_layer l r) ++ new ∧
    Forall (λ f, feature_layer f = l ∧ P f) new.

Definition steps {A} (P : Z → feature coordinate → Prop) (c : M A) : Prop :=
  ∀ r, extends (P (m_object_id r)) r (c r).2.

(** The layer schema as the specification words it: every layer carries
    each of the [names]. *)
Definition each_layer_carries (names : list string) (r : reporter) : Prop :=
  Forall (λ l, Forall (λ n, has_field n l = true) names) (layers r).

(** The fields of a layer that hold related ids. *)
Definition related_id_fields (l : Layer coordinate) : list string :=
  filter (λ n, n ∈ ["id1"; "id2"; "way_id"]) (field_name <$> layer_fields l).

Definition schema (l : Layer coordinate) : list (string * OGRFieldType * Z * Z) :=
  (λ d, (field_name d, field_type d, field_width d, field_precision d))
    <$> layer_fields l.

End reporter.

(** *** Collaborators to run the reporter with *)

Inductive osm_item := item_node | item_way | item_relation | item_area.

Definition osm_item_to_char (t : osm_item) : ascii :=
  match t with
  | item_node => "n"
  | item_way => "w"
  | item_relation => "r"
  | item_area => "a"
  end%char.

(** A location is a pair of fixed-point coordinates; the largest 32 bit
    value marks an undefined one. *)
Definition location_valid (loc : Z * Z) : bool :=
  negb (bool_decide (loc.1 = 2 ^ 31 - 1 ∨ loc.2 = 2 ^ 31 - 1)).

Definition checked_lon_lat (loc : Z * Z) : result (Z * Z) :=
  if location_valid loc then Ok loc
  else Throw (other_exception "invalid location").

(** Consecutive equal points count once. *)
Fixpoint distinct_points (ps : list (Z * Z)) : list (Z * Z) :=
  match ps with
  | p :: (q :: _) as ps' =>
      if decide (p = q) then distinct_points ps' else p :: distinct_points ps'
  | _ => ps
  end.

(** A linestring needs two distinct points; a way that does not have them
    is the degenerate line the spec names as the example of a geometry
    error. *)
Definition checked_linestring (w : Way (Z * Z)) : result (ogr_geometry Z) :=
  if forallb location_valid (location <$> nodes w) then
    let ps := distinct_points (location <$> nodes w) in
    if decide (length ps < 2)%nat
    then Throw (geometry_error "need at least two points for linestring")
    else Ok (OGRLineString ps)
  else Throw (other_exception "invalid location").

Definition checked_collaborators : Collaborators := {|
  item_type := osm_item;
  item_type_to_char := osm_item_to_char;
  Location := Z * Z;
  coordinate := Z;
  lon_lat := checked_lon_lat;
  create_point := λ loc, result_map (λ p, OGRPoint p.1 p.2) (checked_lon_lat loc);
  create_linestring := checked_linestring;
  create_feature_ok := λ _, true
|}.

(** A way whose two nodes lie on the same spot: no linestring can be built
    from it. *)
Definition degenerate_way : Way (Z * Z) :=
  {| id := 2 ^ 32 + 5;
     nodes := [ {| ref := 1; location := (10, 20) |};
                {| ref := 2; location := (10, 20) |} ] |}.

Definition proper_way : Way (Z * Z) :=
  {| id := 2 ^ 32 + 5;
     nodes := [ {| ref := 1; location := (10, 20) |};
                {| ref := 2; location := (30, 40) |} ] |}.

(** A reporter at work on relation 42 with two nodes. *)
Definition fresh_reporter : @reporter checked_collaborators :=
  @ProblemReporterOGR checked_collaborators item_relation 42 2.

(** *** The features the writers build *)

Section features.

Context `{Collaborators}.

(** What [write_point] hands to [add_to_layer]. *)
Definition point_feature (r : reporter) (g : ogr_geometry coordinate)
    (problem_type : string) (id1 id2 : Z) : feature coordinate :=
  set_field "problem" (VString problem_type)
    (set_field "id2" (VDouble (double id2))
      (set_field "id1" (VDouble (double id1))
        (set_object r (new_feature perrors g)))).

(** What [write_line] hands to [add_to_layer]. *)
Definition line_feature (r : reporter) (p1 p2 : coordinate * coordinate)
    (problem_type : string) (id1 id2 : Z) : feature coordinate :=
  set_field "problem" (VString problem_type)
    (set_field "id2" (VDouble (double id2))
      (set_field "id1" (VDouble (double id1))
        (set_object r (new_feature lerrors (OGRLineString [p1; p2]))))).

(** What the three way problems hand to [add_to_layer]. *)
Definition way_problem_feature (r : reporter) (g : ogr_geometry coordinate)
    (problem_type : string) (way : Way Location) : feature coordinate :=
  set_field "problem" (VString problem_type)
    (set_field "id2" (VInt 0)
      (set_field "id1" (VInt (int32_t (id way)))
        (set_object r (new_feature lerrors g)))).

(** What [report_way] hands to [add_to_layer] for a way of two nodes or
    more. *)
Definition way_feature (r : reporter) (g : ogr_geometry coordinate)
    (way : Way Location) : feature coordinate :=
  set_field "way_id" (VInt (int32_t (id way)))
    (set_object r (new_feature ways g)).

(** The problem labels the reporting operations use. *)
Definition problem_labels : list string :=
  ["duplicate_node"; "touching_ring"; "intersection"; "duplicate_segment";
   "overlapping_segment"; "ring_not_closed"; "role_should_be_outer";
   "role_should_be_inner"; "way_in_multiple_rings"; "inner_with_same_tags";
   "duplicate_way"; "single_node_in_way"].

(** The layer the constructor sets up under a name. *)
Definition constructed_layer (l : layer_id) : Layer coordinate :=
  match l with
  | perrors =>
      add_field "problem" OFTString 30 0
        (add_field "id2" OFTReal 12 1
          (add_field "id1" OFTReal 12 1
            (add_field "nodes" OFTInteger 8 0
              (add_field "obj_id" OFTInteger 10 0
                (add_field "obj_type" OFTString 1 0
                  (new_layer "perrors" wkbPoint))))))
  | lerrors =>
      add_field "problem" OFTString 30 0
        (add_field "id2" OFTReal 12 1
          (add_field "id1" OFTReal 12 1
            (add_field "nodes" OFTInteger 8 0
              (add_field "obj_id" OFTInteger 10 0
                (add_field "obj_type" OFTString 1 0
                  (new_layer "lerrors" wkbLineString))))))
  | ways =>
      add_field "nodes" OFTInteger 8 0
        (add_field "way_id" OFTInteger 10 0
          (add_field "obj_id" OFTInteger 10 0
            (add_field "obj_type" OFTString 1 0
              (new_layer "ways" wkbLineString))))
  end.

(** The names of the fields of a layer, and the width of one of them. *)
Definition field_names (l : Layer coordinate) : gset string :=
  list_to_set (field_name <$> layer_fields l).

Definition width_of (l : Layer coordinate) (name : string) : option Z :=
  (λ x, field_width x.2)
    <$> list_find (λ d, field_name d = name) (layer_fields l).

(** A reporter whose layers still have the fields the constructor gave
    them. *)
Definition as_constructed (r : reporter) : Prop :=
  ∀ l, layer_fields (get_layer l r) = layer_fields (constructed_layer l).

(** Steps that leave a relation between reporters intact. *)
Definition keeps {A} (R : reporter → reporter → Prop) (c : M A) : Prop :=
  ∀ r, R r (c r).2.

(** Name, geometry type and fields of every layer are the same. *)
Definition same_schema (r r' : reporter) : Prop :=
  ∀ l, layer_name (get_layer l r') = layer_name (get_layer l r) ∧
       layer_geom (get_layer l r') = layer_geom (get_layer l r) ∧
       layer_fields (get_layer l r') = layer_fields (get_layer l r).

(** The frame of a report: schema, earlier features, the object. *)
Definition frame (r r' : reporter) : Prop :=
  same_schema r r' ∧
  (∀ l, layer_features (get_layer l r) `prefix_of` layer_features (get_layer l r')) ∧
  m_object_type r' = m_object_type r ∧
  m_object_id r' = m_object_id r ∧
  m_nodes r' = m_nodes r.

(** A feature fills exactly the fields the constructor gave its layer. *)
Definition fills_its_layer (f : feature coordinate) : Prop :=
  dom (feature_fields f) = field_names (constructed_layer (feature_layer f)).

(** The strings of a feature are no longer than the widths the constructor
    declared for their fields. *)
Definition strings_fit (f : feature coordinate) : Prop :=
  map_Forall
    (λ name v, ∀ s, v = VString s →
       ∃ w, width_of (constructed_layer (feature_layer f)) name = Some w ∧
            Z.of_nat (String.length s) ≤ w)
    (feature_fields f).

End features.

(** A way with a node whose location is undefined, and a way of one such
    node. *)
Definition way_with_undefined_location : Way (Z * Z) :=
  {| id := 7;
     nodes := [ {| ref := 1; location := (10, 20) |};
                {| ref := 2; location := (2 ^ 31 - 1, 2 ^ 31 - 1) |} ] |}.

Definition single_undefined_node_way : Way (Z * Z) :=
  {| id := 8; nodes := [ {| ref := 3; location := (2 ^ 31 - 1, 2 ^ 31 - 1) |} ] |}.

End ProblemReporterOGR.

(** * Properties *)

(** ** Tag records *)

Module TagRecordsSpec.

Import Byte TagRecords.

Lemma eqb_x00 c : Byte.eqb c x00 = bool_decide (c = x00).
Proof.
  destruct (Byte.eqb c x00) eqn:E.
  - apply Byte.byte_dec_bl in E. symmetry. by apply bool_decide_eq_true_2.
  - apply Byte.eqb_false in E. symmetry. by apply bool_decide_eq_false_2.
Qed.

Lemma no_null_cons c s : no_null (c :: s) ↔ c ≠ x00 ∧ no_null s.
Proof.
  unfold no_null. rewrite not_elem_of_cons.
  split; intros [Hc Hs]; (split; [congruence | exact Hs]).
Qed.

Lemma strchr_nul_terminated k rest :
  no_null k → strchr_nul (k ++ x00 :: rest) = Some (length k).
Proof.
  induction k as [|c k IH]; intros Hk; [done|].
  apply no_null_cons in Hk as [Hc Hk]. cbn [app strchr_nul length].
  rewrite eqb_x00, bool_decide_eq_false_2 by done.
  by rewrite IH.
Qed.

Lemma c_str_terminated k rest :
  no_null k → c_str (k ++ x00 :: rest) = Some k.
Proof.
  induction k as [|c k IH]; intros Hk; [done|].
  apply no_null_cons in Hk as [Hc Hk]. cbn [app c_str].
  rewrite eqb_x00, bool_decide_eq_false_2 by done.
  by rewrite IH.
Qed.

Lemma after_null_terminated pre k rest :
  no_null k →
  after_null (pre ++ k ++ x00 :: rest) (length pre) = Some (length pre + length k + 1).
Proof.
  intros Hk. unfold after_null, strchr0.
  rewrite drop_app_length, strchr_nul_terminated by done. reflexivity.
Qed.

Lemma string_at_terminated pre k rest :
  no_null k → string_at (pre ++ k ++ x00 :: rest) (length pre) = Some k.
Proof.
  intros Hk. unfold string_at. by rewrite drop_app_length, c_str_terminated.
Qed.

Lemma length_encode_tag k v :
  length (encode_tag (k, v)) = length k + 1 + length v + 1.
Proof. unfold encode_tag. cbn. rewrite !length_app. cbn. rewrite !length_app. cbn. lia. Qed.

(** The memory around one record, split at its value. *)
Lemma record_split pre k v post :
  pre ++ encode_tag (k, v) ++ post
  = (pre ++ k ++ [x00]) ++ v ++ x00 :: post.
Proof. unfold encode_tag. cbn [fst snd]. rewrite <- !app_assoc. reflexivity. Qed.

Lemma value_resident pre k v post :
  no_null k →
  value (pre ++ encode_tag (k, v) ++ post) (length pre)
  = Some (length pre + length k + 1).
Proof.
  intros Hk. unfold value, data, encode_tag. cbn [fst snd].
  rewrite <- !app_assoc. cbn [app]. by apply after_null_terminated.
Qed.

Lemma next_resident pre k v post :
  no_null k → no_null v →
  next (pre ++ encode_tag (k, v) ++ post) (length pre)
  = Some (length pre + length (encode_tag (k, v))).
Proof.
  intros Hk Hv. unfold next.
  pose proof (value_resident pre k v post Hk) as Hval. unfold value in Hval.
  rewrite Hval. cbn [mbind option_bind].
  rewrite record_split.
  replace (length pre + length k + 1) with (length (pre ++ k ++ [x00]))
    by (rewrite !length_app; cbn; lia).
  rewrite after_null_terminated by done.
  rewrite length_encode_tag, !length_app. cbn. f_equal. lia.
Qed.

Lemma read_tag_resident pre k v post :
  no_null k → no_null v →
  read_tag (pre ++ encode_tag (k, v) ++ post) (length pre) = Some (k, v).
Proof.
  intros Hk Hv. unfold read_tag.
  rewrite value_resident by done.
  unfold key, data.
  assert (string_at (pre ++ encode_tag (k, v) ++ post) (length pre) = Some k) as ->.
  { unfold encode_tag. cbn [fst snd]. rewrite <- !app_assoc. cbn [app].
    by apply string_at_terminated. }
  cbn [mbind option_bind].
  rewrite record_split.
  replace (length pre + length k + 1) with (length (pre ++ k ++ [x00]))
    by (rewrite !length_app; cbn; lia).
  by rewrite string_at_terminated.
Qed.

Lemma value_string_resident pre k v post :
  no_null k → no_null v →
  string_at (pre ++ encode_tag (k, v) ++ post) (length pre + length k + 1)
  = Some v.
Proof.
  intros Hk Hv. rewrite record_split.
  replace (length pre + length k + 1) with (length (pre ++ k ++ [x00]))
    by (rewrite !length_app; cbn; lia).
  by rewrite string_at_terminated.
Qed.

(** C1. Round trip: a key/value pair without embedded null bytes, encoded
    as two consecutive null-terminated strings anywhere in a buffer, is read
    back exactly by [Tag::key] and [Tag::value], and the size found by
    scanning is [len(key) + 1 + len(value) + 1]. *)
Theorem tag_roundtrip (pre post k v : list byte) :
  no_null k → no_null v →
  let mem := pre ++ encode_tag (k, v) ++ post in
  let this := length pre in
  string_at mem (key this) = Some k ∧
  value mem this = Some (this + length k + 1) ∧
  string_at mem (this + length k + 1) = Some v ∧
  record_size mem this = Some (length k + 1 + length v + 1).
Proof.
  intros Hk Hv mem this. subst mem this.
  pose proof (read_tag_resident pre k v post Hk Hv) as Hread.
  pose proof (value_resident pre k v post Hk) as Hval.
  unfold read_tag in Hread. rewrite Hval in Hread.
  destruct (string_at _ (key (length pre))) as [k'|] eqn:Ek; [|done].
  cbn [mbind option_bind] in Hread.
  destruct (string_at _ (length pre + length k + 1)) as [v'|] eqn:Ev; [|done].
  cbn in Hread. injection Hread as -> ->.
  repeat split; try done.
  unfold record_size. rewrite next_resident by done.
  rewrite length_encode_tag. cbn. f_equal. lia.
Qed.

Ltac no_null_by_computation :=
  unfold no_nulls, no_null; apply (bool_decide_unpack _); vm_compute; exact I.

(** C1 at the second record of the scenario, ["highway" = "residential"],
    which starts at offset 21. *)
Lemma tag_roundtrip_witness :
  no_null (bytes "highway") ∧ no_null (bytes "residential") ∧
  string_at scenario_memory (key 21) = Some (bytes "highway") ∧
  value scenario_memory 21 = Some 29 ∧
  string_at scenario_memory 29 = Some (bytes "residential") ∧
  record_size scenario_memory 21 = Some 20.
Proof.
  assert (no_null (bytes "highway")) as Hk by no_null_by_computation.
  assert (no_null (bytes "residential")) as Hv by no_null_by_computation.
  split; [exact Hk|]. split; [exact Hv|].
  exact (tag_roundtrip
           (scenario_header ++ encode_tag (bytes "name", bytes "Main St"))
           scenario_padding (bytes "highway") (bytes "residential") Hk Hv).
Defined.

(** *** Walking a resident sequence *)

Lemma encode_tags_cons kv tags :
  encode_tags (kv :: tags) = encode_tag kv ++ encode_tags tags.
Proof. reflexivity. Qed.

Lemma encode_tags_app l1 l2 :
  encode_tags (l1 ++ l2) = encode_tags l1 ++ encode_tags l2.
Proof. unfold encode_tags. by rewrite fmap_app, concat_app. Qed.

Lemma length_encode_tags_ge tags : length tags ≤ length (encode_tags tags).
Proof.
  induction tags as [|[k v] tags IH]; [done|].
  rewrite encode_tags_cons, length_app, length_encode_tag. cbn. lia.
Qed.

(** Peeling the first record off a resident sequence. *)
Lemma resident_step pre kv tags post :
  pre ++ encode_tags (kv :: tags) ++ post
  = (pre ++ encode_tag kv) ++ encode_tags tags ++ post.
Proof. rewrite encode_tags_cons, <- !app_assoc. reflexivity. Qed.

Lemma resident_first pre kv tags post :
  pre ++ encode_tags (kv :: tags) ++ post
  = pre ++ encode_tag kv ++ (encode_tags tags ++ post).
Proof. rewrite encode_tags_cons, <- !app_assoc. reflexivity. Qed.

Ltac peel pre kv :=
  replace (length pre + length (encode_tag kv))
    with (length (pre ++ encode_tag kv)) by (by rewrite length_app).

(** Every record of a resident sequence lies in the buffer as C1 wants it,
    and the record after it starts where it ends. *)
Lemma resident_lookup tags : ∀ pre post i a kv,
  record_starts (length pre) tags !! i = Some a →
  tags !! i = Some kv →
  ∃ pre' post',
    pre ++ encode_tags tags ++ post = pre' ++ encode_tag kv ++ post' ∧
    a = length pre' ∧
    length pre ≤ a ∧
    a + length (encode_tag kv) ≤ length pre + length (encode_tags tags) ∧
    default (length pre + length (encode_tags tags))
            (record_starts (length pre) tags !! S i)
    = a + length (encode_tag kv).
Proof.
  induction tags as [|kv0 tags IH]; intros pre post i a kv Ha Hkv; [done|].
  destruct i as [|i].
  - cbn in Ha, Hkv. injection Ha as <-. injection Hkv as <-.
    exists pre, (encode_tags tags ++ post).
    split; [apply resident_first|]. split; [done|].
    rewrite encode_tags_cons, length_app. split; [lia|]. split; [lia|].
    cbn [record_starts lookup list_lookup].
    destruct tags as [|kv1 tags]; cbn; [|done].
    lia.
  - change (record_starts (length pre + length (encode_tag kv0)) tags !! i
            = Some a) in Ha.
    change (tags !! i = Some kv) in Hkv.
    revert Ha. peel pre kv0. intros Ha.
    destruct (IH (pre ++ encode_tag kv0) post i a kv Ha Hkv)
      as (pre' & post' & Hmem & -> & Hle & Hend & Hnext).
    exists pre', post'. rewrite resident_step.
    split; [done|]. split; [done|].
    rewrite length_app in Hle, Hend.
    rewrite encode_tags_cons, length_app.
    split; [lia|]. split; [lia|].
    change (record_starts (length pre) (kv0 :: tags) !! S (S i))
      with (record_starts (length pre + length (encode_tag kv0)) tags !! S i).
    peel pre kv0.
    rewrite <- Hnext. f_equal. rewrite length_app. lia.
Qed.

Lemma iterate_fuel_resident tags : ∀ pre post fuel,
  no_nulls tags → length tags ≤ fuel →
  iterate_fuel fuel (pre ++ encode_tags tags ++ post)
    (length pre) (length pre + length (encode_tags tags))
  = Some (record_starts (length pre) tags, length tags).
Proof.
  induction tags as [|[k v] tags IH]; intros pre post fuel Hnn Hfuel.
  - destruct fuel; cbn; rewrite decide_True by lia; done.
  - apply Forall_cons in Hnn as [[Hk Hv] Hnn]. cbn [fst snd] in Hk, Hv.
    destruct fuel as [|fuel]; [cbn in Hfuel; lia|].
    cbn [iterate_fuel].
    rewrite decide_False
      by (rewrite encode_tags_cons, length_app, length_encode_tag; lia).
    rewrite resident_first, next_resident by done.
    cbn [mbind option_bind].
    rewrite <- resident_first, resident_step.
    rewrite encode_tags_cons, length_app, Nat.add_assoc.
    peel pre (k, v).
    rewrite IH by (done || cbn in Hfuel; lia).
    cbn. by rewrite length_app.
Qed.

Lemma read_tags_resident tags : ∀ pre post,
  no_nulls tags →
  mapM (read_tag (pre ++ encode_tags tags ++ post))
       (record_starts (length pre) tags)
  = Some tags.
Proof.
  induction tags as [|[k v] tags IH]; intros pre post Hnn; [done|].
  apply Forall_cons in Hnn as [[Hk Hv] Hnn]. cbn [fst snd] in Hk, Hv.
  cbn [record_starts mapM].
  rewrite resident_first, read_tag_resident by done.
  cbn [mbind option_bind].
  rewrite <- resident_first, resident_step.
  peel pre (k, v).
  by rewrite IH.
Qed.

Lemma iterate_times_constant n mem tl r :
  iterate mem tl = Some r → iterate_times n mem tl = Some (replicate n r).
Proof.
  intros Hr. induction n as [|n IH]; [done|].
  cbn [iterate_times replicate]. by rewrite Hr, IH.
Qed.

(** C2. In a well-formed sequence the record after a record starts at the
    record's address plus its scanned size (one past its second null
    byte), which for the last record is the end boundary and for no other
    record is; iterating from the start visits the [k] records in write
    order in exactly [k] steps, each time the sequence is iterated. *)
Theorem iteration_visits_records_in_order
    (mem : memory) (tl : TagList) (tags : list (list byte * list byte)) :
  no_nulls tags →
  resident mem tl tags →
  let starts := record_starts (cbegin tl) tags in
  (∀ i a kv, starts !! i = Some a → tags !! i = Some kv →
     record_size mem a = Some (length kv.1 + 1 + length kv.2 + 1) ∧
     next mem a = Some (a + (length kv.1 + 1 + length kv.2 + 1)) ∧
     next mem a = Some (default (cend tl) (starts !! S i)) ∧
     mem !! (a + length kv.1) = Some x00 ∧
     mem !! (a + length kv.1 + 1 + length kv.2) = Some x00 ∧
     a ≠ cend tl) ∧
  iterate mem tl = Some (starts, length tags) ∧
  mapM (read_tag mem) starts = Some tags ∧
  ∀ n, iterate_times n mem tl = Some (replicate n (starts, length tags)).
Proof.
  intros Hnn (pre & post & -> & Hb & He) starts. subst starts. rewrite Hb, He.
  assert (iterate (pre ++ encode_tags tags ++ post) tl
          = Some (record_starts (length pre) tags, length tags)) as Hit.
  { unfold iterate. rewrite Hb, He. apply iterate_fuel_resident; [done|].
    rewrite !length_app. pose proof (length_encode_tags_ge tags). lia. }
  split; [|split; [done|split; [by apply read_tags_resident|]]].
  - intros i a [k v] Ha Hkv.
    destruct (resident_lookup tags pre post i a (k, v) Ha Hkv)
      as (pre' & post' & Hmem & -> & Hle & Hend & Hnext).
    assert (no_null k ∧ no_null v) as [Hk Hv].
    { eapply (Forall_lookup_1 _ _ _ _ Hnn Hkv). }
    unfold ptr, memory in *. rewrite Hmem, Hnext. cbn [fst snd].
    rewrite <- length_encode_tag.
    unfold record_size. rewrite next_resident by done.
    split; [cbn; f_equal; lia|]. split; [done|]. split; [done|].
    rewrite length_encode_tag in Hend.
    split; [|split; [|lia]].
    + unfold encode_tag. cbn [fst snd].
      rewrite lookup_app_r by lia.
      replace (length pre' + length k - length pre') with (length k + 0) by lia.
      rewrite <- app_assoc. by rewrite lookup_app_r, Nat.add_sub' by lia.
    + rewrite record_split.
      replace (length pre' + length k + 1 + length v)
        with (length (pre' ++ k ++ [x00]) + (length v + 0))
        by (rewrite !length_app; cbn; lia).
      rewrite lookup_app_r by lia. rewrite Nat.add_sub'.
      by rewrite lookup_app_r, Nat.add_sub' by lia.
  - intros n. by apply iterate_times_constant.
Qed.

Lemma scenario_resident : resident scenario_memory scenario_list scenario_tags.
Proof. exists scenario_header, scenario_padding. by repeat split. Qed.

(** C2 at the scenario: two records, visited in write order in two steps. *)
Lemma iteration_visits_records_in_order_witness :
  no_nulls scenario_tags ∧
  resident scenario_memory scenario_list scenario_tags ∧
  iterate scenario_memory scenario_list = Some ([8; 21], 2) ∧
  mapM (read_tag scenario_memory) [8; 21] = Some scenario_tags ∧
  iterate_times 3 scenario_memory scenario_list
  = Some (replicate 3 ([8; 21], 2)).
Proof.
  assert (no_nulls scenario_tags) as Hnn by no_null_by_computation.
  split; [exact Hnn|]. split; [exact scenario_resident|].
  destruct (iteration_visits_records_in_order scenario_memory scenario_list
              scenario_tags Hnn scenario_resident) as (_ & Hit & Hread & Hn).
  split; [exact Hit|]. split; [exact Hread|]. exact (Hn 3%nat).
Defined.

(** *** Lookup by key *)

Lemma to_N_inj c1 c2 : Byte.to_N c1 = Byte.to_N c2 → c1 = c2.
Proof.
  intros H. pose proof (Byte.of_to_N c1) as H1. rewrite H, Byte.of_to_N in H1.
  congruence.
Qed.

Lemma byte_eqb_decide c1 c2 : Byte.eqb c1 c2 = bool_decide (c1 = c2).
Proof.
  destruct (Byte.eqb c1 c2) eqn:E.
  - apply Byte.byte_dec_bl in E. symmetry. by apply bool_decide_eq_true_2.
  - apply Byte.eqb_false in E. symmetry. by apply bool_decide_eq_false_2.
Qed.

(** [strcmp] on two terminated strings is zero exactly when they are equal
    byte for byte. *)
Lemma strcmp_terminated k1 : ∀ k2 r1 r2,
  no_null k1 → no_null k2 →
  ∃ z, strcmp (k1 ++ x00 :: r1) (k2 ++ x00 :: r2) = Some z ∧ (z = 0%Z ↔ k1 = k2).
Proof.
  induction k1 as [|c1 k1 IH]; intros k2 r1 r2 H1 H2.
  - destruct k2 as [|c2 k2]; cbn [app strcmp].
    + exists 0%Z. by rewrite !byte_eqb_decide, !bool_decide_eq_true_2.
    + apply no_null_cons in H2 as [Hc2 _].
      rewrite byte_eqb_decide, bool_decide_eq_false_2 by congruence.
      eexists; split; [done|]. split; [|done].
      intros Hz. exfalso. apply Hc2, to_N_inj. cbn in *. lia.
  - apply no_null_cons in H1 as [Hc1 H1].
    destruct k2 as [|c2 k2]; cbn [app strcmp].
    + rewrite byte_eqb_decide, bool_decide_eq_false_2 by done.
      eexists; split; [done|]. split; [|done].
      intros Hz. exfalso. apply Hc1, to_N_inj. cbn in *. lia.
    + apply no_null_cons in H2 as [Hc2 H2].
      rewrite byte_eqb_decide. case_bool_decide as Hc; subst.
      * rewrite eqb_x00, bool_decide_eq_false_2 by done.
        destruct (IH k2 r1 r2 H1 H2) as (z & -> & Hz).
        exists z. split; [done|]. rewrite Hz. split; congruence.
      * eexists; split; [done|]. split; [|congruence].
        intros Hz. exfalso. apply Hc, to_N_inj. lia.
Qed.

Section lookup.

Variables (q qrest : list byte).
Hypothesis q_no_null : no_null q.

(** The predicate [get_value_by_key] hands to [std::find_if]. *)
#[local] Abbreviation pred mem := (key_equals mem (q ++ x00 :: qrest)).

Lemma pred_resident pre k v post :
  no_null k →
  pred (pre ++ encode_tag (k, v) ++ post) (length pre) = Some (bool_decide (k = q)).
Proof.
  intros Hk. unfold key_equals, key, data, encode_tag. cbn [fst snd].
  rewrite drop_app_length, <- !app_assoc. cbn [app].
  destruct (strcmp_terminated k q (v ++ x00 :: post) qrest Hk q_no_null)
    as (z & -> & Hz).
  cbn. f_equal. apply bool_decide_ext, Hz.
Qed.

Lemma find_if_no_match tags : ∀ pre post fuel,
  no_nulls tags → length tags ≤ fuel →
  Forall (λ kv, kv.1 ≠ q) tags →
  find_if_fuel fuel (pre ++ encode_tags tags ++ post) (length pre)
    (length pre + length (encode_tags tags)) (pred (pre ++ encode_tags tags ++ post))
  = Some (length pre + length (encode_tags tags)).
Proof.
  induction tags as [|[k v] tags IH]; intros pre post fuel Hnn Hfuel Hne.
  - destruct fuel; cbn; rewrite decide_True by lia; done.
  - apply Forall_cons in Hnn as [[Hk Hv] Hnn]. cbn [fst snd] in Hk, Hv.
    apply Forall_cons in Hne as [Hkq Hne]. cbn [fst] in Hkq.
    destruct fuel as [|fuel]; [cbn in Hfuel; lia|].
    cbn [find_if_fuel].
    rewrite decide_False
      by (rewrite encode_tags_cons, length_app, length_encode_tag; lia).
    rewrite resident_first, pred_resident, next_resident by done.
    rewrite bool_decide_eq_false_2 by done.
    cbn [mbind option_bind].
    rewrite <- resident_first, resident_step.
    rewrite encode_tags_cons, length_app, Nat.add_assoc.
    peel pre (k, v).
    rewrite IH by (done || cbn in Hfuel; lia). done.
Qed.

Lemma find_if_first_match l1 : ∀ pre post fuel v l2,
  no_nulls (l1 ++ (q, v) :: l2) → length l1 < fuel →
  Forall (λ kv, kv.1 ≠ q) l1 →
  find_if_fuel fuel (pre ++ encode_tags (l1 ++ (q, v) :: l2) ++ post) (length pre)
    (length pre + length (encode_tags (l1 ++ (q, v) :: l2)))
    (pred (pre ++ encode_tags (l1 ++ (q, v) :: l2) ++ post))
  = Some (length pre + length (encode_tags l1)).
Proof.
  induction l1 as [|[k v0] l1 IH]; intros pre post fuel v l2 Hnn Hfuel Hne.
  - destruct fuel as [|fuel]; [cbn in Hfuel; lia|].
    cbn [app find_if_fuel].
    rewrite decide_False
      by (rewrite encode_tags_cons, length_app, length_encode_tag; lia).
    rewrite resident_first, pred_resident by done.
    rewrite bool_decide_eq_true_2 by done. cbn. f_equal. lia.
  - cbn [app] in *.
    apply Forall_cons in Hnn as [[Hk Hv] Hnn]. cbn [fst snd] in Hk, Hv.
    apply Forall_cons in Hne as [Hkq Hne]. cbn [fst] in Hkq.
    destruct fuel as [|fuel]; [cbn in Hfuel; lia|].
    cbn [find_if_fuel].
    rewrite decide_False
      by (rewrite encode_tags_cons, length_app, length_encode_tag; lia).
    rewrite resident_first, pred_resident, next_resident by done.
    rewrite bool_decide_eq_false_2 by done.
    cbn [mbind option_bind].
    rewrite <- resident_first, resident_step.
    rewrite !encode_tags_cons, !length_app, !Nat.add_assoc.
    peel pre (k, v0).
    by rewrite IH by (done || cbn in Hfuel; lia).
Qed.

End lookup.

(** C3. [get_value_by_key] scans the records in iteration order and returns
    the value of the first record whose key equals the query byte for byte,
    also when later records carry the same key; on an empty sequence, or one
    without such a record, it returns the null pointer. *)
Theorem get_value_by_key_first_match
    (mem : memory) (tl : TagList) (tags : list (list byte * list byte))
    (q qrest : list byte) :
  no_nulls tags → no_null q →
  resident mem tl tags →
  (Forall (λ kv, kv.1 ≠ q) tags →
     get_value_by_key mem tl (q ++ x00 :: qrest) = Some None) ∧
  (∀ l1 v l2,
     tags = l1 ++ (q, v) :: l2 →
     Forall (λ kv, kv.1 ≠ q) l1 →
     let p := cbegin tl + length (encode_tags l1) + length q + 1 in
     get_value_by_key mem tl (q ++ x00 :: qrest) = Some (Some p) ∧
     string_at mem p = Some v).
Proof.
  intros Hnn Hq (pre & post & -> & Hb & He).
  pose proof (length_encode_tags_ge tags) as Hlen.
  split.
  - intros Hne. unfold get_value_by_key, find_if. rewrite Hb, He.
    rewrite find_if_no_match; try done; [|rewrite !length_app; lia].
    cbn. by rewrite decide_True.
  - intros l1 v l2 -> Hne p. subst p. rewrite Hb.
    assert (no_null v) as Hv.
    { apply Forall_app in Hnn as [_ Hnn]. by apply Forall_cons in Hnn as [[_ ?] _]. }
    assert (pre ++ encode_tags (l1 ++ (q, v) :: l2) ++ post
            = (pre ++ encode_tags l1) ++ encode_tag (q, v) ++ (encode_tags l2 ++ post))
      as Hmem.
    { rewrite encode_tags_app, encode_tags_cons, <- !app_assoc. reflexivity. }
    split.
    + unfold get_value_by_key, find_if. rewrite Hb, He.
      rewrite find_if_first_match; try done.
      2:{ rewrite !length_app in *. cbn in Hlen. lia. }
      cbn [mbind option_bind].
      rewrite decide_False.
      2:{ rewrite encode_tags_app, encode_tags_cons, !length_app, length_encode_tag. lia. }
      rewrite Hmem. rewrite <- length_app.
      rewrite value_resident by done. cbn. do 2 f_equal. 
    + rewrite Hmem, <- length_app.
      by apply value_string_resident.
Qed.

(** C3 at the scenario: looking up ["highway"] finds ["residential"]. *)
Lemma get_value_by_key_first_match_witness :
  no_nulls scenario_tags ∧ no_null (bytes "highway") ∧
  resident scenario_memory scenario_list scenario_tags ∧
  get_value_by_key scenario_memory scenario_list (bytes "highway" ++ [x00])
  = Some (Some 29) ∧
  string_at scenario_memory 29 = Some (bytes "residential").
Proof.
  assert (no_nulls scenario_tags) as Hnn by no_null_by_computation.
  assert (no_null (bytes "highway")) as Hq by no_null_by_computation.
  split; [exact Hnn|]. split; [exact Hq|]. split; [exact scenario_resident|].
  destruct (get_value_by_key_first_match scenario_memory scenario_list
              scenario_tags (bytes "highway") [] Hnn Hq scenario_resident)
    as [_ Hfound].
  apply (Hfound [(bytes "name", bytes "Main St")] (bytes "residential") []).
  - reflexivity.
  - apply Forall_singleton. cbn. discriminate.
Defined.

(** The rest of the scenario, by running the code: a key that is not there,
    the first of two equal keys, and the empty sequence. *)
Example scenario_lookup_oneway :
  get_value_by_key scenario_memory scenario_list (bytes "oneway" ++ [x00])
  = Some None.
Proof. vm_compute. reflexivity. Qed.

Example lookup_duplicate_key :
  let mem := encode_tags [(bytes "a", bytes "1"); (bytes "a", bytes "2")] in
  let tl := {| cbegin := 0; cend := 8 |} in
  (get_value_by_key mem tl (bytes "a" ++ [x00]) ≫= (λ p, p ≫= string_at mem))
  = Some (bytes "1").
Proof. vm_compute. reflexivity. Qed.

Example lookup_in_empty_sequence :
  get_value_by_key scenario_header {| cbegin := 8; cend := 8 |}
    (bytes "name" ++ [x00])
  = Some None.
Proof. vm_compute. reflexivity. Qed.

End TagRecordsSpec.

(** ** Typed memory-mapped files *)

Module TypedMmapSpec.

Import TypedMmap.
Open Scope Z_scope.

Lemma to_size_t_small z : 0 ≤ z < 2 ^ 64 → to_size_t z = z.
Proof. intros. unfold to_size_t. by apply Z.mod_small. Qed.

Lemma to_off_t_small z : 0 ≤ z < 2 ^ 63 → to_off_t z = z.
Proof.
  intros. unfold to_off_t. rewrite Z.mod_small by lia.
  destruct (Z.ltb_spec z (2 ^ 63)); lia.
Qed.

Lemma fstat_open fd σ f :
  fds σ !! fd = Some f → fstat fd σ = (0, st_size f, σ).
Proof. intros H. unfold fstat. by rewrite H. Qed.

Lemma fstat_closed fd σ :
  fds σ !! fd = None → fstat fd σ = (-1, 0, set_errno EBADF σ).
Proof. intros H. unfold fstat. by rewrite H. Qed.

Lemma size_of_file_Some fd σ sz :
  size_of_file fd σ = Some sz ↔ ∃ f, fds σ !! fd = Some f ∧ st_size f = sz.
Proof.
  unfold size_of_file. destruct (fds σ !! fd) as [f|]; cbn.
  - split; [intros [= <-]; by exists f | by intros (? & [= <-] & <-)].
  - split; [done | by intros (? & ? & _)].
Qed.

Lemma size_of_file_None fd σ :
  size_of_file fd σ = None ↔ fds σ !! fd = None.
Proof. unfold size_of_file. by destruct (fds σ !! fd). Qed.

Section typed_mmap.

Variable sizeof_T : Z.

(** The three ways [file_size] ends. *)
Lemma file_size_closed fd σ :
  size_of_file fd σ = None →
  file_size sizeof_T fd σ
  = (Throw (system_error EBADF "fstat failed"), set_errno EBADF σ).
Proof.
  intros H%size_of_file_None. unfold file_size. by rewrite fstat_closed.
Qed.

Lemma file_size_mismatch fd σ sz :
  size_of_file fd σ = Some sz → 0 ≤ sz < 2 ^ 63 → sz mod sizeof_T ≠ 0 →
  file_size sizeof_T fd σ
  = (Throw (length_error "file size has to be multiple of object size"), σ).
Proof.
  intros (f & Hf & <-)%size_of_file_Some Hsz Hmod. unfold file_size.
  rewrite (fstat_open _ _ _ Hf). cbn [Z.ltb Z.compare].
  rewrite to_size_t_small by lia.
  destruct (Z.eqb_spec (st_size f mod sizeof_T) 0); [done|]. done.
Qed.

Lemma file_size_multiple fd σ sz :
  size_of_file fd σ = Some sz → 0 ≤ sz < 2 ^ 63 → sz mod sizeof_T = 0 →
  file_size sizeof_T fd σ = (Ok (sz / sizeof_T), σ).
Proof.
  intros (f & Hf & <-)%size_of_file_Some Hsz Hmod. unfold file_size.
  rewrite (fstat_open _ _ _ Hf). cbn [Z.ltb Z.compare].
  rewrite to_size_t_small by lia.
  by rewrite Hmod.
Qed.

End typed_mmap.

(** C5. [file_size] (the spec's [file_element_count]) returns the byte
    length divided by [sizeof(T)] when the length is a multiple of it; it
    throws [std::system_error] exactly when the file cannot be stat'ed and
    [std::length_error] exactly when it can and the length is not a multiple
    of [sizeof(T)]; a count it returns is never a truncated one. *)
Theorem file_size_count_or_error (sizeof_T fd : Z) (σ : os) :
  0 < sizeof_T →
  (∀ sz, size_of_file fd σ = Some sz → 0 ≤ sz < 2 ^ 63) →
  let r := (file_size sizeof_T fd σ).1 in
  (∀ sz, size_of_file fd σ = Some sz → sz mod sizeof_T = 0 →
         r = Ok (sz / sizeof_T)) ∧
  (size_of_file fd σ = None ↔ ∃ code what, r = Throw (system_error code what)) ∧
  ((∃ sz, size_of_file fd σ = Some sz ∧ sz mod sizeof_T ≠ 0)
     ↔ ∃ what, r = Throw (length_error what)) ∧
  (∀ count, r = Ok count →
     ∃ sz, size_of_file fd σ = Some sz ∧ sz = count * sizeof_T) ∧
  (∀ code what what', system_error code what ≠ length_error what').
Proof.
  intros Hpos Hrange r. subst r.
  destruct (size_of_file fd σ) as [sz|] eqn:Hsz.
  - specialize (Hrange sz eq_refl).
    destruct (decide (sz mod sizeof_T = 0)) as [Hmod|Hmod].
    + rewrite (file_size_multiple sizeof_T fd σ sz) by done. cbn [fst].
      repeat split; try done.
      * by intros ? [= <-] _.
      * by intros (? & ? & ?).
      * intros (? & [= <-] & ?). done.
      * by intros (? & ?).
      * intros count [= <-]. exists sz. split; [done|].
        apply Z.div_exact in Hmod; lia.
    + rewrite (file_size_mismatch sizeof_T fd σ sz) by done. cbn [fst].
      repeat split; try done.
      * by intros ? [= <-] ?.
      * by intros (? & ? & ?).
      * by eexists.
      * by exists sz.
  - rewrite (file_size_closed sizeof_T fd σ) by done. cbn [fst].
    repeat split; try done.
    + by do 2 eexists.
    + by intros (? & ? & ?).
    + by intros (? & ?).
Qed.

(** C5 at a file of 16 bytes and elements of 8. *)
Lemma file_size_count_or_error_witness :
  0 < 8 ∧
  (∀ sz, size_of_file 3 two_files = Some sz → 0 ≤ sz < 2 ^ 63) ∧
  (file_size 8 3 two_files).1 = Ok 2.
Proof.
  assert (∀ sz, size_of_file 3 two_files = Some sz → 0 ≤ sz < 2 ^ 63) as Hrange.
  { intros sz Hsz. vm_compute in Hsz. injection Hsz as <-. lia. }
  split; [lia|]. split; [exact Hrange|].
  destruct (file_size_count_or_error 8 3 two_files ltac:(lia) Hrange)
    as (Hcount & _).
  apply (Hcount 16); reflexivity.
Defined.

(** A file of 13 bytes holds no whole number of 8-byte elements; a
    descriptor that is not open cannot be stat'ed. *)
Example file_size_of_13_bytes :
  (file_size 8 4 two_files).1
  = Throw (length_error "file size has to be multiple of object size").
Proof. reflexivity. Qed.

Example file_size_of_closed_descriptor :
  (file_size 8 5 two_files).1 = Throw (system_error EBADF "fstat failed").
Proof. reflexivity. Qed.

(** *** Growing a file *)

Lemma grow_file_rethrows sizeof_T new_size fd σ e σ1 :
  file_size sizeof_T fd σ = (Throw e, σ1) →
  grow_file sizeof_T new_size fd σ = (Throw e, σ1).
Proof. intros H. unfold grow_file. by rewrite H. Qed.

Lemma grow_file_large_enough sizeof_T new_size fd σ count σ1 :
  file_size sizeof_T fd σ = (Ok count, σ1) → new_size ≤ count →
  grow_file sizeof_T new_size fd σ = (Ok tt, σ1).
Proof.
  intros H Hle. unfold grow_file. rewrite H.
  destruct (Z.ltb_spec count new_size); [lia|done].
Qed.

Lemma ftruncate_ok fd len σ f :
  fds σ !! fd = Some f → writable f = true → 0 ≤ len ≤ size_limit f →
  ∃ σ', ftruncate fd len σ = (0, σ') ∧
        size_of_file fd σ' = Some len ∧
        (∀ fd', fd' ≠ fd → fds σ' !! fd' = fds σ !! fd').
Proof.
  intros Hf Hw Hlen. unfold ftruncate. rewrite Hf, Hw. cbn [negb].
  destruct (Z.ltb_spec len 0); [lia|].
  destruct (Z.ltb_spec (size_limit f) len); [lia|].
  eexists; split; [done|]. unfold size_of_file. cbn [fds]. split.
  - by rewrite lookup_insert_eq.
  - intros fd' Hne. by rewrite lookup_insert_ne.
Qed.

(** As long as [sizeof(T) * new_size] stays within what the file may hold,
    and so within [off_t], [grow_file] does what its comment says: the file
    ends at the larger of its old length and [new_size] elements. *)
Lemma grow_file_without_overflow sizeof_T new_size fd σ f :
  0 < sizeof_T →
  fds σ !! fd = Some f → file_ok f → writable f = true →
  st_size f mod sizeof_T = 0 →
  0 ≤ new_size → sizeof_T * new_size ≤ size_limit f →
  ∃ σ', grow_file sizeof_T new_size fd σ = (Ok tt, σ') ∧
        size_of_file fd σ' = Some (Z.max (st_size f) (sizeof_T * new_size)).
Proof.
  intros Hpos Hf [Hsz Hlim] Hw Hmod Hn Hfit.
  assert (size_of_file fd σ = Some (st_size f)) as Hsize
    by (apply size_of_file_Some; eauto).
  assert (file_size sizeof_T fd σ = (Ok (st_size f / sizeof_T), σ)) as Hfs
    by (apply file_size_multiple; (done || lia)).
  unfold grow_file. rewrite Hfs.
  assert (st_size f = sizeof_T * (st_size f / sizeof_T)) as Hexact
    by (apply Z.div_exact; lia).
  destruct (Z.ltb_spec (st_size f / sizeof_T) new_size) as [Hlt|Hge].
  - rewrite to_size_t_small, to_off_t_small by nia.
    destruct (ftruncate_ok fd (sizeof_T * new_size) σ f Hf Hw)
      as (σ' & -> & Hsize' & _); [nia|].
    cbn [Z.ltb Z.compare]. exists σ'. split; [done|].
    rewrite Hsize'. f_equal. nia.
  - exists σ. split; [done|]. rewrite Hsize. f_equal. nia.
Qed.

(** C9. [grow_file] asks [file_size] first and lets its exceptions pass:
    on a file whose length is not a multiple of [sizeof(T)] it throws
    [std::length_error], on a descriptor that cannot be stat'ed
    [std::system_error], and in both cases no file is resized. *)
Theorem grow_file_checks_file_size_first (sizeof_T new_size fd : Z) (σ : os) :
  0 < sizeof_T →
  (∀ sz, size_of_file fd σ = Some sz → 0 ≤ sz < 2 ^ 63) →
  (∀ e σ1, file_size sizeof_T fd σ = (Throw e, σ1) →
           grow_file sizeof_T new_size fd σ = (Throw e, σ1)) ∧
  (∀ sz, size_of_file fd σ = Some sz → sz mod sizeof_T ≠ 0 →
     ∃ what σ', grow_file sizeof_T new_size fd σ = (Throw (length_error what), σ') ∧
                fds σ' = fds σ) ∧
  (size_of_file fd σ = None →
     ∃ code what σ',
       grow_file sizeof_T new_size fd σ = (Throw (system_error code what), σ') ∧
       fds σ' = fds σ).
Proof.
  intros Hpos Hrange. split; [|split].
  - intros e σ1. apply grow_file_rethrows.
  - intros sz Hsz Hmod. do 2 eexists. split; [|reflexivity].
    apply grow_file_rethrows, (file_size_mismatch _ _ _ sz); auto.
  - intros Hnone. do 3 eexists. split.
    + by apply grow_file_rethrows, file_size_closed.
    + reflexivity.
Qed.

(** C9 at a file of 13 bytes and elements of 8. *)
Lemma grow_file_checks_file_size_first_witness :
  0 < 8 ∧
  (∀ sz, size_of_file 4 two_files = Some sz → 0 ≤ sz < 2 ^ 63) ∧
  ∃ what σ', grow_file 8 5 4 two_files = (Throw (length_error what), σ') ∧
             fds σ' = fds two_files.
Proof.
  assert (∀ sz, size_of_file 4 two_files = Some sz → 0 ≤ sz < 2 ^ 63) as Hrange.
  { intros sz Hsz. vm_compute in Hsz. injection Hsz as <-. lia. }
  split; [lia|]. split; [exact Hrange|].
  destruct (grow_file_checks_file_size_first 8 5 4 two_files ltac:(lia) Hrange)
    as (_ & Hmismatch & _).
  apply (Hmismatch 13); [reflexivity|]. vm_compute. discriminate.
Defined.

(** C4, where the code leaves its comment.  With [sizeof(T) = 8], a file of
    16 bytes (two elements) and [new_size = 2^61 + 1], the product
    [sizeof(T) * new_size] wraps around to 8 in [size_t]: [grow_file] sees
    that two elements are fewer than [new_size], calls [ftruncate(fd, 8)],
    and returns normally with the file cut down to 8 bytes. *)
Theorem grow_file_shrinks_on_overflow :
  let f := {| st_size := 16; writable := true; size_limit := 2 ^ 40 |} in
  let σ := one_file 3 f in
  file_ok f ∧
  file_size 8 3 σ = (Ok 2, σ) ∧
  to_size_t (8 * (2 ^ 61 + 1)) = 8 ∧
  (grow_file 8 (2 ^ 61 + 1) 3 σ).1 = Ok tt ∧
  size_of_file 3 (grow_file 8 (2 ^ 61 + 1) 3 σ).2 = Some 8.
Proof.
  cbv zeta. split; [|split; [|split; [|split]]].
  - unfold file_ok. cbn. lia.
  - reflexivity.
  - reflexivity.
  - vm_compute. reflexivity.
  - vm_compute. reflexivity.
Qed.

(** The same wrap-around in the two-call scenario: after [grow_file(n)]
    with [n = 2^61 + 1] on an empty file and [grow_file(m)] with
    [m = 2 < n], both calls have returned and the file holds 16 bytes, not
    [n * sizeof(T)]. *)
Lemma grow_file_twice_on_overflow :
  let σ := one_file 3 {| st_size := 0; writable := true; size_limit := 2 ^ 40 |} in
  (grow_file_twice 8 (2 ^ 61 + 1) 2 3 σ).1 = Ok tt ∧
  size_of_file 3 (grow_file_twice 8 (2 ^ 61 + 1) 2 3 σ).2 = Some 16.
Proof. cbv zeta. split; vm_compute; reflexivity. Qed.

(** Without wrap-around the second, smaller call leaves the file alone. *)
Lemma grow_file_twice_without_overflow sizeof_T n m fd σ f :
  0 < sizeof_T →
  fds σ !! fd = Some f → file_ok f → writable f = true →
  st_size f mod sizeof_T = 0 →
  0 ≤ m < n → sizeof_T * n ≤ size_limit f →
  st_size f ≤ sizeof_T * n →
  ∃ σ', grow_file_twice sizeof_T n m fd σ = (Ok tt, σ') ∧
        size_of_file fd σ' = Some (sizeof_T * n).
Proof.
  intros Hpos Hf Hok Hw Hmod Hmn Hfit Hsmall.
  destruct (grow_file_without_overflow sizeof_T n fd σ f)
    as (σ1 & H1 & Hsz1); try done; [lia|].
  rewrite Z.max_r in Hsz1 by lia.
  unfold grow_file_twice. rewrite H1.
  apply size_of_file_Some in Hsz1 as (f1 & Hf1 & Hst1).
  assert (file_size sizeof_T fd σ1 = (Ok n, σ1)) as Hfs.
  { rewrite (file_size_multiple sizeof_T fd σ1 (sizeof_T * n)).
    - by rewrite Z.mul_comm, Z.div_mul by lia.
    - apply size_of_file_Some; eauto.
    - destruct Hok. nia.
    - by rewrite Z.mul_comm, Z.mod_mul by lia. }
  exists σ1. split.
  - apply (grow_file_large_enough _ _ _ _ n); [done|lia].
  - apply size_of_file_Some; eauto.
Qed.

End TypedMmapSpec.

(** ** Reporting area problems through OGR *)

Module ProblemReporterOGRSpec.

Import ProblemReporterOGR.
Open Scope Z_scope.

(** *** Narrowing *)

Lemma int32_t_in_range z : - 2 ^ 31 ≤ z < 2 ^ 31 → int32_t z = z.
Proof. intros. unfold int32_t. rewrite Z.mod_small; lia. Qed.

Lemma int32_t_range z : - 2 ^ 31 ≤ int32_t z < 2 ^ 31.
Proof.
  unfold int32_t. pose proof (Z.mod_pos_bound (z + 2 ^ 31) (2 ^ 32)). lia.
Qed.

Lemma int32_t_faithful_iff z : int32_t z = z ↔ - 2 ^ 31 ≤ z < 2 ^ 31.
Proof.
  split; [|apply int32_t_in_range].
  intros <-. apply int32_t_range.
Qed.

Section reporter.

Context `{Collaborators}.

(** *** Steps that only add features *)

Lemma get_set_layer l l' x (r : reporter) :
  get_layer l (set_layer l' x r) = if decide (l = l') then x else get_layer l r.
Proof. by destruct l, l'. Qed.

Lemma extends_refl P (r : reporter) : extends P r r.
Proof.
  repeat split. intros l. exists []. by rewrite app_nil_r.
Qed.

Lemma extends_trans P (r1 r2 r3 : reporter) :
  extends P r1 r2 → extends P r2 r3 → extends P r1 r3.
Proof.
  intros (Ht1 & Hi1 & Hn1 & H1) (Ht2 & Hi2 & Hn2 & H2).
  repeat split; try congruence.
  intros l. destruct (H1 l) as (n1 & E1 & F1), (H2 l) as (n2 & E2 & F2).
  exists (n1 ++ n2). rewrite E2, E1, app_assoc. split; [done|].
  by apply Forall_app.
Qed.

Lemma extends_mono (P Q : feature coordinate → Prop) (r r' : reporter) :
  (∀ f, P f → Q f) → extends P r r' → extends Q r r'.
Proof.
  intros HPQ (? & ? & ? & Hl). repeat split; try done.
  intros l. destruct (Hl l) as (new & E & F). exists new. split; [done|].
  eapply Forall_impl; [exact F|]. intros f' [? ?]. split; [done | by apply HPQ].
Qed.

Lemma extends_written P (r r' : reporter) l :
  extends P r r' → Forall (λ f, feature_layer f = l ∧ P f) (written l r r').
Proof.
  intros (_ & _ & _ & Hl). destruct (Hl l) as (new & E & F).
  unfold written. by rewrite E, drop_app_length.
Qed.

Lemma add_to_layer_extends P (f : feature coordinate) (r : reporter) :
  P f → extends P r (add_to_layer f r).2.
Proof.
  intros Hf. unfold add_to_layer.
  destruct (create_feature_ok f); cbn [snd]; [|apply extends_refl].
  repeat split. intros l. rewrite get_set_layer.
  destruct (decide (l = feature_layer f)) as [->|Hne].
  - exists [f]. split; [done|]. by apply Forall_singleton.
  - exists []. by rewrite app_nil_r.
Qed.

Lemma steps_ret {A} P (a : A) : steps P (mret a : M A).
Proof. intros r. apply extends_refl. Qed.

Lemma steps_bind {A B} P (c : M A) (k : A → M B) :
  steps P c → (∀ a, steps P (k a)) → steps P (c ≫= k).
Proof.
  intros Hc Hk r. unfold mbind, M_bind, bind.
  specialize (Hc r). destruct (c r) as [[a|e] r1]; cbn [snd] in *; [|done].
  eapply extends_trans; [exact Hc|].
  destruct Hc as (_ & <- & _). apply Hk.
Qed.

Lemma steps_lift {A B} P (x : result A) (k : A → M B) :
  (∀ a, x = Ok a → steps P (k a)) → steps P (lift x ≫= k).
Proof.
  intros Hk r. unfold mbind, M_bind, bind, lift.
  destruct x as [a|e]; cbn [snd]; [by apply Hk | apply extends_refl].
Qed.

(** [r ← this; add_to_layer (f r)]: the feature is built from the members
    and then added. *)
Lemma steps_this_add P (f : reporter → feature coordinate) :
  (∀ r, P (m_object_id r) (f r)) →
  steps P (this ≫= λ r, add_to_layer (f r)).
Proof.
  intros Hf r. unfold mbind, M_bind, bind, this.
  by apply add_to_layer_extends.
Qed.

Lemma steps_try P (body : M unit) :
  steps P body → steps P (try_catch_geometry_error body).
Proof.
  intros Hb r. specialize (Hb r). unfold try_catch_geometry_error.
  by destruct (body r) as [[[]|[]] r1].
Qed.

Lemma steps_mono {A} (P Q : Z → feature coordinate → Prop) (c : M A) :
  (∀ oid f, P oid f → Q oid f) → steps P c → steps Q c.
Proof. intros HPQ Hc r. eapply extends_mono; [apply HPQ | apply Hc]. Qed.

(** *** What the writers record *)

Ltac fields := unfold field, set_object, set_field; cbn [feature_fields feature_layer];
  by simplify_map_eq.

Lemma write_point_steps problem_type a b loc :
  steps (pair_feature perrors a b) (write_point problem_type a b loc).
Proof.
  unfold write_point. apply steps_lift. intros g _.
  apply (steps_this_add (pair_feature perrors a b)). intros r.
  repeat split; fields.
Qed.

Lemma write_line_steps problem_type a b loc1 loc2 :
  steps (pair_feature lerrors a b) (write_line problem_type a b loc1 loc2).
Proof.
  unfold write_line. apply steps_lift. intros p1 _.
  apply steps_lift. intros p2 _.
  apply (steps_this_add (pair_feature lerrors a b)). intros r.
  repeat split; fields.
Qed.

Lemma pair_feature_recorded c l a b oid f :
  l ≠ ways → (a, b) ∈ related_ids c →
  pair_feature l a b oid f → recorded c oid f.
Proof.
  intros Hl Hin (<- & Hid & H1 & H2). split; [done|].
  destruct (feature_layer f); [| |done]; left; eauto.
Qed.

Lemma write_way_problem_steps problem_type w c :
  c ∈ [WayInMultipleRings w; InnerWithSameTags w; DuplicateWay w] →
  steps (recorded c) (write_way_problem problem_type w).
Proof.
  intros Hc. unfold write_way_problem.
  destruct (decide _); [apply steps_ret|].
  apply steps_try, steps_lift. intros g _.
  apply (steps_this_add (recorded c)). intros r.
  split; [fields|]. cbn [set_object set_field new_feature feature_layer].
  right. split; [done|]. exists w. repeat split; [done|fields..].
Qed.

Lemma report_way_steps w : steps (recorded (ReportWay w)) (report_way w).
Proof.
  unfold report_way. destruct (nodes w) as [|n [|n' ns]] eqn:Hn.
  - apply steps_ret.
  - eapply steps_mono; [|apply write_point_steps].
    intros oid f. apply pair_feature_recorded; [done|].
    cbn [related_ids]. rewrite Hn. apply list_elem_of_here.
  - apply steps_try, steps_lift. intros g _.
    apply (steps_this_add (recorded (ReportWay w))). intros r.
    split; [fields|]. cbn [set_object set_field new_feature feature_layer].
    exists w. split; [done|fields].
Qed.

Lemma run_report_steps c : steps (recorded c) (run_report c).
Proof.
  destruct c; cbn [run_report].
  - eapply steps_mono; [|apply write_point_steps].
    intros oid f. apply pair_feature_recorded; [done|]. apply list_elem_of_here.
  - eapply steps_mono; [|apply write_point_steps].
    intros oid f. apply pair_feature_recorded; [done|]. apply list_elem_of_here.
  - unfold report_intersection.
    apply steps_bind; [|intros _; apply steps_bind; [|intros _]].
    + eapply steps_mono; [|apply write_point_steps].
      intros oid f. apply pair_feature_recorded; [done|]. apply list_elem_of_here.
    + eapply steps_mono; [|apply write_line_steps].
      intros oid f. apply pair_feature_recorded; [done|]. apply list_elem_of_here.
    + eapply steps_mono; [|apply write_line_steps].
      intros oid f. apply pair_feature_recorded; [done|].
      apply list_elem_of_further, list_elem_of_here.
  - eapply steps_mono; [|apply write_line_steps].
    intros oid f. apply pair_feature_recorded; [done|]. apply list_elem_of_here.
  - eapply steps_mono; [|apply write_line_steps].
    intros oid f. apply pair_feature_recorded; [done|]. apply list_elem_of_here.
  - eapply steps_mono; [|apply write_point_steps].
    intros oid f. apply pair_feature_recorded; [done|]. apply list_elem_of_here.
  - eapply steps_mono; [|apply write_line_steps].
    intros oid f. apply pair_feature_recorded; [done|]. apply list_elem_of_here.
  - eapply steps_mono; [|apply write_line_steps].
    intros oid f. apply pair_feature_recorded; [done|]. apply list_elem_of_here.
  - apply write_way_problem_steps. set_solver.
  - apply write_way_problem_steps. set_solver.
  - apply write_way_problem_steps. set_solver.
  - apply report_way_steps.
Qed.

(** *** Geometry errors *)

Lemma try_catch_at_linestring (w : Way Location) what
    (k : ogr_geometry coordinate → M unit) (r : reporter) :
  create_linestring w = Throw (geometry_error what) →
  try_catch_geometry_error (lift (create_linestring w) ≫= k) r = (Ok tt, r).
Proof.
  intros Hw. unfold try_catch_geometry_error, mbind, M_bind, bind, lift.
  by rewrite Hw.
Qed.

Lemma write_way_problem_swallows problem_type (w : Way Location) what r :
  create_linestring w = Throw (geometry_error what) →
  write_way_problem problem_type w r = (Ok tt, r).
Proof.
  intros Hw. unfold write_way_problem.
  destruct (decide _); [done|].
  by apply (try_catch_at_linestring w what).
Qed.

Lemma report_way_swallows (w : Way Location) what r :
  create_linestring w = Throw (geometry_error what) →
  length (nodes w) ≠ 1%nat →
  report_way w r = (Ok tt, r).
Proof.
  intros Hw Hlen. unfold report_way.
  destruct (nodes w) as [|n [|n' ns]]; [done|done|].
  by apply (try_catch_at_linestring w what).
Qed.

Lemma run_reports_skip c rest (r : reporter) :
  run_report c r = (Ok tt, r) → run_reports (c :: rest) r = run_reports rest r.
Proof.
  intros Hc. cbn [run_reports]. unfold mbind, M_bind, bind. by rewrite Hc.
Qed.

(** *** What a report that returns has written *)

Lemma written_add (f : feature coordinate) (r : reporter) l :
  create_feature_ok f = true →
  add_to_layer f r
  = (Ok tt, set_layer (feature_layer f)
              (push_feature f (get_layer (feature_layer f) r)) r) ∧
  written l r (add_to_layer f r).2 = if decide (l = feature_layer f) then [f] else [].
Proof.
  intros Hok. unfold add_to_layer. rewrite Hok. split; [done|]. cbn [snd].
  unfold written. rewrite get_set_layer. destruct (decide _) as [->|].
  - cbn. by rewrite drop_app_length.
  - by rewrite drop_all.
Qed.

Lemma add_to_layer_Ok (f : feature coordinate) (r : reporter) :
  create_feature_ok f = true →
  add_to_layer f r = (Ok tt, (add_to_layer f r).2).
Proof. intros Hok. unfold add_to_layer. by rewrite Hok. Qed.

Lemma written_refl (r : reporter) l : written l r r = [].
Proof. unfold written. by rewrite drop_all. Qed.

Lemma add_to_layer_returns (f : feature coordinate) (r : reporter) :
  (add_to_layer f r).1 = Ok tt → create_feature_ok f = true.
Proof. unfold add_to_layer. by destruct (create_feature_ok f). Qed.

Lemma written_app P Q (r r1 r2 : reporter) l :
  extends P r r1 → extends Q r1 r2 →
  written l r r2 = written l r r1 ++ written l r1 r2.
Proof.
  intros (_ & _ & _ & H1) (_ & _ & _ & H2).
  destruct (H1 l) as (x & Hx & _), (H2 l) as (y & Hy & _). unfold written.
  rewrite Hy, Hx, <- app_assoc, !drop_app_length.
  by rewrite app_assoc, drop_app_length.
Qed.

Lemma bind_returns {A B} (c : M A) (k : A → M B) (r : reporter) b :
  ((c ≫= k) r).1 = Ok b →
  ∃ a r1, c r = (Ok a, r1) ∧ (c ≫= k) r = k a r1.
Proof.
  unfold mbind, M_bind, bind. destruct (c r) as [[a|e] r1]; cbn [fst]; [eauto|done].
Qed.

Lemma write_point_as_add p a b loc g (r : reporter) :
  create_point loc = Ok g →
  write_point p a b loc r = add_to_layer (point_feature r g p a b) r.
Proof.
  intros Hg. unfold write_point, mbind, M_bind, bind, lift, this. by rewrite Hg.
Qed.

Lemma write_line_as_add p a b loc1 loc2 p1 p2 (r : reporter) :
  lon_lat loc1 = Ok p1 → lon_lat loc2 = Ok p2 →
  write_line p a b loc1 loc2 r = add_to_layer (line_feature r p1 p2 p a b) r.
Proof.
  intros H1 H2. unfold write_line, mbind, M_bind, bind, lift, this.
  by rewrite H1, H2.
Qed.

Lemma point_feature_pair (r : reporter) g p a b :
  pair_feature perrors a b (m_object_id r) (point_feature r g p a b).
Proof.
  unfold point_feature, pair_feature. repeat split;
    unfold field, set_object, set_field; cbn [feature_fields feature_layer];
    by simplify_map_eq.
Qed.

Lemma line_feature_pair (r : reporter) p1 p2 p a b :
  pair_feature lerrors a b (m_object_id r) (line_feature r p1 p2 p a b).
Proof.
  unfold line_feature, pair_feature. repeat split;
    unfold field, set_object, set_field; cbn [feature_fields feature_layer];
    by simplify_map_eq.
Qed.

(** [write_point] that returns has added one feature to the point layer. *)
Lemma write_point_returns p a b loc (r : reporter) :
  (write_point p a b loc r).1 = Ok tt →
  ∃ f, written perrors r (write_point p a b loc r).2 = [f] ∧
       pair_feature perrors a b (m_object_id r) f.
Proof.
  intros Hout. destruct (create_point loc) as [g|e] eqn:Hg.
  - rewrite (write_point_as_add _ _ _ _ g) in Hout |- * by done.
    apply add_to_layer_returns in Hout.
    destruct (written_add _ r perrors Hout) as [_ ->].
    eexists. split; [done | apply point_feature_pair].
  - unfold write_point, mbind, M_bind, bind, lift in Hout.
    by rewrite Hg in Hout.
Qed.

(** [write_line] that returns has added one feature to the line layer. *)
Lemma write_line_returns p a b loc1 loc2 (r : reporter) :
  (write_line p a b loc1 loc2 r).1 = Ok tt →
  ∃ f, written lerrors r (write_line p a b loc1 loc2 r).2 = [f] ∧
       pair_feature lerrors a b (m_object_id r) f.
Proof.
  intros Hout.
  destruct (lon_lat loc1) as [p1|e] eqn:H1;
    [destruct (lon_lat loc2) as [p2|e] eqn:H2|].
  - rewrite (write_line_as_add _ _ _ _ _ p1 p2) in Hout |- * by done.
    apply add_to_layer_returns in Hout.
    destruct (written_add _ r lerrors Hout) as [_ ->].
    eexists. split; [done | apply line_feature_pair].
  - unfold write_line, mbind, M_bind, bind, lift in Hout.
    by rewrite H1, H2 in Hout.
  - unfold write_line, mbind, M_bind, bind, lift in Hout.
    by rewrite H1 in Hout.
Qed.

(** A way problem that returns, the linestring built, has added one feature
    to the line layer. *)
Lemma write_way_problem_returns p (w : Way Location) g (r : reporter) :
  (2 ≤ length (nodes w))%nat → create_linestring w = Ok g →
  (write_way_problem p w r).1 = Ok tt →
  written lerrors r (write_way_problem p w r).2 = [way_problem_feature r g p w].
Proof.
  intros Hlen Hg. unfold write_way_problem. destruct (decide _); [lia|].
  unfold try_catch_geometry_error, mbind, M_bind, bind, lift, this.
  rewrite Hg. fold (way_problem_feature r g p w).
  destruct (create_feature_ok (way_problem_feature r g p w)) eqn:Hok.
  - destruct (written_add _ r lerrors Hok) as [-> ?]. by intros _.
  - unfold add_to_layer. by rewrite Hok.
Qed.

(** [report_way] that returns, the linestring built, has added one feature
    to the ways layer. *)
Lemma report_way_returns (w : Way Location) g (r : reporter) :
  (2 ≤ length (nodes w))%nat → create_linestring w = Ok g →
  (report_way w r).1 = Ok tt →
  written ways r (report_way w r).2 = [way_feature r g w].
Proof.
  intros Hlen Hg. unfold report_way.
  destruct (nodes w) as [|n [|n' ns]]; [cbn in Hlen; lia..|].
  unfold try_catch_geometry_error, mbind, M_bind, bind, lift, this.
  rewrite Hg. fold (way_feature r g w).
  destruct (create_feature_ok (way_feature r g w)) eqn:Hok.
  - destruct (written_add _ r ways Hok) as [-> ?]. by intros _.
  - unfold add_to_layer. by rewrite Hok.
Qed.

Lemma pair_written_point (r r' : reporter) a b f :
  written perrors r r' = [f] → pair_feature perrors a b (m_object_id r) f →
  ∃ f, (f ∈ written perrors r r' ∨ f ∈ written lerrors r r') ∧
       field "obj_id" f = Some (VInt (int32_t (m_object_id r))) ∧
       field "id1" f = Some (VDouble (double a)) ∧
       field "id2" f = Some (VDouble (double b)).
Proof.
  intros -> (_ & ? & ? & ?). exists f. split; [left; apply list_elem_of_here|done].
Qed.

Lemma pair_written_line (r r' : reporter) a b f :
  written lerrors r r' = [f] → pair_feature lerrors a b (m_object_id r) f →
  ∃ f, (f ∈ written perrors r r' ∨ f ∈ written lerrors r r') ∧
       field "obj_id" f = Some (VInt (int32_t (m_object_id r))) ∧
       field "id1" f = Some (VDouble (double a)) ∧
       field "id2" f = Some (VDouble (double b)).
Proof.
  intros -> (_ & ? & ? & ?). exists f. split; [right; apply list_elem_of_here|done].
Qed.

(** Every pair of related ids of a report that returns is in a feature of
    a problem layer. *)
Lemma run_report_returns_pairs c (r : reporter) a b :
  (run_report c r).1 = Ok tt → (a, b) ∈ related_ids c →
  ∃ f, (f ∈ written perrors r (run_report c r).2 ∨
        f ∈ written lerrors r (run_report c r).2) ∧
       field "obj_id" f = Some (VInt (int32_t (m_object_id r))) ∧
       field "id1" f = Some (VDouble (double a)) ∧
       field "id2" f = Some (VDouble (double b)).
Proof.
  assert (∀ p a b loc, (write_point p a b loc r).1 = Ok tt →
    ∃ f, (f ∈ written perrors r (write_point p a b loc r).2 ∨
          f ∈ written lerrors r (write_point p a b loc r).2) ∧
         field "obj_id" f = Some (VInt (int32_t (m_object_id r))) ∧
         field "id1" f = Some (VDouble (double a)) ∧
         field "id2" f = Some (VDouble (double b))) as Hpoint.
  { intros p a' b' loc Hout.
    destruct (write_point_returns _ _ _ _ _ Hout) as (f & Hf & Hp).
    by eapply pair_written_point. }
  assert (∀ p a b l1 l2, (write_line p a b l1 l2 r).1 = Ok tt →
    ∃ f, (f ∈ written perrors r (write_line p a b l1 l2 r).2 ∨
          f ∈ written lerrors r (write_line p a b l1 l2 r).2) ∧
         field "obj_id" f = Some (VInt (int32_t (m_object_id r))) ∧
         field "id1" f = Some (VDouble (double a)) ∧
         field "id2" f = Some (VDouble (double b))) as Hline.
  { intros p a' b' l1 l2 Hout.
    destruct (write_line_returns _ _ _ _ _ _ Hout) as (f & Hf & Hp).
    by eapply pair_written_line. }
  intros Hout Hin. destruct c; cbn [run_report related_ids] in *;
    try (apply list_elem_of_singleton in Hin; injection Hin as -> ->);
    try (by apply elem_of_nil in Hin);
    try (by apply Hpoint); try (by apply Hline).
  - (* intersection: a point and two lines *)
    unfold report_intersection in *.
    destruct (bind_returns _ _ _ _ Hout) as ([] & r1 & H1 & Heq).
    rewrite Heq in Hout |- *.
    destruct (bind_returns _ _ _ _ Hout) as ([] & r2 & H2 & Heq').
    rewrite Heq' in Hout |- *. clear Heq Heq'.
    pose proof (write_point_steps "intersection" way1_id way2_id intersection r)
      as E1. rewrite H1 in E1. cbn [snd] in E1.
    pose proof (write_line_steps "intersection" way1_id way2_id s1 e1 r1) as E2.
    rewrite H2 in E2. cbn [snd] in E2.
    pose proof (write_line_steps "intersection" way2_id way1_id s2 e2 r2) as E3.
    pose proof (extends_trans _ _ _ _ (extends_mono _ (λ _, True) _ _ (λ _ _, I) E1)
                  (extends_mono _ (λ _, True) _ _ (λ _ _, I) E2)) as E12.
    apply elem_of_cons in Hin as [Hin|Hin].
    + injection Hin as -> ->.
      assert ((write_point "intersection" way1_id way2_id intersection r).1 = Ok tt)
        as Hp by (by rewrite H1).
      destruct (write_point_returns _ _ _ _ _ Hp) as (f & Hf & _ & ? & ? & ?).
      rewrite H1 in Hf. cbn [snd] in Hf.
      exists f. split; [left|done].
      rewrite (written_app _ _ r r1 _ perrors E1
                 (extends_trans _ _ _ _ (extends_mono _ (λ _, True) _ _ (λ _ _, I) E2)
                    (extends_mono _ (λ _, True) _ _ (λ _ _, I) E3))).
      rewrite Hf. apply list_elem_of_here.
    + apply list_elem_of_singleton in Hin. injection Hin as -> ->.
      destruct (write_line_returns _ _ _ _ _ _ Hout) as (f & Hf & _ & Hid & ? & ?).
      destruct E12 as (_ & Hoid & _).
      exists f. split; [right|by rewrite <- Hoid].
      rewrite (written_app _ _ r r2 _ lerrors
                 (extends_trans _ _ _ _ (extends_mono _ (λ _, True) _ _ (λ _ _, I) E1)
                    (extends_mono _ (λ _, True) _ _ (λ _ _, I) E2)) E3).
      rewrite Hf. apply elem_of_app. right. apply list_elem_of_here.
  - (* a way: only one of a single node has related ids *)
    unfold report_way in *. destruct (nodes way) as [|n [|n' ns]];
      [by apply elem_of_nil in Hin | | by apply elem_of_nil in Hin].
    apply list_elem_of_singleton in Hin. injection Hin as -> ->.
    by apply Hpoint.
Qed.

End reporter.

(** C8. When building the linestring of a way fails with
    [geometry_error], each of the reporting operations that builds one
    catches the error itself: it returns normally, has written nothing, and
    a run over further reports goes on with the next one as if the way had
    not been reported.  ([report_way] builds a linestring for every way but
    those with a single node.) *)
Theorem geometry_error_is_swallowed `{Collaborators}
    (w : Way Location) (what : string) (r : reporter) :
  create_linestring w = Throw (geometry_error what) →
  report_way_in_multiple_rings w r = (Ok tt, r) ∧
  report_inner_with_same_tags w r = (Ok tt, r) ∧
  report_duplicate_way w r = (Ok tt, r) ∧
  (length (nodes w) ≠ 1%nat → report_way w r = (Ok tt, r)) ∧
  (∀ c rest,
     c ∈ [WayInMultipleRings w; InnerWithSameTags w; DuplicateWay w] ∨
     (c = ReportWay w ∧ length (nodes w) ≠ 1%nat) →
     run_reports (c :: rest) r = run_reports rest r).
Proof.
  intros Hw.
  pose proof (λ p, write_way_problem_swallows p w what r Hw) as Hp.
  pose proof (report_way_swallows w what r Hw) as Hr.
  split; [apply Hp|]. split; [apply Hp|]. split; [apply Hp|]. split; [done|].
  intros c rest [Hc|[-> Hlen]]; apply run_reports_skip.
  - apply elem_of_cons in Hc as [->|Hc]; [apply Hp|].
    apply elem_of_cons in Hc as [->|Hc]; [apply Hp|].
    apply list_elem_of_singleton in Hc as ->. apply Hp.
  - by apply Hr.
Qed.

(** C8 at a way with two nodes on one spot, reported between two proper
    reports. *)
Lemma geometry_error_is_swallowed_witness :
  @create_linestring checked_collaborators degenerate_way
  = Throw (geometry_error "need at least two points for linestring") ∧
  @report_way checked_collaborators degenerate_way fresh_reporter
  = (Ok tt, fresh_reporter) ∧
  @report_duplicate_way checked_collaborators degenerate_way fresh_reporter
  = (Ok tt, fresh_reporter).
Proof.
  assert (@create_linestring checked_collaborators degenerate_way
          = Throw (geometry_error "need at least two points for linestring"))
    as Hw by reflexivity.
  split; [exact Hw|].
  destruct (@geometry_error_is_swallowed checked_collaborators
              degenerate_way _ fresh_reporter Hw) as (_ & _ & Hd & Hr & _).
  split; [apply Hr; cbn; lia | exact Hd].
Defined.

(** *** The layer schema *)

(** C7, as amended.  The constructor sets up exactly three layers: point
    problems, line problems and plain ways.  Each carries the object type (a
    string of width 1), the object id and the node count.  The two problem
    layers carry two related ids, [id1] and [id2], and a problem label; the
    ways layer carries one related id, [way_id], and no problem label. *)
Theorem layer_schema `{Collaborators} (object_type : item_type)
    (object_id nodes_count : Z) :
  let r := ProblemReporterOGR object_type object_id nodes_count in
  layer_name <$> layers r = ["perrors"; "lerrors"; "ways"] ∧
  layer_geom <$> layers r = [wkbPoint; wkbLineString; wkbLineString] ∧
  Forall (λ l, [("obj_type", OFTString, 1, 0); ("obj_id", OFTInteger, 10, 0);
                ("nodes", OFTInteger, 8, 0)] ⊆ schema l) (layers r) ∧
  each_layer_carries ["obj_type"; "obj_id"; "nodes"] r ∧
  related_id_fields (m_layer_perror r) = ["id1"; "id2"] ∧
  related_id_fields (m_layer_lerror r) = ["id1"; "id2"] ∧
  related_id_fields (m_layer_ways r) = ["way_id"] ∧
  has_field "problem" (m_layer_perror r) = true ∧
  has_field "problem" (m_layer_lerror r) = true ∧
  has_field "problem" (m_layer_ways r) = false ∧
  schema (m_layer_perror r)
  = [("obj_type", OFTString, 1, 0); ("obj_id", OFTInteger, 10, 0);
     ("nodes", OFTInteger, 8, 0); ("id1", OFTReal, 12, 1);
     ("id2", OFTReal, 12, 1); ("problem", OFTString, 30, 0)] ∧
  schema (m_layer_lerror r) = schema (m_layer_perror r) ∧
  schema (m_layer_ways r)
  = [("obj_type", OFTString, 1, 0); ("obj_id", OFTInteger, 10, 0);
     ("way_id", OFTInteger, 10, 0); ("nodes", OFTInteger, 8, 0)].
Proof.
  intros r. subst r.
  split; [reflexivity|]. split; [reflexivity|].
  split.
  { repeat apply Forall_cons_2; [..|apply Forall_nil_2];
      intros x Hx; cbn;
      repeat (apply elem_of_cons in Hx as [->|Hx]; [set_solver|]);
      by apply elem_of_nil in Hx. }
  split.
  { unfold each_layer_carries.
    repeat apply Forall_cons_2; try apply Forall_nil_2; reflexivity. }
  repeat split; reflexivity.
Qed.

(** C7 as the specification words it fails at the ways layer: it has no
    problem label. *)
Lemma ways_layer_has_no_problem_label :
  ¬ @each_layer_carries checked_collaborators
      ["obj_type"; "obj_id"; "nodes"; "problem"] fresh_reporter.
Proof.
  unfold each_layer_carries. intros Hall.
  apply Forall_cons_1 in Hall as [_ Hall].
  apply Forall_cons_1 in Hall as [_ Hall].
  apply Forall_cons_1 in Hall as [Hways _].
  apply Forall_cons_1 in Hways as [_ Hways].
  apply Forall_cons_1 in Hways as [_ Hways].
  apply Forall_cons_1 in Hways as [_ Hways].
  apply Forall_cons_1 in Hways as [Hproblem _].
  vm_compute in Hproblem. discriminate Hproblem.
Qed.

(** *** The ids the constructor makes room for *)

Lemma id_fields_as_constructed `{Collaborators} (object_type : item_type)
    (object_id nodes_count : Z) :
  let r := ProblemReporterOGR object_type object_id nodes_count in
  Forall (λ l, ("obj_id", OFTInteger, 10, 0) ∈ schema l) (layers r) ∧
  Forall (λ l, ("id1", OFTReal, 12, 1) ∈ schema l ∧
               ("id2", OFTReal, 12, 1) ∈ schema l)
         [m_layer_perror r; m_layer_lerror r] ∧
  ("way_id", OFTInteger, 10, 0) ∈ schema (m_layer_ways r).
Proof.
  cbv zeta. split; [|split].
  - repeat apply Forall_cons_2; [..|apply Forall_nil_2]; cbn; set_solver.
  - repeat apply Forall_cons_2; [..|apply Forall_nil_2]; cbn; set_solver.
  - cbn. set_solver.
Qed.

(** C10. Whatever is reported, every feature written carries the id of the
    object being worked on narrowed to 32 bit in [obj_id]; a feature of the
    ways layer carries the way's id narrowed likewise in [way_id], a feature
    of the three way problems carries it so in [id1]; a point or line
    problem feature carries its two related ids converted to [double] in
    [id1] and [id2].

    And such features are written.  When a report has returned, each pair of
    related ids it was given is found, as doubles, in a feature added to a
    problem layer; if the report is about a way of two nodes or more whose
    linestring could be built, exactly one feature was added, to the line
    layer for the three way problems and to the ways layer for [report_way],
    with the way's id narrowed.  [write_point] and [write_line] return, having
    added exactly one feature with these values, whenever the geometry can
    be built and OGR takes the feature.

    The constructor declares [obj_id] and [way_id] as integer fields and
    [id1], [id2] of the problem layers as real fields.  Narrowing is faithful
    only to ids within 32 bit, and the conversion to [double] is not for an
    id such as [2^53 + 1]. *)
Theorem ids_are_narrowed `{Collaborators} (c : report) (r : reporter)
    (l : layer_id) :
  Forall (λ f, feature_layer f = l ∧ recorded c (m_object_id r) f)
         (written l r (run_report c r).2) ∧
  ((run_report c r).1 = Ok tt →
   (∀ a b, (a, b) ∈ related_ids c →
      ∃ f, (f ∈ written perrors r (run_report c r).2 ∨
            f ∈ written lerrors r (run_report c r).2) ∧
           field "obj_id" f = Some (VInt (int32_t (m_object_id r))) ∧
           field "id1" f = Some (VDouble (double a)) ∧
           field "id2" f = Some (VDouble (double b))) ∧
   (∀ w g, (2 ≤ length (nodes w))%nat → create_linestring w = Ok g →
      (c ∈ [WayInMultipleRings w; InnerWithSameTags w; DuplicateWay w] →
         ∃ f, written lerrors r (run_report c r).2 = [f] ∧
              written perrors r (run_report c r).2 = [] ∧
              written ways r (run_report c r).2 = [] ∧
              field "obj_id" f = Some (VInt (int32_t (m_object_id r))) ∧
              field "id1" f = Some (VInt (int32_t (id w))) ∧
              field "id2" f = Some (VInt 0)) ∧
      (c = ReportWay w →
         ∃ f, written ways r (run_report c r).2 = [f] ∧
              written perrors r (run_report c r).2 = [] ∧
              written lerrors r (run_report c r).2 = [] ∧
              field "obj_id" f = Some (VInt (int32_t (m_object_id r))) ∧
              field "way_id" f = Some (VInt (int32_t (id w)))))) ∧
  (∀ p a b loc g,
     create_point loc = Ok g →
     create_feature_ok (point_feature r g p a b) = true →
     (write_point p a b loc r).1 = Ok tt ∧
     ∃ f, written perrors r (write_point p a b loc r).2 = [f] ∧
          field "obj_id" f = Some (VInt (int32_t (m_object_id r))) ∧
          field "id1" f = Some (VDouble (double a)) ∧
          field "id2" f = Some (VDouble (double b))) ∧
  (∀ p a b loc1 loc2 p1 p2,
     lon_lat loc1 = Ok p1 → lon_lat loc2 = Ok p2 →
     create_feature_ok (line_feature r p1 p2 p a b) = true →
     (write_line p a b loc1 loc2 r).1 = Ok tt ∧
     ∃ f, written lerrors r (write_line p a b loc1 loc2 r).2 = [f] ∧
          field "obj_id" f = Some (VInt (int32_t (m_object_id r))) ∧
          field "id1" f = Some (VDouble (double a)) ∧
          field "id2" f = Some (VDouble (double b))) ∧
  (∀ object_type object_id nodes_count,
     let r0 := ProblemReporterOGR object_type object_id nodes_count in
     Forall (λ l, ("obj_id", OFTInteger, 10, 0) ∈ schema l) (layers r0) ∧
     Forall (λ l, ("id1", OFTReal, 12, 1) ∈ schema l ∧
                  ("id2", OFTReal, 12, 1) ∈ schema l)
            [m_layer_perror r0; m_layer_lerror r0] ∧
     ("way_id", OFTInteger, 10, 0) ∈ schema (m_layer_ways r0)) ∧
  (∀ z, int32_t z = z ↔ - 2 ^ 31 ≤ z < 2 ^ 31) ∧
  int32_t (2 ^ 32 + 5) = 5 ∧
  double_to_Z (double (2 ^ 53 + 1)) = Some (2 ^ 53) ∧
  double_to_Z (double (2 ^ 53)) = Some (2 ^ 53).
Proof.
  split; [apply extends_written, run_report_steps|].
  split.
  { intros Hout. split; [intros a b; by apply run_report_returns_pairs|].
    intros w g Hlen Hg. split.
    - intros Hc.
      assert (∃ p, run_report c = write_way_problem p w) as [p Hp].
      { apply elem_of_cons in Hc as [->|Hc]; [by eexists|].
        apply elem_of_cons in Hc as [->|Hc]; [by eexists|].
        apply list_elem_of_singleton in Hc as ->. by eexists. }
      rewrite Hp in Hout |- *.
      pose proof (write_way_problem_returns p w g r Hlen Hg Hout) as Hl.
      assert (steps (λ _ f, feature_layer f = lerrors) (write_way_problem p w))
        as Hst.
      { unfold write_way_problem. destruct (decide _); [apply steps_ret|].
        apply steps_try, steps_lift. intros g' _.
        by apply (steps_this_add (λ _ f, feature_layer f = lerrors)). }
      pose proof (extends_written _ _ _ perrors (Hst r)) as Hpe.
      pose proof (extends_written _ _ _ ways (Hst r)) as Hwa.
      exists (way_problem_feature r g p w).
      split; [exact Hl|].
      split; [by destruct Hpe as [|f fs [? ?]]; [|congruence]|].
      split; [by destruct Hwa as [|f fs [? ?]]; [|congruence]|].
      unfold way_problem_feature.
      repeat split; unfold field, set_object, set_field;
        cbn [feature_fields feature_layer]; by simplify_map_eq.
    - intros ->. cbn [run_report] in Hout |- *.
      pose proof (report_way_returns w g r Hlen Hg Hout) as Hw.
      assert (steps (λ _ f, feature_layer f = ways) (report_way w)) as Hst.
      { unfold report_way. destruct (nodes w) as [|n [|n' ns]];
          [cbn in Hlen; lia..|].
        apply steps_try, steps_lift. intros g' _.
        by apply (steps_this_add (λ _ f, feature_layer f = ways)). }
      pose proof (extends_written _ _ _ perrors (Hst r)) as Hpe.
      pose proof (extends_written _ _ _ lerrors (Hst r)) as Hle.
      exists (way_feature r g w).
      split; [exact Hw|].
      split; [by destruct Hpe as [|f fs [? ?]]; [|congruence]|].
      split; [by destruct Hle as [|f fs [? ?]]; [|congruence]|].
      unfold way_feature.
      repeat split; unfold field, set_object, set_field;
        cbn [feature_fields feature_layer]; by simplify_map_eq. }
  split.
  { intros p a b loc g Hg Hok.
    rewrite (write_point_as_add p a b loc g r Hg).
    destruct (written_add _ r perrors Hok) as [Hadd Hw].
    split; [by rewrite Hadd|].
    exists (point_feature r g p a b). split; [exact Hw|].
    by destruct (point_feature_pair r g p a b) as (_ & ? & ? & ?). }
  split.
  { intros p a b loc1 loc2 p1 p2 H1 H2 Hok.
    rewrite (write_line_as_add p a b loc1 loc2 p1 p2 r H1 H2).
    destruct (written_add _ r lerrors Hok) as [Hadd Hw].
    split; [by rewrite Hadd|].
    exists (line_feature r p1 p2 p a b). split; [exact Hw|].
    by destruct (line_feature_pair r p1 p2 p a b) as (_ & ? & ? & ?). }
  split; [intros; apply id_fields_as_constructed|].
  split; [apply int32_t_faithful_iff|].
  split; [reflexivity|].
  split; vm_compute; reflexivity.
Qed.

(** C10 at three reports made while relation 42 is worked on: a duplicate
    node with ids [2^53 + 1] and [7], whose feature holds [2^53] in [id1];
    a way of two nodes with id [2^32 + 5], whose feature in the ways layer
    holds way id [5]; and the same way reported as a duplicate, whose feature
    in the line layer holds [5] in [id1]. *)
Lemma ids_are_narrowed_witness :
  let node := @DuplicateNode checked_collaborators (2 ^ 53 + 1) 7 (10, 20) in
  let way := @ReportWay checked_collaborators proper_way in
  let dup := @DuplicateWay checked_collaborators proper_way in
  (@run_report checked_collaborators node fresh_reporter).1 = Ok tt ∧
  (∃ f, f ∈ written perrors fresh_reporter
              (@run_report checked_collaborators node fresh_reporter).2 ∧
        field "obj_id" f = Some (VInt 42) ∧
        field "id1" f = Some (VDouble (double (2 ^ 53))) ∧
        field "id2" f = Some (VDouble (double 7))) ∧
  (@run_report checked_collaborators way fresh_reporter).1 = Ok tt ∧
  (∃ f, written ways fresh_reporter
          (@run_report checked_collaborators way fresh_reporter).2 = [f] ∧
        field "obj_id" f = Some (VInt 42) ∧
        field "way_id" f = Some (VInt 5)) ∧
  (@run_report checked_collaborators dup fresh_reporter).1 = Ok tt ∧
  (∃ f, written lerrors fresh_reporter
          (@run_report checked_collaborators dup fresh_reporter).2 = [f] ∧
        field "obj_id" f = Some (VInt 42) ∧
        field "id1" f = Some (VInt 5)) ∧
  (@write_point checked_collaborators "touching_ring" (2 ^ 53 + 1) 0 (10, 20)
     fresh_reporter).1 = Ok tt ∧
  (∃ f, written perrors fresh_reporter
          (@write_point checked_collaborators "touching_ring" (2 ^ 53 + 1) 0
             (10, 20) fresh_reporter).2 = [f] ∧
        field "id1" f = Some (VDouble (double (2 ^ 53)))) ∧
  (@write_line checked_collaborators "duplicate_segment" 1 2 (10, 20) (30, 40)
     fresh_reporter).1 = Ok tt.
Proof.
  cbv zeta.
  assert (double (2 ^ 53 + 1) = double (2 ^ 53)) as Hround
    by (vm_compute; reflexivity).
  assert (int32_t 42 = 42 ∧ int32_t (2 ^ 32 + 5) = 5) as [H42 H5]
    by (split; reflexivity).
  assert (2 ≤ length (nodes proper_way))%nat as Hlen by (cbn; lia).
  assert (@create_linestring checked_collaborators proper_way
          = Ok (OGRLineString [(10, 20); (30, 40)])) as Hg by reflexivity.
  (* the duplicate node *)
  destruct (@ids_are_narrowed checked_collaborators
              (@DuplicateNode checked_collaborators (2 ^ 53 + 1) 7 (10, 20))
              fresh_reporter perrors) as (_ & Hnode & _).
  assert ((@run_report checked_collaborators
             (@DuplicateNode checked_collaborators (2 ^ 53 + 1) 7 (10, 20))
             fresh_reporter).1 = Ok tt) as Hnode_ok by reflexivity.
  destruct (Hnode Hnode_ok) as [Hpairs _].
  destruct (Hpairs (2 ^ 53 + 1) 7) as (f1 & Hin1 & Hoid1 & Hid1 & Hid2);
    [apply list_elem_of_here|].
  split; [exact Hnode_ok|].
  split.
  { exists f1. split.
    - destruct Hin1 as [Hin1|Hin1]; [exact Hin1|].
      exfalso. revert Hin1. apply not_elem_of_nil.
    - cbn [m_object_id fresh_reporter ProblemReporterOGR] in Hoid1.
      by rewrite <- Hround, <- H42. }
  (* the way *)
  destruct (@ids_are_narrowed checked_collaborators
              (@ReportWay checked_collaborators proper_way)
              fresh_reporter ways) as (_ & Hway & _).
  assert ((@run_report checked_collaborators
             (@ReportWay checked_collaborators proper_way)
             fresh_reporter).1 = Ok tt) as Hway_ok by reflexivity.
  destruct (Hway Hway_ok) as [_ Hways].
  destruct (Hways proper_way _ Hlen Hg) as [_ Hrw].
  destruct (Hrw eq_refl) as (f2 & Hw2 & _ & _ & Hoid2 & Hwid2).
  split; [exact Hway_ok|].
  split.
  { exists f2. split; [exact Hw2|].
    cbn [m_object_id fresh_reporter ProblemReporterOGR] in Hoid2.
    rewrite H42 in Hoid2. cbn [id proper_way] in Hwid2. rewrite H5 in Hwid2.
    done. }
  (* the duplicate way *)
  destruct (@ids_are_narrowed checked_collaborators
              (@DuplicateWay checked_collaborators proper_way)
              fresh_reporter lerrors) as (_ & Hdup & Hpoint & Hline & _).
  assert ((@run_report checked_collaborators
             (@DuplicateWay checked_collaborators proper_way)
             fresh_reporter).1 = Ok tt) as Hdup_ok by reflexivity.
  destruct (Hdup Hdup_ok) as [_ Hdups].
  destruct (Hdups proper_way _ Hlen Hg) as [Hwp _].
  destruct Hwp as (f3 & Hw3 & _ & _ & Hoid3 & Hid3 & _);
    [apply list_elem_of_further, list_elem_of_further, list_elem_of_here|].
  split; [exact Hdup_ok|].
  split.
  { exists f3. split; [exact Hw3|].
    cbn [m_object_id fresh_reporter ProblemReporterOGR] in Hoid3.
    rewrite H42 in Hoid3. cbn [id proper_way] in Hid3. rewrite H5 in Hid3.
    done. }
  (* the two writers *)
  destruct (Hpoint "touching_ring" (2 ^ 53 + 1) 0 (10, 20) (OGRPoint 10 20)
              eq_refl eq_refl) as (Hp_ok & f4 & Hw4 & _ & Hid4 & _).
  split; [exact Hp_ok|].
  split; [exists f4; split; [exact Hw4 | by rewrite <- Hround]|].
  by destruct (Hline "duplicate_segment" 1 2 (10, 20) (30, 40) (10, 20) (30, 40)
                 eq_refl eq_refl eq_refl) as [Hl_ok _].
Defined.

(** A way with id [2^32 + 5], reported while relation 42 is worked on: one
    feature in the ways layer, with way id 5. *)
Example report_way_narrows_way_id :
  let r' := (@report_way checked_collaborators proper_way fresh_reporter).2 in
  (λ f, (field "obj_id" f, field "way_id" f)) <$> written ways fresh_reporter r'
  = [(Some (VInt 42), Some (VInt 5))].
Proof. vm_compute. reflexivity. Qed.

(** A duplicate node with ids [2^53 + 1] and [7]: one feature in the point
    layer, whose [id1] reads back as [2^53]. *)
Example duplicate_node_rounds_id :
  let r' := (@report_duplicate_node checked_collaborators
               (2 ^ 53 + 1) 7 (10, 20) fresh_reporter).2 in
  (λ f, (field "id1" f, field "id2" f)) <$> written perrors fresh_reporter r'
  = [(Some (VDouble (double (2 ^ 53))), Some (VDouble (double 7)))].
Proof. vm_compute. reflexivity. Qed.

End ProblemReporterOGRSpec.

(** * Further properties *)

(** ** Tag records: scanning arbitrary buffers *)

Module TagRecordsFacts.

Import Byte TagRecords TagRecordsSpec.

(** A scan that finds a null byte has walked over null-free bytes. *)
Lemma strchr_nul_Some s : ∀ i,
  strchr_nul s = Some i →
  ∃ k rest, s = k ++ x00 :: rest ∧ length k = i ∧ no_null k.
Proof.
  induction s as [|c s IH]; intros i Hi; [done|].
  cbn [strchr_nul] in Hi. rewrite eqb_x00 in Hi. case_bool_decide as Hc.
  - injection Hi as <-. subst c. exists [], s. repeat split.
    unfold no_null. apply not_elem_of_nil.
  - destruct (strchr_nul s) as [j|] eqn:Hj; [|done]. injection Hi as <-.
    destruct (IH j eq_refl) as (k & rest & -> & <- & Hk).
    exists (c :: k), rest. repeat split. by apply no_null_cons.
Qed.

Lemma after_null_Some mem p q :
  after_null mem p = Some q →
  ∃ k rest, drop p mem = k ++ x00 :: rest ∧ q = p + length k + 1 ∧
            no_null k ∧ drop q mem = rest.
Proof.
  unfold after_null, strchr0. intros Hq.
  destruct (strchr_nul (drop p mem)) as [i|] eqn:Hi; [|done].
  cbn in Hq. injection Hq as <-.
  destruct (strchr_nul_Some _ _ Hi) as (k & rest & Hdrop & <- & Hk).
  exists k, rest. repeat split; try done.
  replace (p + length k + 1) with (p + (length k + 1)) by lia.
  rewrite <- drop_drop, Hdrop.
  replace (length k + 1) with (length (k ++ [x00])) by (rewrite length_app; cbn; lia).
  rewrite (cons_middle x00 k rest), app_assoc. apply drop_app_length.
Qed.

(** What a successful [next] has scanned is one encoded record. *)
Lemma next_Some mem this n :
  next mem this = Some n →
  ∃ k v post,
    drop this mem = encode_tag (k, v) ++ post ∧
    no_null k ∧ no_null v ∧
    n = this + length (encode_tag (k, v)) ∧
    drop n mem = post.
Proof.
  unfold next, data. intros Hn.
  destruct (after_null mem this) as [vp|] eqn:Hvp; [|done]. cbn in Hn.
  destruct (after_null_Some _ _ _ Hvp) as (k & rest & Hdrop & -> & Hk & Hrest).
  destruct (after_null_Some _ _ _ Hn) as (v & post & Hdrop' & -> & Hv & Hpost).
  exists k, v, post. rewrite Hrest in Hdrop'.
  split.
  { rewrite Hdrop, Hdrop'. unfold encode_tag. cbn [fst snd].
    rewrite <- !app_assoc. reflexivity. }
  repeat split; try done.
  rewrite length_encode_tag. lia.
Qed.

Lemma drop_nonempty_lt {A} (l : list A) n x rest :
  drop n l = x :: rest → n < length l.
Proof.
  intros H. destruct (decide (n < length l)) as [|Hge]; [done|].
  rewrite drop_ge in H by lia. done.
Qed.

Lemma drop_as_app {A} (l : list A) n :
  n ≤ length l → l = take n l ++ drop n l ∧ length (take n l) = n.
Proof. intros. split; [by rewrite take_drop | rewrite length_take; lia]. Qed.

Lemma next_decodes (mem : memory) (this n : ptr) :
  next mem this = Some n →
  ∃ k v,
    read_tag mem this = Some (k, v) ∧
    no_null k ∧ no_null v ∧
    n = this + (length k + 1 + length v + 1) ∧
    n ≤ length mem ∧
    take (n - this) (drop this mem) = encode_tag (k, v).
Proof.
  intros Hn.
  destruct (next_Some _ _ _ Hn) as (k & v & post & Hdrop & Hk & Hv & -> & _).
  exists k, v.
  assert (this < length mem) as Hlt.
  { unfold encode_tag in Hdrop. cbn [fst snd] in Hdrop.
    destruct k; eapply drop_nonempty_lt; exact Hdrop. }
  destruct (drop_as_app mem this ltac:(lia)) as [Hmem Hlen].
  rewrite Hdrop in Hmem. clear Hn Hlt.
  remember (take this mem) as pre eqn:Hpre. clear Hpre.
  subst mem this.
  split; [by apply read_tag_resident|].
  rewrite drop_app_length, !length_app, length_encode_tag.
  repeat split; try done; [lia|].
  replace (length pre + (length k + 1 + length v + 1) - length pre)
    with (length (encode_tag (k, v))) by (rewrite length_encode_tag; lia).
  by rewrite take_app_length.
Qed.

(** X1. On any buffer, whatever lies around it: when the scan of
    [Tag::next] succeeds, the record it has scanned decodes to a key and a
    value without null bytes, [value()] points one past the key's
    terminator, what was scanned is exactly their encoding, [next] lies
    [len(key) + 1 + len(value) + 1] further, and still inside the buffer. *)
Theorem scanned_record_decodes (mem : memory) (this n : ptr) :
  next mem this = Some n →
  ∃ k v,
    read_tag mem this = Some (k, v) ∧
    no_null k ∧ no_null v ∧
    value mem this = Some (this + length k + 1) ∧
    n = this + (length k + 1 + length v + 1) ∧
    n ≤ length mem ∧
    take (n - this) (drop this mem) = encode_tag (k, v).
Proof.
  intros Hn.
  destruct (next_decodes _ _ _ Hn) as (k & v & Hread & Hk & Hv & Hlen & Hin & Hbytes).
  exists k, v. repeat split; try done.
  unfold read_tag in Hread.
  destruct (string_at mem (key this)) as [k'|] eqn:Hkey; [|done].
  cbn [mbind option_bind] in Hread.
  destruct (value mem this) as [vp|] eqn:Hvp; [|done].
  cbn [mbind option_bind] in Hread.
  destruct (string_at mem vp) as [v'|]; [|done]. injection Hread as -> ->.
  unfold value, data in Hvp.
  destruct (after_null_Some _ _ _ Hvp) as (k1 & rest & Hdrop & -> & Hk1 & _).
  do 3 f_equal. unfold string_at, key, data in Hkey. rewrite Hdrop in Hkey.
  rewrite c_str_terminated in Hkey by done. by injection Hkey as ->.
Qed.

(** X1 at the first record of the scenario. *)
Lemma scanned_record_decodes_witness :
  next scenario_memory 8 = Some 21 ∧
  ∃ k v, read_tag scenario_memory 8 = Some (k, v) ∧ 21 = 8 + (length k + 1 + length v + 1).
Proof.
  assert (next scenario_memory 8 = Some 21) as Hn by reflexivity.
  split; [exact Hn|].
  destruct (scanned_record_decodes scenario_memory 8 21 Hn)
    as (k & v & Hread & _ & _ & _ & Hlen & _).
  exists k, v. split; [exact Hread | exact Hlen].
Defined.

(** *** Iteration on arbitrary buffers *)

Lemma iterate_fuel_Some fuel : ∀ mem it last starts k,
  iterate_fuel fuel mem it last = Some (starts, k) →
  ∃ tags,
    length tags = k ∧ starts = record_starts it tags ∧ no_nulls tags ∧
    mapM (read_tag mem) starts = Some tags ∧
    it ≤ last ∧ (tags ≠ [] → last ≤ length mem) ∧
    take (last - it) (drop it mem) = encode_tags tags.
Proof.
  induction fuel as [|fuel IH]; intros mem it last starts k Hit;
    cbn [iterate_fuel] in Hit; destruct (decide (it = last)) as [->|Hne];
    try done.
  - injection Hit as <- <-. exists []. rewrite Nat.sub_diag.
    repeat split; try done. constructor.
  - injection Hit as <- <-. exists []. rewrite Nat.sub_diag.
    repeat split; try done. constructor.
  - destruct (next mem it) as [n|] eqn:Hn; [|done]. cbn in Hit.
    destruct (iterate_fuel fuel mem n last) as [[starts' k']|] eqn:Hrec; [|done].
    cbn in Hit. injection Hit as <- <-.
    destruct (IH _ _ _ _ _ Hrec)
      as (tags & <- & -> & Hnn & Hread & Hle & Hin & Hbytes).
    destruct (next_decodes _ _ _ Hn) as (k0 & v0 & Hr0 & Hk0 & Hv0 & Hlen & Hnle & Htake).
    destruct (next_Some _ _ _ Hn) as (k1 & v1 & post & Hdrop & _ & _ & Hn1 & Hpost).
    assert (encode_tag (k1, v1) = encode_tag (k0, v0)) as Henc.
    { rewrite <- Htake, Hdrop, Hn1.
      replace (it + length (encode_tag (k1, v1)) - it)
        with (length (encode_tag (k1, v1))) by lia.
      by rewrite take_app_length. }
    rewrite Henc in Hdrop, Hn1. clear Henc k1 v1.
    exists ((k0, v0) :: tags). cbn [length record_starts].
    rewrite <- Hn1.
    split; [done|]. split; [done|].
    split; [by apply Forall_cons|].
    split; [cbn [mapM]; rewrite Hr0; cbn; by rewrite Hread|].
    split; [lia|].
    split.
    { intros _. destruct tags; [|apply Hin; done].
      cbn in Hbytes. destruct (decide (last = n)) as [->|Hln]; [done|].
      exfalso. assert (0 < length (take (last - n) (drop n mem))) as Hpos.
      { rewrite length_take, length_drop. 
        destruct fuel; cbn [iterate_fuel] in Hrec;
          (destruct (decide (n = last)); [congruence|]); [done|].
        destruct (next mem n) as [n'|] eqn:Hn'; [|done].
        destruct (next_decodes _ _ _ Hn') as (? & ? & _ & _ & _ & ? & ? & _). lia. }
      rewrite Hbytes in Hpos. cbn in Hpos. lia. }
    rewrite encode_tags_cons, <- Hbytes, Hdrop, take_app_ge
      by (rewrite Hn1 in Hle; lia).
    f_equal. rewrite <- Hpost. f_equal. lia.
Qed.

(** X2. Whenever a walk from [cbegin] reaches [cend], on whatever buffer:
    the records it visited decode to pairs free of null bytes, they start
    back to back from [cbegin], and the bytes between the two boundaries are
    exactly the encoding of those pairs in the order visited.  So the
    sequences the iteration accepts are the well-formed ones. *)
Theorem iteration_reads_what_is_stored
    (mem : memory) (tl : TagList) (starts : list ptr) (k : nat) :
  iterate mem tl = Some (starts, k) →
  ∃ tags,
    length tags = k ∧
    starts = record_starts (cbegin tl) tags ∧
    no_nulls tags ∧
    mapM (read_tag mem) starts = Some tags ∧
    cbegin tl ≤ cend tl ∧
    take (cend tl - cbegin tl) (drop (cbegin tl) mem) = encode_tags tags ∧
    (cend tl ≤ length mem → resident mem tl tags).
Proof.
  intros Hit. unfold iterate in Hit.
  destruct (iterate_fuel_Some _ _ _ _ _ _ Hit)
    as (tags & Hk & Hs & Hnn & Hread & Hle & _ & Hbytes).
  exists tags. repeat split; try done.
  intros Hend. exists (take (cbegin tl) mem), (drop (cend tl) mem).
  rewrite <- Hbytes. split; [|split].
  - rewrite <- (take_drop (cbegin tl) mem) at 1. f_equal.
    rewrite <- (take_drop (cend tl - cbegin tl) (drop (cbegin tl) mem)) at 1.
    f_equal. rewrite drop_drop. f_equal. lia.
  - rewrite length_take. lia.
  - rewrite !length_take, length_drop. lia.
Qed.

(** X2 at the scenario. *)
Lemma iteration_reads_what_is_stored_witness :
  iterate scenario_memory scenario_list = Some ([8; 21], 2) ∧
  ∃ tags, length tags = 2 ∧ mapM (read_tag scenario_memory) [8; 21] = Some tags ∧
          take 33 (drop 8 scenario_memory) = encode_tags tags.
Proof.
  assert (iterate scenario_memory scenario_list = Some ([8; 21], 2)) as Hit
    by reflexivity.
  split; [exact Hit|].
  destruct (iteration_reads_what_is_stored _ _ _ _ Hit)
    as (tags & Hk & _ & _ & Hread & _ & Hbytes & _).
  exists tags. split; [exact Hk|]. split; [exact Hread | exact Hbytes].
Defined.

(** *** The walk ends *)

Lemma next_bounds mem it n :
  next mem it = Some n → it + 2 ≤ n ∧ n ≤ length mem.
Proof.
  intros Hn. destruct (next_decodes _ _ _ Hn) as (k & v & _ & _ & _ & -> & ? & _).
  lia.
Qed.

Lemma iterate_fuel_enough fuel : ∀ mem it last d,
  length mem - it ≤ 2 * fuel →
  iterate_fuel (fuel + d) mem it last = iterate_fuel fuel mem it last.
Proof.
  induction fuel as [|fuel IH]; intros mem it last d Hfuel.
  - destruct d as [|d]; [done|].
    change (0 + S d) with (S d). cbn [iterate_fuel].
    destruct (decide (it = last :> ptr)) as [|Hne]; [done|].
    destruct (next mem it) as [nx|] eqn:Hn; [|done].
    apply next_bounds in Hn. lia.
  - change (S fuel + d) with (S (fuel + d)). cbn [iterate_fuel].
    destruct (decide (it = last :> ptr)) as [|Hne]; [done|].
    destruct (next mem it) as [nx|] eqn:Hn; [|done]. cbn [mbind option_bind].
    apply next_bounds in Hn. by rewrite IH by lia.
Qed.

(** X3. The walk ends on every buffer, well-formed or not: each step moves
    the iterator at least two bytes on and a scan beyond the buffer is
    undefined, so a walk is over after at most half as many steps as the
    buffer has bytes.  Allowing the loop more rounds than that changes
    nothing; the bound in [iterate] never decides a result. *)
Theorem iteration_terminates (mem : memory) (it last : ptr) (fuel : nat) :
  length mem ≤ 2 * fuel →
  iterate_fuel fuel mem it last = iterate_fuel (length mem) mem it last ∧
  ∀ starts k, iterate_fuel fuel mem it last = Some (starts, k) →
              length starts = k ∧ it + 2 * k ≤ last ∧ (k ≠ 0 → 2 * k ≤ length mem).
Proof.
  intros Hfuel.
  assert (iterate_fuel fuel mem it last = iterate_fuel (length mem) mem it last)
    as Heq.
  { destruct (decide (fuel ≤ length mem)) as [Hle|Hgt].
    - rewrite <- (iterate_fuel_enough fuel mem it last (length mem - fuel)) by lia.
      f_equal. lia.
    - rewrite <- (iterate_fuel_enough (length mem) mem it last (fuel - length mem))
        by lia.
      f_equal. lia. }
  split; [exact Heq|].
  intros starts k Hit.
  destruct (iterate_fuel_Some _ _ _ _ _ _ Hit)
    as (tags & <- & -> & _ & _ & Hle & Hin & Hbytes).
  assert (length (encode_tags tags) ≤ last - it) as Hlen.
  { rewrite <- Hbytes, length_take. lia. }
  assert (2 * length tags ≤ length (encode_tags tags)) as H2.
  { clear. induction tags as [|[k v] tags IH]; [done|].
    rewrite encode_tags_cons, length_app, length_encode_tag. cbn [length]. lia. }
  assert (length (record_starts it tags) = length tags) as Hrs.
  { clear. revert it. induction tags as [|kv tags IH]; intros it; [done|].
    cbn [record_starts length]. by rewrite IH. }
  split; [done|]. split; [|intros Hk; assert (tags ≠ []) by (by destruct tags)];
    destruct tags; cbn [length] in *; try lia.
  specialize (Hin ltac:(done)). lia.
Qed.

(** X3 at the scenario, with more rounds than bytes. *)
Lemma iteration_terminates_witness :
  length scenario_memory ≤ 2 * 1000 ∧
  iterate_fuel 1000 scenario_memory 8 41
  = iterate_fuel (length scenario_memory) scenario_memory 8 41.
Proof.
  assert (length scenario_memory ≤ 2 * 1000) as H by (vm_compute; lia).
  split; [exact H|].
  exact (proj1 (iteration_terminates scenario_memory 8 41 1000 H)).
Defined.

(** *** The query *)

Lemma strcmp_query_rest q : ∀ s r1 r2,
  strcmp s (q ++ x00 :: r1) = strcmp s (q ++ x00 :: r2).
Proof.
  induction q as [|c q IH]; intros [|c' s] r1 r2; cbn [app strcmp]; try done.
  - destruct (Byte.eqb c' x00) eqn:E; [|done]. done.
  - destruct (Byte.eqb c' c); [|done].
    destruct (Byte.eqb c' x00); [done|]. apply IH.
Qed.

Lemma find_if_fuel_ext fuel : ∀ mem first last pred pred',
  (∀ p, pred p = pred' p) →
  find_if_fuel fuel mem first last pred = find_if_fuel fuel mem first last pred'.
Proof.
  induction fuel as [|fuel IH]; intros mem first last pred pred' Hext;
    cbn [find_if_fuel]; destruct (decide (first = last)); try done.
  rewrite Hext. destruct (pred' first) as [[]|]; cbn; try done.
  destruct (next mem first); cbn; [|done]. by apply IH.
Qed.

(** X4. [get_value_by_key] reads its query only up to the first null byte:
    whatever follows the terminator in the caller's memory never changes
    the result, on any buffer. *)
Theorem query_is_read_up_to_its_terminator
    (mem : memory) (tl : TagList) (q r1 r2 : list byte) :
  get_value_by_key mem tl (q ++ x00 :: r1)
  = get_value_by_key mem tl (q ++ x00 :: r2).
Proof.
  unfold get_value_by_key, find_if.
  rewrite (find_if_fuel_ext _ _ _ _ _ (key_equals mem (q ++ x00 :: r2))); [done|].
  intros p. unfold key_equals. by rewrite (strcmp_query_rest q _ r1 r2).
Qed.

End TagRecordsFacts.

(** ** Typed memory-mapped files: growing and mapping *)

Module TypedMmapFacts.

Import TypedMmap TypedMmapSpec.
Open Scope Z_scope.

(** *** What [grow_file] touches *)

Lemma ftruncate_footprint fd len σ :
  let σ' := (ftruncate fd len σ).2 in
  (∀ fd', fd' ≠ fd → fds σ' !! fd' = fds σ !! fd') ∧
  (∀ f, fds σ !! fd = Some f →
        ∃ f', fds σ' !! fd = Some f' ∧ writable f' = writable f ∧
              size_limit f' = size_limit f) ∧
  ((ftruncate fd len σ).1 < 0 → fds σ' = fds σ).
Proof.
  unfold ftruncate. destruct (fds σ !! fd) as [f|] eqn:Hf; cbn [fst snd].
  - destruct (negb (writable f)); [|destruct (len <? 0); [|destruct (size_limit f <? len)]];
      cbn [fst snd set_errno fds]; try (repeat split; try done; intros ? [= <-]; eauto).
    split; [|split; [|lia]].
    + intros fd' Hne. by rewrite lookup_insert_ne.
    + intros ? [= <-]. rewrite lookup_insert_eq. eauto.
  - repeat split; try done.
Qed.

Lemma file_size_state sizeof_T fd σ :
  fds (file_size sizeof_T fd σ).2 = fds σ.
Proof.
  unfold file_size, fstat. destruct (fds σ !! fd) as [f|]; cbn; [|done].
  by destruct (negb _).
Qed.

Lemma file_size_Ok_state sizeof_T fd σ count σ1 :
  file_size sizeof_T fd σ = (Ok count, σ1) → σ1 = σ.
Proof.
  unfold file_size, fstat. destruct (fds σ !! fd) as [f|]; cbn; [|done].
  destruct (negb _); [done|]. by intros [= _ <-].
Qed.

Lemma grow_file_keeps (sizeof_T new_size fd : Z) (σ : os) (f : file) :
  fds σ !! fd = Some f →
  ∃ f', fds (grow_file sizeof_T new_size fd σ).2 !! fd = Some f' ∧
        writable f' = writable f ∧ size_limit f' = size_limit f.
Proof.
  intros Hf. unfold grow_file.
  destruct (file_size sizeof_T fd σ) as [[count|e] σ1] eqn:Hfs.
  - apply file_size_Ok_state in Hfs as ->.
    destruct (count <? new_size); cbn [fst snd]; [|by eauto].
    pose proof (ftruncate_footprint fd
                  (to_off_t (to_size_t (sizeof_T * new_size))) σ) as Hft.
    destruct (ftruncate fd _ σ) as [r σ2]. cbn [fst snd] in Hft.
    destruct Hft as (_ & Hsame & _).
    destruct (r <? 0); cbn [snd]; by apply Hsame.
  - pose proof (file_size_state sizeof_T fd σ) as Hst. rewrite Hfs in Hst.
    cbn [fst snd] in *. rewrite Hst. by eauto.
Qed.

(** X5. Whatever [grow_file] is asked and however it ends, it changes no
    file but the one behind [fd], and of that one only the length: it stays
    open, with the access mode it had.  When [grow_file] throws, no file has
    changed at all. *)
Theorem grow_file_footprint (sizeof_T new_size fd : Z) (σ : os) :
  let σ' := (grow_file sizeof_T new_size fd σ).2 in
  (∀ fd', fd' ≠ fd → fds σ' !! fd' = fds σ !! fd') ∧
  (∀ f, fds σ !! fd = Some f →
        ∃ f', fds σ' !! fd = Some f' ∧ writable f' = writable f ∧
              size_limit f' = size_limit f) ∧
  (∀ e, (grow_file sizeof_T new_size fd σ).1 = Throw e → fds σ' = fds σ).
Proof.
  unfold grow_file.
  destruct (file_size sizeof_T fd σ) as [[count|e] σ1] eqn:Hfs.
  - apply file_size_Ok_state in Hfs as ->.
    destruct (count <? new_size); cbn [fst snd]; [|by repeat split; eauto].
    pose proof (ftruncate_footprint fd
                  (to_off_t (to_size_t (sizeof_T * new_size))) σ) as Hft.
    destruct (ftruncate fd _ σ) as [r σ2]. cbn [fst snd] in Hft.
    destruct Hft as (Hother & Hsame & Hfail).
    destruct (Z.ltb_spec r 0); cbn [fst snd]; repeat split; try done.
    intros e _. by apply Hfail.
  - pose proof (file_size_state sizeof_T fd σ) as Hst. rewrite Hfs in Hst.
    cbn [fst snd] in *. rewrite Hst. by repeat split; eauto.
Qed.

(** *** Read-only descriptors and lengths out of range *)

Lemma file_size_of_whole sizeof_T fd σ f :
  fds σ !! fd = Some f → file_ok f → st_size f mod sizeof_T = 0 →
  file_size sizeof_T fd σ = (Ok (st_size f / sizeof_T), σ).
Proof.
  intros Hf [Hsz Hlim] Hmod. apply file_size_multiple; [|lia|done].
  apply size_of_file_Some. eauto.
Qed.

(** X6. On a descriptor that is not open for writing, [grow_file] returns
    normally and leaves everything as it is when the file already holds
    [new_size] elements, since it does not call [ftruncate] then; when the
    file is smaller it throws [system_error] with the [EINVAL] of
    [ftruncate] and the file keeps its length. *)
Theorem grow_file_read_only (sizeof_T new_size fd : Z) (σ : os) (f : file) :
  0 < sizeof_T →
  fds σ !! fd = Some f → file_ok f → st_size f mod sizeof_T = 0 →
  writable f = false →
  grow_file sizeof_T new_size fd σ =
    if decide (new_size ≤ st_size f / sizeof_T) then (Ok tt, σ)
    else (Throw (system_error EINVAL "ftruncate failed"), set_errno EINVAL σ).
Proof.
  intros Hpos Hf Hok Hmod Hw. unfold grow_file.
  rewrite (file_size_of_whole _ _ _ f) by done.
  destruct (Z.ltb_spec (st_size f / sizeof_T) new_size);
    [rewrite decide_False by lia | by rewrite decide_True by lia].
  unfold ftruncate. by rewrite Hf, Hw.
Qed.

(** X6 at a read-only file of 16 bytes: two elements are there, three are
    not. *)
Lemma grow_file_read_only_witness :
  let f := {| st_size := 16; writable := false; size_limit := 2 ^ 40 |} in
  let σ := one_file 3 f in
  0 < 8 ∧ fds σ !! 3 = Some f ∧ file_ok f ∧ st_size f mod 8 = 0 ∧
  writable f = false ∧
  grow_file 8 2 3 σ = (Ok tt, σ) ∧
  grow_file 8 3 3 σ
  = (Throw (system_error EINVAL "ftruncate failed"), set_errno EINVAL σ).
Proof.
  cbv zeta.
  set (f := {| st_size := 16; writable := false; size_limit := 2 ^ 40 |}).
  assert (file_ok f) as Hok by (unfold file_ok; cbn; lia).
  assert (fds (one_file 3 f) !! 3 = Some f) as Hf by reflexivity.
  split; [lia|]. split; [exact Hf|]. split; [exact Hok|].
  split; [reflexivity|]. split; [reflexivity|].
  split.
  - exact (grow_file_read_only 8 2 3 (one_file 3 f) f ltac:(lia) Hf Hok
             eq_refl eq_refl).
  - exact (grow_file_read_only 8 3 3 (one_file 3 f) f ltac:(lia) Hf Hok
             eq_refl eq_refl).
Defined.

(** X7. A length that fits [size_t] but that the file cannot have is
    refused: when the file is smaller than asked and [sizeof(T) * new_size]
    exceeds what the file system allows, [grow_file] throws [system_error]
    with [EFBIG], or with [EINVAL] when the product does not even fit
    [off_t], and the file keeps its length. *)
Theorem grow_file_out_of_range (sizeof_T new_size fd : Z) (σ : os) (f : file) :
  0 < sizeof_T →
  fds σ !! fd = Some f → file_ok f → st_size f mod sizeof_T = 0 →
  writable f = true →
  size_limit f < sizeof_T * new_size < 2 ^ 64 →
  grow_file sizeof_T new_size fd σ =
    let e := if decide (sizeof_T * new_size < 2 ^ 63) then EFBIG else EINVAL in
    (Throw (system_error e "ftruncate failed"), set_errno e σ).
Proof.
  intros Hpos Hf Hok Hmod Hw Hrange. unfold grow_file.
  rewrite (file_size_of_whole _ _ _ f) by done.
  destruct Hok as [Hsz Hlim].
  assert (st_size f = sizeof_T * (st_size f / sizeof_T)) as Hexact
    by (apply Z.div_exact; lia).
  destruct (Z.ltb_spec (st_size f / sizeof_T) new_size); [|nia].
  rewrite to_size_t_small by nia.
  unfold ftruncate. rewrite Hf, Hw. cbn [negb].
  unfold to_off_t. rewrite Z.mod_small by nia.
  destruct (decide (sizeof_T * new_size < 2 ^ 63)) as [Hlt|Hge].
  - destruct (Z.ltb_spec (sizeof_T * new_size) (2 ^ 63)); [|lia].
    destruct (Z.ltb_spec (sizeof_T * new_size) 0); [nia|].
    destruct (Z.ltb_spec (size_limit f) (sizeof_T * new_size)); [done|lia].
  - destruct (Z.ltb_spec (sizeof_T * new_size) (2 ^ 63)); [lia|].
    destruct (Z.ltb_spec (sizeof_T * new_size - 2 ^ 64) 0); [done|lia].
Qed.

(** X7 at a file that may hold a kilobyte, asked to hold 2^60 elements. *)
Lemma grow_file_out_of_range_witness :
  let f := {| st_size := 16; writable := true; size_limit := 1024 |} in
  let σ := one_file 3 f in
  0 < 8 ∧ fds σ !! 3 = Some f ∧ file_ok f ∧ st_size f mod 8 = 0 ∧
  writable f = true ∧ size_limit f < 8 * 2 ^ 60 < 2 ^ 64 ∧
  grow_file 8 (2 ^ 60) 3 σ
  = (Throw (system_error EINVAL "ftruncate failed"), set_errno EINVAL σ).
Proof.
  cbv zeta.
  set (f := {| st_size := 16; writable := true; size_limit := 1024 |}).
  assert (file_ok f) as Hok by (unfold file_ok; cbn; lia).
  assert (fds (one_file 3 f) !! 3 = Some f) as Hf by reflexivity.
  assert (size_limit f < 8 * 2 ^ 60 < 2 ^ 64) as Hr by (cbn; lia).
  split; [lia|]. split; [exact Hf|]. split; [exact Hok|].
  split; [reflexivity|]. split; [reflexivity|]. split; [exact Hr|].
  exact (grow_file_out_of_range 8 (2 ^ 60) 3 (one_file 3 f) f ltac:(lia) Hf Hok
           eq_refl eq_refl Hr).
Defined.

(** *** [grow_file] and [file_size] together *)

Lemma file_size_Ok sizeof_T fd σ count σ1 f :
  file_size sizeof_T fd σ = (Ok count, σ1) → fds σ !! fd = Some f →
  to_size_t (st_size f) mod sizeof_T = 0 ∧ count = to_size_t (st_size f) / sizeof_T.
Proof.
  unfold file_size, fstat. intros Hfs Hf. rewrite Hf in Hfs. cbn in Hfs.
  destruct (Z.eqb_spec (to_size_t (st_size f) mod sizeof_T) 0); [|done].
  cbn in Hfs. by injection Hfs as <- _.
Qed.

Lemma grow_file_Ok_size (sizeof_T new_size fd : Z) (σ σ' : os) (f : file) :
  0 < sizeof_T → 0 ≤ new_size → sizeof_T * new_size < 2 ^ 63 →
  fds σ !! fd = Some f → file_ok f →
  grow_file sizeof_T new_size fd σ = (Ok tt, σ') →
  st_size f mod sizeof_T = 0 ∧
  ∃ f', fds σ' !! fd = Some f' ∧
        st_size f' = Z.max (st_size f) (sizeof_T * new_size).
Proof.
  intros Hpos Hn Hfit Hf [Hsz Hlim] Hgrow. unfold grow_file in Hgrow.
  destruct (file_size sizeof_T fd σ) as [[count|e] σ1] eqn:Hfs; [|done].
  destruct (file_size_Ok _ _ _ _ _ _ Hfs Hf) as [Hmod ->].
  apply file_size_Ok_state in Hfs as ->.
  rewrite to_size_t_small in * by lia. split; [done|].
  assert (st_size f = sizeof_T * (st_size f / sizeof_T)) as Hexact
    by (apply Z.div_exact; lia).
  destruct (Z.ltb_spec (st_size f / sizeof_T) new_size) as [Hlt|Hge].
  - rewrite to_size_t_small, to_off_t_small in Hgrow by nia.
    unfold ftruncate in Hgrow. rewrite Hf in Hgrow.
    destruct (negb (writable f)); [done|].
    destruct (Z.ltb_spec (sizeof_T * new_size) 0); [done|].
    destruct (Z.ltb_spec (size_limit f) (sizeof_T * new_size)); [done|].
    cbn in Hgrow. injection Hgrow as <-. cbn [fds].
    rewrite lookup_insert_eq. eexists; split; [done|]. cbn. nia.
  - injection Hgrow as <-. exists f. split; [done|]. nia.
Qed.

(** X8. After a [grow_file] that returned, [file_size] returns the larger of
    the old element count and [new_size], as long as
    [sizeof(T) * new_size] fits [off_t]: the file is large enough to be
    mapped for [new_size] elements. *)
Theorem grow_file_then_file_size (sizeof_T new_size fd : Z) (σ σ' : os)
    (f : file) :
  0 < sizeof_T → 0 ≤ new_size → sizeof_T * new_size < 2 ^ 63 →
  fds σ !! fd = Some f → file_ok f →
  grow_file sizeof_T new_size fd σ = (Ok tt, σ') →
  file_size sizeof_T fd σ'
  = (Ok (Z.max (st_size f / sizeof_T) new_size), σ').
Proof.
  intros Hpos Hn Hfit Hf Hok Hgrow.
  destruct (grow_file_Ok_size _ _ _ _ _ _ Hpos Hn Hfit Hf Hok Hgrow)
    as (Hmod & f' & Hf' & Hst).
  destruct Hok as [Hsz Hlim].
  assert (st_size f = sizeof_T * (st_size f / sizeof_T)) as Hexact
    by (apply Z.div_exact; lia).
  rewrite (file_size_multiple sizeof_T fd σ' (st_size f')).
  - f_equal. f_equal. rewrite Hst.
    destruct (Z.max_spec (st_size f) (sizeof_T * new_size)) as [[? ->]|[? ->]].
    + rewrite Z.mul_comm, Z.div_mul by lia. nia.
    + rewrite Z.max_l; [done|]. nia.
  - apply size_of_file_Some. eauto.
  - rewrite Hst. lia.
  - rewrite Hst.
    destruct (Z.max_spec (st_size f) (sizeof_T * new_size)) as [[? ->]|[? ->]];
      [by rewrite Z.mul_comm, Z.mod_mul by lia | done].
Qed.

(** X8 at the file of 16 bytes, grown to five elements of 8. *)
Lemma grow_file_then_file_size_witness :
  let f := {| st_size := 16; writable := true; size_limit := 2 ^ 40 |} in
  let σ' := (grow_file 8 5 3 two_files).2 in
  0 < 8 ∧ 0 ≤ 5 ∧ 8 * 5 < 2 ^ 63 ∧ fds two_files !! 3 = Some f ∧ file_ok f ∧
  grow_file 8 5 3 two_files = (Ok tt, σ') ∧
  file_size 8 3 σ' = (Ok 5, σ').
Proof.
  cbv zeta.
  set (f := {| st_size := 16; writable := true; size_limit := 2 ^ 40 |}).
  assert (file_ok f) as Hok by (unfold file_ok; cbn; lia).
  assert (fds two_files !! 3 = Some f) as Hf by reflexivity.
  assert (grow_file 8 5 3 two_files = (Ok tt, (grow_file 8 5 3 two_files).2))
    as Hg by reflexivity.
  split; [lia|]. split; [lia|]. split; [lia|]. split; [exact Hf|].
  split; [exact Hok|]. split; [exact Hg|].
  exact (grow_file_then_file_size 8 5 3 two_files _ f ltac:(lia) ltac:(lia)
           ltac:(lia) Hf Hok Hg).
Defined.

(** X9. Two calls of [grow_file] on a writable, well-sized file, in either
    order, leave it at the larger of its old length and the larger request,
    as long as both requests fit the file system's limit. *)
Theorem grow_file_twice_any_order (sizeof_T n m fd : Z) (σ : os) (f : file) :
  0 < sizeof_T →
  fds σ !! fd = Some f → file_ok f → writable f = true →
  st_size f mod sizeof_T = 0 →
  0 ≤ n → 0 ≤ m →
  sizeof_T * n ≤ size_limit f → sizeof_T * m ≤ size_limit f →
  ∃ σ', grow_file_twice sizeof_T n m fd σ = (Ok tt, σ') ∧
        size_of_file fd σ'
        = Some (Z.max (st_size f) (sizeof_T * Z.max n m)).
Proof.
  intros Hpos Hf Hok Hw Hmod Hn Hm Hfn Hfm.
  destruct (grow_file_without_overflow sizeof_T n fd σ f)
    as (σ1 & H1 & Hsz1); try done.
  destruct (grow_file_keeps sizeof_T n fd σ f Hf) as (f1 & Hf1 & Hw1 & Hl1).
  rewrite H1 in Hf1. cbn [snd] in Hf1.
  assert (st_size f1 = Z.max (st_size f) (sizeof_T * n)) as Hst1.
  { unfold size_of_file in Hsz1. rewrite Hf1 in Hsz1. by injection Hsz1. }
  unfold grow_file_twice. rewrite H1.
  destruct (grow_file_without_overflow sizeof_T m fd σ1 f1)
    as (σ2 & H2 & Hsz2); try done; try congruence.
  - destruct Hok. unfold file_ok. rewrite Hst1, Hl1. lia.
  - rewrite Hst1. destruct (Z.max_spec (st_size f) (sizeof_T * n)) as [[_ ->]|[_ ->]];
      [by rewrite Z.mul_comm, Z.mod_mul by lia | done].
  - exists σ2. split; [done|]. rewrite Hsz2, Hst1. f_equal. nia.
Qed.

(** X9 at the file of 16 bytes: five elements, then three. *)
Lemma grow_file_twice_any_order_witness :
  let f := {| st_size := 16; writable := true; size_limit := 2 ^ 40 |} in
  0 < 8 ∧ fds two_files !! 3 = Some f ∧ file_ok f ∧ writable f = true ∧
  st_size f mod 8 = 0 ∧ 0 ≤ 5 ∧ 0 ≤ 3 ∧
  8 * 5 ≤ size_limit f ∧ 8 * 3 ≤ size_limit f ∧
  ∃ σ', grow_file_twice 8 5 3 3 two_files = (Ok tt, σ') ∧
        size_of_file 3 σ' = Some (Z.max (st_size f) (8 * Z.max 5 3)).
Proof.
  cbv zeta.
  set (f := {| st_size := 16; writable := true; size_limit := 2 ^ 40 |}).
  assert (file_ok f) as Hok by (unfold file_ok; cbn; lia).
  assert (fds two_files !! 3 = Some f) as Hf by reflexivity.
  assert (8 * 5 ≤ size_limit f) as H5 by (cbn; lia).
  assert (8 * 3 ≤ size_limit f) as H3 by (cbn; lia).
  split; [lia|]. split; [exact Hf|]. split; [exact Hok|].
  split; [reflexivity|]. split; [reflexivity|]. split; [lia|]. split; [lia|].
  split; [exact H5|]. split; [exact H3|].
  exact (grow_file_twice_any_order 8 5 3 3 two_files f ltac:(lia) Hf Hok
           eq_refl eq_refl ltac:(lia) ltac:(lia) H5 H3).
Defined.

(** *** Pages *)

Lemma lookup_new_pages first count mk k :
  new_pages first count mk !! k
  = if decide (first ≤ k < first + count) then Some (mk (k - first)) else None.
Proof.
  unfold new_pages. destruct (decide _) as [Hin|Hout].
  - apply elem_of_list_to_map.
    + rewrite <- list_fmap_compose.
      apply NoDup_fmap_2_strong; [intros x y _ _ Hxy; cbn in Hxy; lia | apply NoDup_seqZ].
    + apply list_elem_of_fmap. exists (k - first). split; [cbn; f_equal; lia|].
      apply elem_of_seqZ. lia.
  - apply not_elem_of_list_to_map. rewrite <- list_fmap_compose.
    intros (i & -> & Hi%elem_of_seqZ)%list_elem_of_fmap. cbn in Hout. lia.
Qed.

Lemma lookup_without_pages first count m k :
  without_pages first count m !! k
  = if decide (first ≤ k < first + count) then None else m !! k.
Proof.
  unfold without_pages. rewrite map_lookup_filter.
  destruct (m !! k) as [x|]; cbn; [|by destruct (decide _)].
  destruct (decide (first ≤ k < first + count)) as [Hin|Hout].
  - by rewrite option_guard_False by (cbn; tauto).
  - by rewrite option_guard_True.
Qed.

Lemma pages_of_pos len : 0 < len → 0 < pages_of len.
Proof.
  intros. unfold pages_of, PAGE_SIZE. apply Z.div_str_pos. lia.
Qed.

Lemma pages_of_covers len : len ≤ pages_of len * PAGE_SIZE < len + PAGE_SIZE.
Proof.
  unfold pages_of, PAGE_SIZE.
  pose proof (Z.div_mod (len + 4096 - 1) 4096 ltac:(lia)).
  pose proof (Z.mod_pos_bound (len + 4096 - 1) 4096 ltac:(lia)). lia.
Qed.

Lemma page_of_address first len a :
  first * PAGE_SIZE ≤ a < first * PAGE_SIZE + len →
  first ≤ a / PAGE_SIZE < first + pages_of len.
Proof.
  intros Ha. pose proof (pages_of_covers len) as Hc. unfold PAGE_SIZE in *.
  pose proof (Z.div_mod a 4096 ltac:(lia)).
  pose proof (Z.mod_pos_bound a 4096 ltac:(lia)). lia.
Qed.

(** *** What a successful [mmap] has done *)

Lemma mmap_cases gua len write flags fd σ :
  0 ≤ len →
  (∃ e, mmap gua len write flags fd σ = mmap_fails e σ) ∨
  (∃ first,
     0 < len ≤ TASK_SIZE ∧
     gua (mappings σ) (pages_of len) = Some first ∧
     (flags = MAP_SHARED →
        ∃ f, fds (kernel σ) !! fd = Some f ∧ (write = true → writable f = true)) ∧
     mmap gua len write flags fd σ
     = (first * PAGE_SIZE,
        {| kernel := kernel σ;
           mappings := new_pages first (pages_of len) (fresh_page write flags fd)
                         ∪ mappings σ |})).
Proof.
  intros Hlen. unfold mmap.
  destruct flags; cbn [fmap]; [|destruct (fds (kernel σ) !! fd) as [f|] eqn:Hf; cbn];
    try (left; by eexists).
  - destruct (Z.eqb_spec len 0); [left; by eexists|].
    destruct (Z.ltb_spec TASK_SIZE len); [left; by eexists|].
    destruct (gua (mappings σ) (pages_of len)) as [first|] eqn:Hg;
      [|left; by eexists].
    right. exists first. repeat split; try done; lia.
  - destruct (Z.eqb_spec len 0); [left; by eexists|].
    destruct (Z.ltb_spec TASK_SIZE len); [left; by eexists|].
    destruct (gua (mappings σ) (pages_of len)) as [first|] eqn:Hg;
      [|left; by eexists].
    destruct (write && negb (writable f)) eqn:Hw; [left; by eexists|].
    right. exists first. repeat split; try done; try lia.
    intros _. exists f. split; [done|]. intros ->. by destruct (writable f).
Qed.

Lemma page_address_not_MAP_FAILED first : first * PAGE_SIZE ≠ MAP_FAILED.
Proof. unfold PAGE_SIZE, MAP_FAILED. lia. Qed.

Lemma to_size_t_range z : 0 ≤ to_size_t z < 2 ^ 64.
Proof. unfold to_size_t. apply Z.mod_pos_bound. lia. Qed.

Section mappings.

Variable get_unmapped_area : gmap Z page → Z → option Z.
Hypothesis kernel_ok : area_ok get_unmapped_area.
Variable sizeof_T : Z.

#[local] Abbreviation len size := (to_size_t (sizeof_T * size)).

(** What [map] and [map_file] have done when they return an address. *)
Lemma map_Ok size σ addr σ' :
  map get_unmapped_area sizeof_T size σ = (Ok addr, σ') →
  ∃ first,
    0 < len size ≤ TASK_SIZE ∧
    get_unmapped_area (mappings σ) (pages_of (len size)) = Some first ∧
    addr = first * PAGE_SIZE ∧
    σ' = {| kernel := kernel σ;
            mappings := new_pages first (pages_of (len size))
                          (fresh_page true MAP_PRIVATE_ANONYMOUS (-1))
                          ∪ mappings σ |}.
Proof.
  unfold map. intros Hmap.
  destruct (mmap_cases get_unmapped_area (len size) true MAP_PRIVATE_ANONYMOUS
              (-1) σ) as [[e He]|(first & Hl & Hg & _ & He)];
    [apply to_size_t_range| |]; rewrite He in Hmap.
  - unfold mmap_fails in Hmap. by rewrite Z.eqb_refl in Hmap.
  - destruct (Z.eqb_spec (first * PAGE_SIZE) MAP_FAILED) as [Heq|_];
      [by apply page_address_not_MAP_FAILED in Heq|].
    injection Hmap as <- <-. by exists first.
Qed.

Lemma map_file_Ok size fd write σ addr σ' :
  map_file get_unmapped_area sizeof_T size fd write σ = (Ok addr, σ') →
  ∃ first f,
    0 < len size ≤ TASK_SIZE ∧
    get_unmapped_area (mappings σ) (pages_of (len size)) = Some first ∧
    fds (kernel σ) !! fd = Some f ∧ (write = true → writable f = true) ∧
    addr = first * PAGE_SIZE ∧
    σ' = {| kernel := kernel σ;
            mappings := new_pages first (pages_of (len size))
                          (fresh_page write MAP_SHARED fd)
                          ∪ mappings σ |}.
Proof.
  unfold map_file. intros Hmap.
  destruct (mmap_cases get_unmapped_area (len size) write MAP_SHARED fd σ)
    as [[e He]|(first & Hl & Hg & Hf & He)];
    [apply to_size_t_range| |]; rewrite He in Hmap.
  - unfold mmap_fails in Hmap. by rewrite Z.eqb_refl in Hmap.
  - destruct (Z.eqb_spec (first * PAGE_SIZE) MAP_FAILED) as [Heq|_];
      [by apply page_address_not_MAP_FAILED in Heq|].
    injection Hmap as <- <-. destruct (Hf eq_refl) as (f & Hfd & Hw).
    by exists first, f.
Qed.

Lemma map_Throw size σ e σ' :
  map get_unmapped_area sizeof_T size σ = (Throw e, σ') →
  mappings σ' = mappings σ ∧ fds (kernel σ') = fds (kernel σ) ∧
  ∃ code, e = system_error code "mmap failed".
Proof.
  unfold map. intros Hmap.
  destruct (mmap_cases get_unmapped_area (len size) true MAP_PRIVATE_ANONYMOUS
              (-1) σ) as [[c He]|(first & _ & _ & _ & He)];
    [apply to_size_t_range| |]; rewrite He in Hmap.
  - unfold mmap_fails in Hmap. rewrite Z.eqb_refl in Hmap.
    injection Hmap as <- <-. cbn. eauto.
  - destruct (Z.eqb_spec (first * PAGE_SIZE) MAP_FAILED) as [Heq|_];
      [by apply page_address_not_MAP_FAILED in Heq|done].
Qed.

(** The pages of a fresh mapping were free before. *)
Lemma fresh_pages_over_old first n mk m k :
  (∀ i, 0 ≤ i < n → m !! (first + i) = None) →
  (new_pages first n mk ∪ m) !! k
  = if decide (first ≤ k < first + n) then Some (mk (k - first)) else m !! k.
Proof.
  intros Hfree. destruct (decide _) as [Hin|Hout].
  - apply lookup_union_Some_l. by rewrite lookup_new_pages, decide_True.
  - rewrite lookup_union_r; [done|]. by rewrite lookup_new_pages, decide_False.
Qed.

End mappings.

(** The kernel of the examples hands out free pages only. *)
Lemma above_all_ok : area_ok above_all.
Proof.
  intros m n first. unfold above_all.
  assert (16 ≤ map_fold (λ k (_ : page) acc, Z.max (k + 1) acc) 16 m ∧
          ∀ k x, m !! k = Some x →
                 k + 1 ≤ map_fold (λ k (_ : page) acc, Z.max (k + 1) acc) 16 m)
    as [Hlow Hkeys].
  { apply (map_fold_weak_ind
             (λ r m, 16 ≤ r ∧ ∀ k (x : page), m !! k = Some x → k + 1 ≤ r)).
    - split; [done|]. intros k x. by rewrite lookup_empty.
    - intros i x m' r Hi [Hr Hm]. split; [lia|].
      intros k y. destruct (decide (k = i)) as [->|Hne].
      + intros _. lia.
      + rewrite lookup_insert_ne by done. intros Hk%Hm. lia. }
  destruct (Z.leb_spec ((1 + map_fold (λ k (_ : page) acc, Z.max (k + 1) acc) 16 m
                         + n) * PAGE_SIZE) TASK_SIZE); [|done].
  intros [= <-]. split; [lia|]. split; [done|].
  intros i Hi. destruct (m !! _) as [x|] eqn:Hx; [|done].
  apply Hkeys in Hx. lia.
Qed.

(** X10. A mapping that [map] returns covers its elements: when
    [sizeof(T) * size] does not wrap around, every byte of the [size]
    elements from the returned address on lies in a page that is mapped
    private, anonymous and writable and that was free before; the address is
    page-aligned and not null; what was mapped before stays mapped as it
    was, and no file is touched. *)
Theorem map_covers_its_elements
    (get_unmapped_area : gmap Z page → Z → option Z)
    (sizeof_T size : Z) (σ σ' : machine) (addr : Z) :
  area_ok get_unmapped_area →
  0 < sizeof_T → 0 ≤ size → sizeof_T * size < 2 ^ 64 →
  map get_unmapped_area sizeof_T size σ = (Ok addr, σ') →
  0 < size ∧ 0 < addr ∧ addr mod PAGE_SIZE = 0 ∧
  addr + sizeof_T * size ≤ TASK_SIZE ∧
  (∀ a, addr ≤ a < addr + sizeof_T * size →
     page_at a σ = None ∧
     page_at a σ' = Some {| page_write := true; page_shared := false;
                            page_back := Anonymous |}) ∧
  (∀ k pg, mappings σ !! k = Some pg → mappings σ' !! k = Some pg) ∧
  kernel σ' = kernel σ.
Proof.
  intros Hk Hpos Hsize Hfit Hmap.
  destruct (map_Ok _ _ _ _ _ _ Hmap) as (first & Hlen & Hg & -> & ->).
  rewrite to_size_t_small in * by nia.
  destruct (Hk _ _ _ Hg) as (Hfirst & Htop & Hfree).
  pose proof (pages_of_covers (sizeof_T * size)) as Hcover.
  split; [nia|]. split; [unfold PAGE_SIZE; lia|].
  split; [apply Z.mod_mul; unfold PAGE_SIZE; lia|].
  split; [lia|]. split; [|split; [|done]].
  - intros a Ha. apply page_of_address in Ha.
    unfold page_at. cbn [mappings].
    rewrite (fresh_pages_over_old _ _ _ _ _ Hfree), decide_True by done.
    split; [|done].
    replace (a / PAGE_SIZE) with (first + (a / PAGE_SIZE - first)) by lia.
    apply Hfree. lia.
  - intros k pg Hkpg. cbn [mappings].
    rewrite (fresh_pages_over_old _ _ _ _ _ Hfree).
    destruct (decide (first ≤ k < first + _)) as [Hin|]; [|done].
    replace k with (first + (k - first)) in Hkpg by lia.
    rewrite Hfree in Hkpg by lia. done.
Qed.

(** X10 at four elements of 8 bytes in an empty address space. *)
Lemma map_covers_its_elements_witness :
  area_ok above_all ∧ 0 < 8 ∧ 0 ≤ 4 ∧ 8 * 4 < 2 ^ 64 ∧
  (map above_all 8 4 empty_machine).1 = Ok 69632 ∧
  page_at (69632 + 31) (map above_all 8 4 empty_machine).2
  = Some {| page_write := true; page_shared := false; page_back := Anonymous |}.
Proof.
  assert (map above_all 8 4 empty_machine
          = (Ok 69632, (map above_all 8 4 empty_machine).2)) as Hmap
    by (vm_compute; reflexivity).
  split; [exact above_all_ok|]. split; [lia|]. split; [lia|]. split; [lia|].
  split; [by rewrite Hmap|].
  destruct (map_covers_its_elements above_all 8 4 empty_machine _ 69632
              above_all_ok ltac:(lia) ltac:(lia) ltac:(lia) Hmap)
    as (_ & _ & _ & _ & Hin & _).
  apply Hin. lia.
Defined.

(** X11. [map] of nothing fails: when [sizeof(T) * size] is zero in
    [size_t], as for [size = 0] and whenever the product wraps around to
    zero, [mmap] refuses the length and [map] throws [system_error] with
    [EINVAL]; nothing is mapped. *)
Theorem map_of_nothing_fails
    (get_unmapped_area : gmap Z page → Z → option Z)
    (sizeof_T size : Z) (σ : machine) :
  to_size_t (sizeof_T * size) = 0 →
  map get_unmapped_area sizeof_T size σ
  = (Throw (system_error EINVAL "mmap failed"),
     {| kernel := set_errno EINVAL (kernel σ); mappings := mappings σ |}).
Proof. intros Hz. unfold map, mmap. by rewrite Hz. Qed.

(** X11 for no elements, and for 2^61 elements of 8 bytes. *)
Lemma map_of_nothing_fails_witness :
  to_size_t (8 * 0) = 0 ∧
  (map above_all 8 0 empty_machine).1
  = Throw (system_error EINVAL "mmap failed") ∧
  (map above_all 8 (2 ^ 61) empty_machine).1
  = Throw (system_error EINVAL "mmap failed").
Proof.
  split; [reflexivity|]. split.
  - by rewrite (map_of_nothing_fails above_all 8 0 empty_machine eq_refl).
  - by rewrite (map_of_nothing_fails above_all 8 (2 ^ 61) empty_machine eq_refl).
Defined.

(** *** Unmapping *)

Lemma munmap_Ok addr n σ :
  addr mod PAGE_SIZE = 0 → addr ≤ TASK_SIZE → n ≤ TASK_SIZE - addr →
  0 < n →
  munmap addr n σ
  = (0, {| kernel := kernel σ;
           mappings := without_pages (addr / PAGE_SIZE) (pages_of n)
                         (mappings σ) |}).
Proof.
  intros Hal Htop Hlen Hn. unfold munmap. rewrite Hal. cbn [Z.eqb negb orb].
  destruct (Z.ltb_spec TASK_SIZE addr); [lia|].
  destruct (Z.ltb_spec (TASK_SIZE - addr) n); [lia|].
  pose proof (pages_of_pos n Hn).
  destruct (Z.eqb_spec (pages_of n) 0); [lia|]. done.
Qed.

Lemma unmap_cases sizeof_T data size σ :
  (unmap sizeof_T data size σ
   = (Throw (system_error EINVAL "munmap failed"),
      {| kernel := set_errno EINVAL (kernel σ); mappings := mappings σ |})) ∨
  (data mod PAGE_SIZE = 0 ∧ 0 < to_size_t (sizeof_T * size) ∧
   unmap sizeof_T data size σ
   = (Ok tt, {| kernel := kernel σ;
                mappings := without_pages (data / PAGE_SIZE)
                              (pages_of (to_size_t (sizeof_T * size)))
                              (mappings σ) |})).
Proof.
  unfold unmap, munmap.
  destruct (negb (data mod PAGE_SIZE =? 0) || (TASK_SIZE <? data)
            || (TASK_SIZE - data <? to_size_t (sizeof_T * size))
            || (pages_of (to_size_t (sizeof_T * size)) =? 0)) eqn:Hc;
    [by left|right].
  repeat (apply orb_false_elim in Hc as [Hc ?]).
  apply negb_false_iff, Z.eqb_eq in Hc.
  split; [done|]. split; [|done].
  pose proof (to_size_t_range (sizeof_T * size)).
  destruct (decide (to_size_t (sizeof_T * size) = 0)) as [Hz|]; [|lia].
  rewrite Hz in *. done.
Qed.

Lemma machine_eta σ : {| kernel := kernel σ; mappings := mappings σ |} = σ.
Proof. by destruct σ. Qed.

(** X12. [unmap] undoes [map]: called with the address [map] returned and
    the same [size], it returns normally and the address space and the files
    are exactly as before the [map], also when the byte count wrapped
    around, since both compute it the same way. *)
Theorem unmap_after_map
    (get_unmapped_area : gmap Z page → Z → option Z)
    (sizeof_T size : Z) (σ σ' : machine) (addr : Z) :
  area_ok get_unmapped_area →
  map get_unmapped_area sizeof_T size σ = (Ok addr, σ') →
  unmap sizeof_T addr size σ' = (Ok tt, σ).
Proof.
  intros Hk Hmap.
  destruct (map_Ok _ _ _ _ _ _ Hmap) as (first & Hlen & Hg & -> & ->).
  destruct (Hk _ _ _ Hg) as (Hfirst & Htop & Hfree).
  pose proof (pages_of_covers (to_size_t (sizeof_T * size))) as Hcover.
  unfold unmap. rewrite munmap_Ok; cbn [kernel mappings]; try lia.
  2:{ apply Z.mod_mul. unfold PAGE_SIZE. lia. }
  cbn [Z.eqb negb]. f_equal. rewrite <- (machine_eta σ) at 3. f_equal.
  rewrite Z.div_mul by (unfold PAGE_SIZE; lia).
  apply map_eq. intros k.
  rewrite lookup_without_pages, (fresh_pages_over_old _ _ _ _ _ Hfree).
  destruct (decide _) as [Hin|]; [|done].
  replace k with (first + (k - first)) by lia. symmetry. apply Hfree. lia.
Qed.

(** X12 at four elements of 8 bytes. *)
Lemma unmap_after_map_witness :
  area_ok above_all ∧
  (map above_all 8 4 empty_machine).1 = Ok 69632 ∧
  unmap 8 69632 4 (map above_all 8 4 empty_machine).2 = (Ok tt, empty_machine).
Proof.
  assert (map above_all 8 4 empty_machine
          = (Ok 69632, (map above_all 8 4 empty_machine).2)) as Hmap
    by (vm_compute; reflexivity).
  split; [exact above_all_ok|]. split; [by rewrite Hmap|].
  exact (unmap_after_map above_all 8 4 empty_machine _ 69632 above_all_ok Hmap).
Defined.

(** X13. [unmap] throws [system_error] with [EINVAL], and unmaps nothing,
    when the byte count [sizeof(T) * size] is zero in [size_t] or the
    pointer is not page-aligned. *)
Theorem unmap_rejects (sizeof_T data size : Z) (σ : machine) :
  to_size_t (sizeof_T * size) = 0 ∨ data mod PAGE_SIZE ≠ 0 →
  unmap sizeof_T data size σ
  = (Throw (system_error EINVAL "munmap failed"),
     {| kernel := set_errno EINVAL (kernel σ); mappings := mappings σ |}).
Proof.
  intros Hbad. destruct (unmap_cases sizeof_T data size σ) as [H|(Hal & Hn & _)];
    [done|]. destruct Hbad; [lia|done].
Qed.

(** X13 for no elements at a mapped address, and for an address inside a
    page. *)
Lemma unmap_rejects_witness :
  (to_size_t (8 * 0) = 0 ∨ 69632 mod PAGE_SIZE ≠ 0) ∧
  (unmap 8 69632 0 (map above_all 8 4 empty_machine).2).1
  = Throw (system_error EINVAL "munmap failed") ∧
  (unmap 8 69640 4 (map above_all 8 4 empty_machine).2).1
  = Throw (system_error EINVAL "munmap failed").
Proof.
  assert (to_size_t (8 * 0) = 0 ∨ 69632 mod PAGE_SIZE ≠ 0) as H0
    by (left; reflexivity).
  assert (to_size_t (8 * 4) = 0 ∨ 69640 mod PAGE_SIZE ≠ 0) as H1
    by (right; vm_compute; discriminate).
  split; [exact H0|]. split.
  - by rewrite (unmap_rejects 8 69632 0 _ H0).
  - by rewrite (unmap_rejects 8 69640 4 _ H1).
Defined.

(** X14. [unmap] does not notice that nothing is mapped: after an [unmap]
    that returned, the same call returns again and changes nothing, and no
    byte of the range is mapped any more. *)
Theorem unmap_twice (sizeof_T data size : Z) (σ σ' : machine) :
  unmap sizeof_T data size σ = (Ok tt, σ') →
  unmap sizeof_T data size σ' = (Ok tt, σ') ∧
  ∀ a, data ≤ a < data + to_size_t (sizeof_T * size) → page_at a σ' = None.
Proof.
  intros Hun.
  destruct (unmap_cases sizeof_T data size σ) as [H|(Hal & Hn & H)];
    rewrite H in Hun; [done|]. injection Hun as <-.
  split.
  - destruct (unmap_cases sizeof_T data size
                {| kernel := kernel σ;
                   mappings := without_pages (data / PAGE_SIZE)
                                 (pages_of (to_size_t (sizeof_T * size)))
                                 (mappings σ) |}) as [H'|(_ & _ & H')].
    + unfold unmap, munmap in H, H'. cbn [kernel mappings] in H'.
      destruct (negb _ || _ || _ || _); [done|]. done.
    + rewrite H'. cbn [kernel mappings]. do 2 f_equal.
      apply map_eq. intros k. rewrite !lookup_without_pages.
      by destruct (decide _).
  - intros a Ha. unfold page_at. cbn [mappings].
    rewrite lookup_without_pages, decide_True; [done|].
    apply page_of_address.
    pose proof (Z.div_exact data PAGE_SIZE ltac:(unfold PAGE_SIZE; lia)) as [_ Hex].
    specialize (Hex Hal). lia.
Qed.

(** X14 at four elements of 8 bytes. *)
Lemma unmap_twice_witness :
  let σ1 := (map above_all 8 4 empty_machine).2 in
  unmap 8 69632 4 σ1 = (Ok tt, empty_machine) ∧
  unmap 8 69632 4 empty_machine = (Ok tt, empty_machine).
Proof.
  cbv zeta.
  assert (unmap 8 69632 4 (map above_all 8 4 empty_machine).2
          = (Ok tt, empty_machine)) as H1 by (vm_compute; reflexivity).
  split; [exact H1|].
  exact (proj1 (unmap_twice 8 69632 4 _ empty_machine H1)).
Defined.

(** *** Mapping files *)

Lemma map_file_Throw gua sizeof_T size fd write σ e :
  mmap gua (to_size_t (sizeof_T * size)) write MAP_SHARED fd σ = mmap_fails e σ →
  map_file gua sizeof_T size fd write σ
  = (Throw (system_error e "mmap failed"),
     {| kernel := set_errno e (kernel σ); mappings := mappings σ |}).
Proof. intros H. unfold map_file. rewrite H. unfold mmap_fails. by rewrite Z.eqb_refl. Qed.

Lemma page_index first a :
  (a - first * PAGE_SIZE) / PAGE_SIZE = a / PAGE_SIZE - first ∧
  (a / PAGE_SIZE - first) * PAGE_SIZE + a mod PAGE_SIZE = a - first * PAGE_SIZE.
Proof.
  unfold PAGE_SIZE.
  replace (a - first * 4096) with (a + (- first) * 4096) by lia.
  rewrite Z.div_add by lia.
  pose proof (Z.div_mod a 4096 ltac:(lia)). lia.
Qed.

(** X15. [map(size, fd, write)] goes by the descriptor: on a descriptor
    that is not open it throws [system_error] with [EBADF]; asked for a
    writable mapping of a file opened read-only it throws and maps nothing;
    and when it returns, the bytes of the [size] elements lie in shared
    pages backed by consecutive pages of that file from its start, writable
    exactly when [write] was asked for. *)
Theorem map_file_goes_by_the_descriptor
    (get_unmapped_area : gmap Z page → Z → option Z)
    (sizeof_T size fd : Z) (write : bool) (σ : machine) :
  area_ok get_unmapped_area →
  0 < sizeof_T → 0 ≤ size → sizeof_T * size < 2 ^ 64 →
  (fds (kernel σ) !! fd = None →
     map_file get_unmapped_area sizeof_T size fd write σ
     = (Throw (system_error EBADF "mmap failed"),
        {| kernel := set_errno EBADF (kernel σ); mappings := mappings σ |})) ∧
  (∀ f, fds (kernel σ) !! fd = Some f → writable f = false → write = true →
     ∃ code,
       map_file get_unmapped_area sizeof_T size fd write σ
       = (Throw (system_error code "mmap failed"),
          {| kernel := set_errno code (kernel σ); mappings := mappings σ |})) ∧
  (∀ addr σ',
     map_file get_unmapped_area sizeof_T size fd write σ = (Ok addr, σ') →
     addr mod PAGE_SIZE = 0 ∧ kernel σ' = kernel σ ∧
     ∀ a, addr ≤ a < addr + sizeof_T * size →
       page_at a σ'
       = Some {| page_write := write; page_shared := true;
                 page_back := FileBacked fd ((a - addr) / PAGE_SIZE) |}).
Proof.
  intros Hk Hpos Hsize Hfit. split; [|split].
  - intros Hfd. apply map_file_Throw. unfold mmap. by rewrite Hfd.
  - intros f Hf Hw ->.
    destruct (mmap_cases get_unmapped_area (to_size_t (sizeof_T * size)) true
                MAP_SHARED fd σ) as [[e He]|(first & _ & _ & Hacc & _)];
      [apply to_size_t_range| |].
    + exists e. by apply map_file_Throw.
    + destruct (Hacc eq_refl) as (f' & Hf' & Hw'). rewrite Hf in Hf'.
      injection Hf' as <-. rewrite Hw in Hw'. by specialize (Hw' eq_refl).
  - intros addr σ' Hmap.
    destruct (map_file_Ok _ _ _ _ _ _ _ _ Hmap)
      as (first & f & Hlen & Hg & Hf & Hw & -> & ->).
    rewrite to_size_t_small in * by nia.
    destruct (Hk _ _ _ Hg) as (Hfirst & Htop & Hfree).
    split; [apply Z.mod_mul; unfold PAGE_SIZE; lia|]. split; [done|].
    intros a Ha. pose proof (page_index first a) as [-> _].
    apply page_of_address in Ha. unfold page_at. cbn [mappings].
    by rewrite (fresh_pages_over_old _ _ _ _ _ Hfree), decide_True.
Qed.

(** X15 at the 16-byte file of the examples, mapped read-only. *)
Lemma map_file_goes_by_the_descriptor_witness :
  area_ok above_all ∧ 0 < 8 ∧ 0 ≤ 2 ∧ 8 * 2 < 2 ^ 64 ∧
  (map_file above_all 8 2 3 false empty_machine).1 = Ok 69632 ∧
  page_at 69640 (map_file above_all 8 2 3 false empty_machine).2
  = Some {| page_write := false; page_shared := true;
            page_back := FileBacked 3 ((69640 - 69632) / PAGE_SIZE) |} ∧
  (map_file above_all 8 2 7 false empty_machine).1
  = Throw (system_error EBADF "mmap failed").
Proof.
  assert (map_file above_all 8 2 3 false empty_machine
          = (Ok 69632, (map_file above_all 8 2 3 false empty_machine).2)) as Hmap
    by (vm_compute; reflexivity).
  destruct (map_file_goes_by_the_descriptor above_all 8 2 3 false empty_machine
              above_all_ok ltac:(lia) ltac:(lia) ltac:(lia)) as (_ & _ & Hok).
  destruct (map_file_goes_by_the_descriptor above_all 8 2 7 false empty_machine
              above_all_ok ltac:(lia) ltac:(lia) ltac:(lia)) as (Hbad & _ & _).
  split; [exact above_all_ok|]. split; [lia|]. split; [lia|]. split; [lia|].
  split; [by rewrite Hmap|]. split.
  - destruct (Hok _ _ Hmap) as (_ & _ & Hin). apply Hin. lia.
  - by rewrite Hbad.
Defined.

(** X16. Growing, then mapping: after [grow_file(size, fd)] has returned,
    a mapping that [map(size, fd, write)] returns lies wholly inside the
    file: every byte of the [size] elements is backed by a byte of the file
    at an offset below the file's length.  ([sizeof(T) * size] must fit
    [off_t].) *)
Theorem grow_file_then_map_file
    (get_unmapped_area : gmap Z page → Z → option Z)
    (sizeof_T size fd : Z) (write : bool) (σ σ1 σ2 : machine) (f : file)
    (addr : Z) :
  area_ok get_unmapped_area →
  0 < sizeof_T → 0 ≤ size → sizeof_T * size < 2 ^ 63 →
  fds (kernel σ) !! fd = Some f → file_ok f →
  in_kernel (grow_file sizeof_T size fd) σ = (Ok tt, σ1) →
  map_file get_unmapped_area sizeof_T size fd write σ1 = (Ok addr, σ2) →
  ∀ a, addr ≤ a < addr + sizeof_T * size →
    ∃ f' i,
      fds (kernel σ2) !! fd = Some f' ∧
      page_at a σ2 = Some {| page_write := write; page_shared := true;
                             page_back := FileBacked fd i |} ∧
      i * PAGE_SIZE + a mod PAGE_SIZE = a - addr ∧
      0 ≤ a - addr < st_size f'.
Proof.
  intros Hk Hpos Hsize Hfit Hf Hok Hgrow Hmap a Ha.
  unfold in_kernel in Hgrow.
  destruct (grow_file sizeof_T size fd (kernel σ)) as [r k1] eqn:Hg.
  injection Hgrow as -> <-.
  destruct (grow_file_Ok_size _ _ _ _ _ _ Hpos Hsize Hfit Hf Hok Hg)
    as (_ & f' & Hf' & Hst).
  destruct (map_file_Ok _ _ _ _ _ _ _ _ Hmap)
    as (first & f'' & Hlen & Hgua & _ & _ & -> & ->).
  cbn [kernel mappings] in *.
  rewrite to_size_t_small in * by nia.
  destruct (Hk _ _ _ Hgua) as (Hfirst & Htop & Hfree).
  exists f', (a / PAGE_SIZE - first).
  pose proof (page_index first a) as [_ Hoff].
  split; [done|]. split; [|split; [done|lia]].
  apply page_of_address in Ha. unfold page_at. cbn [mappings].
  by rewrite (fresh_pages_over_old _ _ _ _ _ Hfree), decide_True.
Qed.

(** X16 at the 16-byte file, grown to 1000 elements of 8 bytes and mapped
    for writing. *)
Lemma grow_file_then_map_file_witness :
  let f := {| st_size := 16; writable := true; size_limit := 2 ^ 40 |} in
  let σ1 := (in_kernel (grow_file 8 1000 3) empty_machine).2 in
  let σ2 := (map_file above_all 8 1000 3 true σ1).2 in
  area_ok above_all ∧ 0 < 8 ∧ 0 ≤ 1000 ∧ 8 * 1000 < 2 ^ 63 ∧
  fds (kernel empty_machine) !! 3 = Some f ∧ file_ok f ∧
  in_kernel (grow_file 8 1000 3) empty_machine = (Ok tt, σ1) ∧
  map_file above_all 8 1000 3 true σ1 = (Ok 69632, σ2) ∧
  ∃ f' i, fds (kernel σ2) !! 3 = Some f' ∧
          page_at (69632 + 7999) σ2
          = Some {| page_write := true; page_shared := true;
                    page_back := FileBacked 3 i |} ∧
          i * PAGE_SIZE + (69632 + 7999) mod PAGE_SIZE = 69632 + 7999 - 69632 ∧
          0 ≤ 69632 + 7999 - 69632 < st_size f'.
Proof.
  cbv zeta.
  set (f := {| st_size := 16; writable := true; size_limit := 2 ^ 40 |}).
  assert (file_ok f) as Hok by (unfold file_ok; cbn; lia).
  assert (fds (kernel empty_machine) !! 3 = Some f) as Hf by reflexivity.
  assert (in_kernel (grow_file 8 1000 3) empty_machine
          = (Ok tt, (in_kernel (grow_file 8 1000 3) empty_machine).2)) as Hg
    by (vm_compute; reflexivity).
  assert (map_file above_all 8 1000 3 true
            (in_kernel (grow_file 8 1000 3) empty_machine).2
          = (Ok 69632,
             (map_file above_all 8 1000 3 true
                (in_kernel (grow_file 8 1000 3) empty_machine).2).2)) as Hm
    by (vm_compute; reflexivity).
  split; [exact above_all_ok|]. split; [lia|]. split; [lia|]. split; [lia|].
  split; [exact Hf|]. split; [exact Hok|]. split; [exact Hg|]. split; [exact Hm|].
  apply (grow_file_then_map_file above_all 8 1000 3 true empty_machine _ _ f
           69632 above_all_ok ltac:(lia) ltac:(lia) ltac:(lia) Hf Hok Hg Hm).
  lia.
Defined.

End TypedMmapFacts.

(** ** Reporting area problems through OGR: schema, frame and exceptions *)

Module ProblemReporterOGRFacts.

Import ProblemReporterOGR ProblemReporterOGRSpec.
Open Scope Z_scope.

Ltac in_list := by repeat first [apply list_elem_of_here | apply list_elem_of_further].

Section reporter.

Context `{Collaborators}.

(** *** Every report is made of the four builders *)

Lemma write_point_builds P problem_type a b loc :
  (∀ r g, P (m_object_id r) (point_feature r g problem_type a b)) →
  steps P (write_point problem_type a b loc).
Proof.
  intros HP. unfold write_point. apply steps_lift. intros g _.
  apply (steps_this_add P (λ r, point_feature r g problem_type a b)).
  intros r. apply HP.
Qed.

Lemma write_line_builds P problem_type a b loc1 loc2 :
  (∀ r p1 p2, P (m_object_id r) (line_feature r p1 p2 problem_type a b)) →
  steps P (write_line problem_type a b loc1 loc2).
Proof.
  intros HP. unfold write_line. apply steps_lift. intros p1 _.
  apply steps_lift. intros p2 _.
  apply (steps_this_add P (λ r, line_feature r p1 p2 problem_type a b)).
  intros r. apply HP.
Qed.

Lemma write_way_problem_builds P problem_type w :
  (∀ r g, P (m_object_id r) (way_problem_feature r g problem_type w)) →
  steps P (write_way_problem problem_type w).
Proof.
  intros HP. unfold write_way_problem.
  destruct (decide _); [apply steps_ret|].
  apply steps_try, steps_lift. intros g _.
  apply (steps_this_add P (λ r, way_problem_feature r g problem_type w)).
  intros r. apply HP.
Qed.

Lemma run_report_builds (P : Z → feature coordinate → Prop) :
  (∀ r g p a b, p ∈ problem_labels → P (m_object_id r) (point_feature r g p a b)) →
  (∀ r p1 p2 p a b, p ∈ problem_labels →
     P (m_object_id r) (line_feature r p1 p2 p a b)) →
  (∀ r g p w, p ∈ problem_labels →
     P (m_object_id r) (way_problem_feature r g p w)) →
  (∀ r g w, P (m_object_id r) (way_feature r g w)) →
  ∀ c, steps P (run_report c).
Proof.
  intros Hpt Hln Hwp Hw c.
  assert (∀ p a b loc, p ∈ problem_labels → steps P (write_point p a b loc)) as Hpoint.
  { intros. apply write_point_builds. intros. by apply Hpt. }
  assert (∀ p a b l1 l2, p ∈ problem_labels → steps P (write_line p a b l1 l2))
    as Hline.
  { intros. apply write_line_builds. intros. by apply Hln. }
  assert (∀ p w, p ∈ problem_labels → steps P (write_way_problem p w)) as Hway.
  { intros. apply write_way_problem_builds. intros. by apply Hwp. }
  destruct c; cbn [run_report].
  - apply Hpoint. unfold problem_labels. in_list.
  - apply Hpoint. unfold problem_labels. in_list.
  - unfold report_intersection.
    apply steps_bind; [|intros _; apply steps_bind; [|intros _]].
    + apply Hpoint. unfold problem_labels. in_list.
    + apply Hline. unfold problem_labels. in_list.
    + apply Hline. unfold problem_labels. in_list.
  - apply Hline. unfold problem_labels. in_list.
  - apply Hline. unfold problem_labels. in_list.
  - apply Hpoint. unfold problem_labels. in_list.
  - apply Hline. unfold problem_labels. in_list.
  - apply Hline. unfold problem_labels. in_list.
  - apply Hway. unfold problem_labels. in_list.
  - apply Hway. unfold problem_labels. in_list.
  - apply Hway. unfold problem_labels. in_list.
  - unfold report_way. destruct (nodes way) as [|n [|n' ns]].
    + apply steps_ret.
    + apply Hpoint. unfold problem_labels. in_list.
    + apply steps_try, steps_lift. intros g _.
      apply (steps_this_add P (λ r, way_feature r g way)). intros r. apply Hw.
Qed.

(** *** Steps that keep a relation *)

Section keeps.

Variable R : reporter → reporter → Prop.
Hypothesis R_refl : ∀ r, R r r.
Hypothesis R_trans : ∀ r1 r2 r3, R r1 r2 → R r2 r3 → R r1 r3.
Hypothesis R_add : ∀ f r, R r (add_to_layer f r).2.

Lemma keeps_ret {A} (a : A) : keeps R (mret a : M A).
Proof. intros r. apply R_refl. Qed.

Lemma keeps_bind {A B} (c : M A) (k : A → M B) :
  keeps R c → (∀ a, keeps R (k a)) → keeps R (c ≫= k).
Proof.
  intros Hc Hk r. unfold mbind, M_bind, bind.
  specialize (Hc r). destruct (c r) as [[a|e] r1]; cbn [snd] in *; [|done].
  eapply R_trans; [exact Hc | apply Hk].
Qed.

Lemma keeps_lift {A B} (x : result A) (k : A → M B) :
  (∀ a, keeps R (k a)) → keeps R (lift x ≫= k).
Proof.
  intros Hk r. unfold mbind, M_bind, bind, lift.
  destruct x as [a|e]; cbn [snd]; [apply Hk | apply R_refl].
Qed.

Lemma keeps_this {B} (k : reporter → M B) :
  (∀ r, keeps R (k r)) → keeps R (this ≫= k).
Proof. intros Hk r. unfold mbind, M_bind, bind, this. apply Hk. Qed.

Lemma keeps_add f : keeps R (add_to_layer f).
Proof. intros r. apply R_add. Qed.

Lemma keeps_try (body : M unit) :
  keeps R body → keeps R (try_catch_geometry_error body).
Proof.
  intros Hb r. specialize (Hb r). unfold try_catch_geometry_error.
  by destruct (body r) as [[[]|[]] r1].
Qed.

Lemma keeps_write_point p a b loc : keeps R (write_point p a b loc).
Proof.
  unfold write_point. apply keeps_lift. intros g. apply keeps_this. intros r.
  apply keeps_add.
Qed.

Lemma keeps_write_line p a b l1 l2 : keeps R (write_line p a b l1 l2).
Proof.
  unfold write_line. apply keeps_lift. intros p1. apply keeps_lift. intros p2.
  apply keeps_this. intros r. apply keeps_add.
Qed.

Lemma keeps_write_way_problem p w : keeps R (write_way_problem p w).
Proof.
  unfold write_way_problem. destruct (decide _); [apply keeps_ret|].
  apply keeps_try, keeps_lift. intros g. apply keeps_this. intros r.
  apply keeps_add.
Qed.

Lemma keeps_run_report c : keeps R (run_report c).
Proof.
  destruct c; cbn [run_report];
    try apply keeps_write_point; try apply keeps_write_line;
    try apply keeps_write_way_problem.
  - unfold report_intersection.
    apply keeps_bind; [apply keeps_write_point|intros _].
    apply keeps_bind; [apply keeps_write_line|intros _]. apply keeps_write_line.
  - unfold report_way. destruct (nodes way) as [|n [|n' ns]].
    + apply keeps_ret.
    + apply keeps_write_point.
    + apply keeps_try, keeps_lift. intros g. apply keeps_this. intros r.
      apply keeps_add.
Qed.

Lemma keeps_run_reports cs : keeps R (run_reports cs).
Proof.
  induction cs as [|c cs IH]; cbn [run_reports]; [apply keeps_ret|].
  apply keeps_bind; [apply keeps_run_report | intros _; apply IH].
Qed.

End keeps.

Lemma frame_refl r : frame r r.
Proof. by repeat split. Qed.

Lemma frame_trans r1 r2 r3 : frame r1 r2 → frame r2 r3 → frame r1 r3.
Proof.
  intros (Hs1 & Hp1 & ? & ? & ?) (Hs2 & Hp2 & ? & ? & ?).
  split; [|split; [|repeat split; congruence]].
  - intros l. destruct (Hs1 l) as (? & ? & ?), (Hs2 l) as (? & ? & ?).
    repeat split; congruence.
  - intros l. etrans; [apply Hp1 | apply Hp2].
Qed.

Lemma frame_add f r : frame r (add_to_layer f r).2.
Proof.
  unfold add_to_layer. destruct (create_feature_ok f); cbn [snd];
    [|apply frame_refl].
  split; [|split; [|done]].
  - intros l. rewrite get_set_layer. by destruct (decide _) as [->|].
  - intros l. rewrite get_set_layer. destruct (decide _) as [->|]; [|done].
    cbn. by apply prefix_app_r.
Qed.

End reporter.

(** X17. Reporting only ever appends: whatever reports are run, and
    whether the run ends normally or in an exception, every layer keeps its
    name, its geometry type and its fields, the features it held are still
    there, in order, before the new ones, and the object being worked on is
    the same. *)
Theorem reporting_only_appends `{Collaborators} (cs : list report)
    (r : reporter) :
  let r' := (run_reports cs r).2 in
  same_schema r r' ∧
  (∀ l, layer_features (get_layer l r) `prefix_of` layer_features (get_layer l r')) ∧
  m_object_type r' = m_object_type r ∧
  m_object_id r' = m_object_id r ∧
  m_nodes r' = m_nodes r.
Proof.
  apply (keeps_run_reports frame frame_refl frame_trans frame_add).
Qed.

(** *** The features fit the schema *)

Lemma char_string_length c : (String.length (char_string c) ≤ 1)%nat.
Proof. unfold char_string. destruct (decide _); cbn; lia. Qed.

Lemma problem_labels_fit p :
  p ∈ problem_labels → (String.length p ≤ 30)%nat.
Proof.
  unfold problem_labels. intros Hp.
  repeat (apply elem_of_cons in Hp as [->|Hp]; [cbn; lia|]).
  by apply elem_of_nil in Hp.
Qed.

Section schema.

Context `{Collaborators}.

Ltac dom_fields :=
  unfold fills_its_layer, point_feature, line_feature, way_problem_feature,
    way_feature, set_object, set_field, new_feature;
  cbn [feature_fields feature_layer];
  rewrite !dom_insert_L, dom_empty_L;
  unfold field_names; cbn; set_solver.

Lemma run_report_fills c : steps (λ _, fills_its_layer) (run_report c).
Proof.
  apply run_report_builds; intros; dom_fields.
Qed.

Ltac string_fields :=
  unfold strings_fit, point_feature, line_feature, way_problem_feature,
    way_feature, set_object, set_field, new_feature;
  cbn [feature_fields feature_layer];
  repeat (apply map_Forall_insert_2; [|]);
  [..|apply map_Forall_empty]; intros s Hs; try discriminate Hs;
  injection Hs as <-; eexists; (split; [reflexivity|]).

Lemma run_report_strings_fit c : steps (λ _, strings_fit) (run_report c).
Proof.
  apply run_report_builds; intros; string_fields;
    try (apply (Nat2Z.inj_le _ 30), problem_labels_fit; assumption);
    try (apply (Nat2Z.inj_le _ 1), char_string_length).
Qed.

End schema.

(** X18. Writers and constructor agree on the fields: every feature that
    any report writes fills exactly the fields the constructor gave the
    layer it goes to, no more and no fewer; on a reporter whose layers are as
    constructed these are the fields of the layer it is found in. *)
Theorem features_fill_their_layer `{Collaborators} (c : report) (r : reporter)
    (l : layer_id) :
  as_constructed r →
  Forall (λ f, dom (feature_fields f)
               = field_names (get_layer l (run_report c r).2))
         (written l r (run_report c r).2).
Proof.
  intros Hr.
  pose proof (extends_written _ _ _ l (run_report_fills c r)) as Hall.
  pose proof (keeps_run_report frame frame_refl frame_trans frame_add c r)
    as (Hschema & _).
  eapply Forall_impl; [exact Hall|]. intros f [<- Hf]. cbn beta in Hf.
  unfold fills_its_layer in Hf. rewrite Hf. unfold field_names.
  destruct (Hschema (feature_layer f)) as (_ & _ & ->). by rewrite Hr.
Qed.

(** X18 at a way with two nodes reported to a fresh reporter. *)
Lemma features_fill_their_layer_witness :
  @as_constructed checked_collaborators fresh_reporter ∧
  (λ f, dom (feature_fields f))
    <$> written ways fresh_reporter
          (@run_report checked_collaborators (@ReportWay checked_collaborators proper_way) fresh_reporter).2
  = [field_names (m_layer_ways fresh_reporter)].
Proof.
  assert (@as_constructed checked_collaborators fresh_reporter) as Hr
    by (by intros []).
  split; [exact Hr|].
  pose proof (@features_fill_their_layer checked_collaborators
                (@ReportWay checked_collaborators proper_way) fresh_reporter ways Hr) as Hall.
  assert (∃ f, written ways fresh_reporter
                 (@run_report checked_collaborators (@ReportWay checked_collaborators proper_way)
                    fresh_reporter).2 = [f]) as [f Hf]
    by (eexists; vm_compute; reflexivity).
  rewrite Hf in Hall |- *. apply (proj1 (Forall_singleton _ _)) in Hall.
  cbn beta in Hall.
  cbn [fmap list_fmap]. f_equal. etrans; [exact Hall|]. vm_compute. reflexivity.
Defined.

(** X19. The strings written fit the widths declared: in every feature
    that any report writes, a field given as a string holds at most as many
    characters as the constructor declared for that field, one for the
    object type and thirty for the problem label. *)
Theorem strings_fit_their_fields `{Collaborators} (c : report) (r : reporter)
    (l : layer_id) :
  Forall (λ f, ∀ name s,
            field name f = Some (VString s) →
            ∃ w, width_of (constructed_layer l) name = Some w ∧
                 Z.of_nat (String.length s) ≤ w)
         (written l r (run_report c r).2).
Proof.
  pose proof (extends_written _ _ _ l (run_report_strings_fit c r)) as Hall.
  eapply Forall_impl; [exact Hall|]. intros f [<- Hf] name s Hs.
  by apply (Hf name (VString s) Hs s).
Qed.

(** *** What the [try] blocks let through *)

Section exceptions.

Context `{Collaborators}.

Lemma try_catch_lets_through (w : Way Location) what
    (k : ogr_geometry coordinate → M unit) (r : reporter) :
  create_linestring w = Throw (other_exception what) →
  try_catch_geometry_error (lift (create_linestring w) ≫= k) r
  = (Throw (other_exception what), r).
Proof.
  intros Hw. unfold try_catch_geometry_error, mbind, M_bind, bind, lift.
  by rewrite Hw.
Qed.

Lemma write_way_problem_lets_through p (w : Way Location) what r :
  (2 ≤ length (nodes w))%nat →
  create_linestring w = Throw (other_exception what) →
  write_way_problem p w r = (Throw (other_exception what), r).
Proof.
  intros Hlen Hw. unfold write_way_problem.
  destruct (decide _); [lia|]. by apply try_catch_lets_through.
Qed.

Lemma report_way_lets_through (w : Way Location) what r :
  (2 ≤ length (nodes w))%nat →
  create_linestring w = Throw (other_exception what) →
  report_way w r = (Throw (other_exception what), r).
Proof.
  intros Hlen Hw. unfold report_way.
  destruct (nodes w) as [|n [|n' ns]]; [cbn in Hlen; lia..|].
  by apply try_catch_lets_through.
Qed.

Lemma run_reports_stop c rest (r r' : reporter) e :
  run_report c r = (Throw e, r') → run_reports (c :: rest) r = (Throw e, r').
Proof.
  intros Hc. cbn [run_reports]. unfold mbind, M_bind, bind. by rewrite Hc.
Qed.

Lemma written_trans (r r1 r2 : reporter) l :
  frame r r1 → frame r1 r2 →
  written l r r2 = written l r r1 ++ written l r1 r2.
Proof.
  intros (_ & Hp1 & _) (_ & Hp2 & _).
  destruct (Hp1 l) as [x Hx], (Hp2 l) as [y Hy]. unfold written.
  rewrite Hy, Hx, <- app_assoc, !drop_app_length.
  by rewrite app_assoc, drop_app_length.
Qed.

Lemma set_object_same (r r' : reporter) f :
  frame r r' → set_object r' f = set_object r f.
Proof.
  intros (_ & _ & Ht & Hi & Hn). unfold set_object. by rewrite Ht, Hi, Hn.
Qed.

End exceptions.

(** X20. Only geometry errors are swallowed.  For a way of two nodes or
    more, any other exception that [create_linestring] throws leaves each of
    the four operations as it was thrown, with nothing written, and ends a
    run of reports there; and when OGR refuses the feature, the exception of
    [add_to_layer] leaves [report_way] although it is thrown inside the [try]
    block. *)
Theorem only_geometry_errors_are_swallowed `{Collaborators}
    (w : Way Location) (r : reporter) :
  (2 ≤ length (nodes w))%nat →
  (∀ what, create_linestring w = Throw (other_exception what) →
     report_way_in_multiple_rings w r = (Throw (other_exception what), r) ∧
     report_inner_with_same_tags w r = (Throw (other_exception what), r) ∧
     report_duplicate_way w r = (Throw (other_exception what), r) ∧
     report_way w r = (Throw (other_exception what), r) ∧
     ∀ rest, run_reports (ReportWay w :: rest) r
             = (Throw (other_exception what), r)) ∧
  (∀ g, create_linestring w = Ok g →
     create_feature_ok (way_feature r g w) = false →
     report_way w r = (Throw (other_exception "feature creation failed"), r)).
Proof.
  intros Hlen. split.
  - intros what Hw.
    pose proof (λ p, write_way_problem_lets_through p w what r Hlen Hw) as Hp.
    pose proof (report_way_lets_through w what r Hlen Hw) as Hr.
    repeat split; try apply Hp; [done|].
    intros rest. by apply run_reports_stop.
  - intros g Hg Hno. unfold report_way.
    destruct (nodes w) as [|n [|n' ns]]; [cbn in Hlen; lia..|].
    unfold try_catch_geometry_error, mbind, M_bind, bind, lift, this, add_to_layer.
    rewrite Hg. unfold way_feature in Hno. by rewrite Hno.
Qed.

(** X20 at a way one of whose nodes has no location. *)
Lemma only_geometry_errors_are_swallowed_witness :
  (2 ≤ length (nodes way_with_undefined_location))%nat ∧
  @create_linestring checked_collaborators way_with_undefined_location
  = Throw (other_exception "invalid location") ∧
  @report_duplicate_way checked_collaborators way_with_undefined_location
    fresh_reporter
  = (Throw (other_exception "invalid location"), fresh_reporter).
Proof.
  assert (2 ≤ length (nodes way_with_undefined_location))%nat as Hlen
    by (cbn; lia).
  split; [exact Hlen|]. split; [reflexivity|].
  destruct (@only_geometry_errors_are_swallowed checked_collaborators
              way_with_undefined_location fresh_reporter Hlen) as [Hthrow _].
  destruct (Hthrow "invalid location" eq_refl) as (_ & _ & Hd & _).
  exact Hd.
Defined.

(** X21. A way of a single node is reported outside the [try] block:
    whatever [create_point] throws for the node's location, a geometry error
    included, leaves [report_way], and nothing is written. *)
Theorem single_node_way_is_not_protected `{Collaborators}
    (w : Way Location) (n : NodeRef Location) (e : exception) (r : reporter) :
  nodes w = [n] →
  create_point (location n) = Throw e →
  report_way w r = (Throw e, r).
Proof.
  intros Hn Hp. unfold report_way. rewrite Hn.
  unfold write_point, mbind, M_bind, bind, lift. by rewrite Hp.
Qed.

(** X21 at a way whose only node has no location. *)
Lemma single_node_way_is_not_protected_witness :
  nodes single_undefined_node_way
  = [ {| ref := 3; location := (2 ^ 31 - 1, 2 ^ 31 - 1) |} ] ∧
  @create_point checked_collaborators (2 ^ 31 - 1, 2 ^ 31 - 1)
  = Throw (other_exception "invalid location") ∧
  @report_way checked_collaborators single_undefined_node_way fresh_reporter
  = (Throw (other_exception "invalid location"), fresh_reporter).
Proof.
  split; [reflexivity|]. split; [reflexivity|].
  exact (@single_node_way_is_not_protected checked_collaborators
           single_undefined_node_way _ _ fresh_reporter eq_refl eq_refl).
Defined.

(** X22. [report_intersection] writes a point and two lines, one after the
    other, and does not take back what it has written: when the point is
    written and the first segment then has no coordinates, the exception
    leaves the operation with the point feature in the layer and no line;
    when all goes well the point layer gains the point and the line layer
    the two segments in order, the second with the two way ids swapped. *)
Theorem report_intersection_writes `{Collaborators}
    (way1_id way2_id : Z) (s1 e1 s2 e2 i : Location)
    (g : ogr_geometry coordinate) (r : reporter) :
  create_point i = Ok g →
  create_feature_ok (point_feature r g "intersection" way1_id way2_id) = true →
  let out := report_intersection way1_id s1 e1 way2_id s2 e2 i r in
  (∀ e, lon_lat s1 = Throw e →
     out.1 = Throw e ∧
     written perrors r out.2
     = [point_feature r g "intersection" way1_id way2_id] ∧
     written lerrors r out.2 = []) ∧
  (∀ p1 q1 p2 q2,
     lon_lat s1 = Ok p1 → lon_lat e1 = Ok q1 →
     lon_lat s2 = Ok p2 → lon_lat e2 = Ok q2 →
     create_feature_ok (line_feature r p1 q1 "intersection" way1_id way2_id) = true →
     create_feature_ok (line_feature r p2 q2 "intersection" way2_id way1_id) = true →
     out.1 = Ok tt ∧
     written perrors r out.2
     = [point_feature r g "intersection" way1_id way2_id] ∧
     written lerrors r out.2
     = [line_feature r p1 q1 "intersection" way1_id way2_id;
        line_feature r p2 q2 "intersection" way2_id way1_id]).
Proof.
  intros Hg Hok out. subst out.
  set (pf := point_feature r g "intersection" way1_id way2_id) in *.
  destruct (written_add pf r perrors Hok) as [Hadd Hwp].
  destruct (written_add pf r lerrors Hok) as [_ Hwl].
  assert (write_point "intersection" way1_id way2_id i r = add_to_layer pf r)
    as Hpoint.
  { unfold write_point, mbind, M_bind, bind, lift, this. by rewrite Hg. }
  set (r1 := (add_to_layer pf r).2) in *.
  assert (frame r r1) as Hf1 by apply frame_add.
  assert (add_to_layer pf r = (Ok tt, r1)) as Hadd1 by (by apply add_to_layer_Ok).
  split.
  - intros e He.
    assert (report_intersection way1_id s1 e1 way2_id s2 e2 i r = (Throw e, r1))
      as ->.
    { unfold report_intersection. unfold mbind at 1, M_bind at 1, bind at 1.
      rewrite Hpoint, Hadd1.
      unfold mbind at 1, M_bind at 1, bind at 1.
      unfold write_line, mbind, M_bind, bind, lift. by rewrite He. }
    cbn [fst snd]. split; [done|]. by rewrite Hwp, Hwl.
  - intros p1 q1 p2 q2 Hs1 He1 Hs2 He2 Hok1 Hok2.
    set (lf1 := line_feature r p1 q1 "intersection" way1_id way2_id) in *.
    set (lf2 := line_feature r p2 q2 "intersection" way2_id way1_id) in *.
    assert (write_line "intersection" way1_id way2_id s1 e1 r1
            = add_to_layer lf1 r1) as Hline1.
    { unfold write_line, mbind, M_bind, bind, lift, this. rewrite Hs1, He1.
      unfold lf1, line_feature. by rewrite (set_object_same r r1). }
    set (r2 := (add_to_layer lf1 r1).2) in *.
    assert (frame r1 r2) as Hf2 by apply frame_add.
    assert (frame r r2) as Hf02 by (by eapply frame_trans).
    assert (write_line "intersection" way2_id way1_id s2 e2 r2
            = add_to_layer lf2 r2) as Hline2.
    { unfold write_line, mbind, M_bind, bind, lift, this. rewrite Hs2, He2.
      unfold lf2, line_feature. by rewrite (set_object_same r r2). }
    destruct (written_add lf1 r1 perrors Hok1) as [Hadd2 Hw1p].
    destruct (written_add lf1 r1 lerrors Hok1) as [_ Hw1l].
    destruct (written_add lf2 r2 perrors Hok2) as [Hadd3 Hw2p].
    destruct (written_add lf2 r2 lerrors Hok2) as [_ Hw2l].
    assert (report_intersection way1_id s1 e1 way2_id s2 e2 i r
            = (Ok tt, (add_to_layer lf2 r2).2)) as ->.
    { unfold report_intersection. unfold mbind at 1, M_bind at 1, bind at 1.
      rewrite Hpoint, Hadd1.
      unfold mbind at 1, M_bind at 1, bind at 1.
      rewrite Hline1. fold r2.
      assert (add_to_layer lf1 r1 = (Ok tt, r2)) as ->
        by (by apply add_to_layer_Ok).
      rewrite Hline2. by apply add_to_layer_Ok. }
    cbn [fst snd]. split; [done|].
    assert (frame r2 (add_to_layer lf2 r2).2) as Hf3 by apply frame_add.
    rewrite !(written_trans r r2 _ _ Hf02 Hf3), !(written_trans r r1 r2 _ Hf1 Hf2).
    fold r1 in Hwp, Hwl. fold r2 in Hw1p, Hw1l.
    by rewrite Hwp, Hwl, Hw1p, Hw1l, Hw2p, Hw2l.
Qed.

(** X22 at an intersection whose first segment starts nowhere. *)
Lemma report_intersection_writes_witness :
  let out := @report_intersection checked_collaborators
               11 (2 ^ 31 - 1, 0) (1, 1) 12 (2, 2) (3, 3) (5, 5) fresh_reporter in
  @create_point checked_collaborators (5, 5) = Ok (OGRPoint 5 5) ∧
  out.1 = Throw (other_exception "invalid location") ∧
  length (written perrors fresh_reporter out.2) = 1%nat ∧
  written lerrors fresh_reporter out.2 = [].
Proof.
  cbv zeta. split; [reflexivity|].
  destruct (@report_intersection_writes checked_collaborators
              11 12 (2 ^ 31 - 1, 0) (1, 1) (2, 2) (3, 3) (5, 5) (OGRPoint 5 5)
              fresh_reporter eq_refl eq_refl) as [Hpartial _].
  destruct (Hpartial (other_exception "invalid location") eq_refl)
    as (Hres & Hp & Hl).
  split; [exact Hres|]. split; [by rewrite Hp | exact Hl].
Defined.

End ProblemReporterOGRFacts.
